(** * container::vector (src/vector.h): a shallow embedding and its properties

    The growable array of [src/vector.h] is embedded as a state-and-exception
    monad over an explicit store:

    - [std::size_t] values are integers reduced modulo [2^64] at every
      arithmetic operation of the source ([SizeT]);
    - a [Type*] is either [Null] or a block address with an element offset;
    - the memory provider hands out blocks, each a list of slots; a slot is
      [None] while it is raw storage and [Some v] while it holds a live
      element;
    - the fields [m_vector], [m_capacity], [m_size] and [m_allocator] of the
      object a member function runs on ([this]) and of its argument [other]
      ([that]) are part of the state, so that a propagating exception leaves
      exactly the fields the source had written so far;
    - an argument passed by reference ([const Type&], [Type&&]) is a
      [reference]: an object outside the storage of the vector, or an
      address of the store that is read where the source reads it;
    - the standard algorithms the source calls on raw pointers behave as the
      standard says; [std::lexicographical_compare], which it calls on
      iterators of the container, is embedded as libstdc++ implements it,
      because the reversed difference of these iterators (line 90) makes
      its result depend on the implementation;
    - a computation ends normally, by a propagating exception, in undefined
      behaviour (an access outside a block, a non-terminating loop) or by
      program termination (a failed [assert], an exception leaving a
      [noexcept] function).

    The embedding is strict about memory and lenient about object lifetime:
    an access outside an allocated block is undefined behaviour, whereas
    reading a raw slot yields an unspecified value ([indeterminate]) and
    constructing over, assigning to or destroying a slot in either state is
    allowed.  The source relies on this throughout: [shift_and_construct]
    copy-constructs every new tail slot from itself before shifting.  What
    is proved of the code is therefore proved of every execution the model
    does not already reject as undefined. *)

From Stdlib Require Import ZArith Lia.
From stdpp Require Import base list gmap.

Local Open Scope Z_scope.

(** ** [std::size_t] *)

Module SizeT.
Definition modulus : Z := 2 ^ 64.
Definition wrap (z : Z) : Z := z mod modulus.
Definition add (a b : Z) : Z := wrap (a + b).
Definition sub (a b : Z) : Z := wrap (a - b).
Definition mul (a b : Z) : Z := wrap (a * b).
(** [std::numeric_limits<std::ptrdiff_t>::max()] *)
Definition ptrdiff_max : Z := 2 ^ 63 - 1.
End SizeT.

Module constants.
Definition realloc_factor : Z := 2.
End constants.

(** ** Pointers and iterators

    [random_access::iterator<Type>] wraps a [Type*]; both are a [pointer]
    here.  Arithmetic on a null pointer stays null (the source only ever adds
    zero to one in a well-formed state). *)

Inductive pointer : Type :=
| Null
| Ptr (base : nat) (off : Z).

Definition ptr_add (p : pointer) (k : Z) : pointer :=
  match p with
  | Null => Null
  | Ptr a o => Ptr a (o + k)
  end.

Definition ptr_eqb (p q : pointer) : bool :=
  match p, q with
  | Null, Null => true
  | Ptr a o, Ptr b o' => Nat.eqb a b && (o =? o')
  | _, _ => false
  end.

(** The defaulted [operator<=>] of the iterator compares the raw pointers;
    pointers into different blocks are reported as unordered. *)
Definition ptr_leb (p q : pointer) : bool :=
  match p, q with
  | Null, Null => true
  | Ptr a o, Ptr b o' => Nat.eqb a b && (o <=? o')
  | _, _ => false
  end.

Definition is_null_ptr (p : pointer) : bool :=
  match p with Null => true | Ptr _ _ => false end.

(** [q - p] in elements; [None] when the two do not point into one block. *)
Definition ptr_diff (q p : pointer) : option Z :=
  match q, p with
  | Null, Null => Some 0
  | Ptr a o, Ptr b o' => if Nat.eqb a b then Some (o - o') else None
  | _, _ => None
  end.

(** ** Element types and memory providers *)

(** What the container consults about [Type]: the two type traits it branches
    on, [operator==] and [operator<], and the value read from raw storage. *)
Record element_type : Type := ElementType {
  carrier :> Type;
  indeterminate : carrier;
  is_nothrow_move_constructible : bool;
  is_copy_constructible : bool;
  elem_eq : carrier -> carrier -> bool;
  elem_lt : carrier -> carrier -> bool
}.

(** [std::allocator_traits<Allocator>]: the propagation policy.  An allocator
    instance is a number; two instances compare equal when the numbers do. *)
Record allocator_traits : Type := AllocatorTraits {
  propagate_on_container_copy_assignment : bool;
  propagate_on_container_move_assignment : bool;
  propagate_on_container_swap : bool;
  is_always_equal : bool
}.

(** [std::allocator<Type>] *)
Definition std_allocator : allocator_traits :=
  {| propagate_on_container_copy_assignment := false;
     propagate_on_container_move_assignment := true;
     propagate_on_container_swap := false;
     is_always_equal := true |}.

Inductive exn : Type :=
| ElementFailure   (* a constructor or assignment of [Type] threw *)
| BadAlloc         (* the memory provider could not supply the block *)
| LengthError      (* std::length_error *)
| OutOfRange.      (* std::out_of_range *)

Inductive value_category : Type := Lvalue | Rvalue.

(** An argument of type [const Type&] or [Type&&].  The object it refers to
    is either no part of the storage of the vector the member function runs
    on, and then has the value [v] whenever the function reads it, or the
    object at an address of the store, which is read as the store is at
    that point: [v.insert(v.begin(), v[2])] passes [Inside] of the address
    of [v[2]]. *)
Inductive reference (T : Type) : Type :=
| Outside (v : T)
| Inside (p : pointer).

Arguments Outside {T} v.
Arguments Inside {T} p.

(** What the memory provider and the element lifecycle manager were asked
    to do, in order. *)
Inductive event : Type :=
| Allocated (a : nat) (n : Z)
| Released (a : nat)
| Constructed (a : nat) (o : Z)
| Destroyed (a : nat) (o : Z).

Record vector : Type := Vector {
  m_vector : pointer;
  m_capacity : Z;
  m_size : Z;
  m_allocator : nat
}.

(** [constexpr vector() noexcept : m_vector{ nullptr } {}] *)
Definition vector_default : vector :=
  {| m_vector := Null; m_capacity := 0; m_size := 0; m_allocator := 0%nat |}.

(** [constexpr explicit vector(const_alloc_reference allocator) noexcept] *)
Definition vector_with_allocator (a : nat) : vector :=
  {| m_vector := Null; m_capacity := 0; m_size := 0; m_allocator := a |}.

Inductive outcome (S A : Type) : Type :=
| Ret (a : A) (s : S)     (* normal completion *)
| Throw (e : exn) (s : S) (* an exception propagates to the caller *)
| Undefined               (* undefined behaviour *)
| Terminated.             (* failed assert, or std::terminate *)

Arguments Ret {S A} a s.
Arguments Throw {S A} e s.
Arguments Undefined {S A}.
Arguments Terminated {S A}.

Section Model.
Context (E : element_type) (A : allocator_traits).

#[local] Abbreviation T := (carrier E).

(** *** The store *)

Record world : Type := World {
  this : vector;                        (* [*this] *)
  that : vector;                        (* the argument [other] *)
  blocks : gmap nat (list (option T));  (* allocated blocks, by address *)
  next_block : nat;                     (* next address handed out *)
  budget : option nat;                  (* element operations left before one throws *)
  trace : list event                    (* lifecycle events, oldest first *)
}.

Definition M (R : Type) : Type := world -> outcome world R.

#[global] Instance M_ret : MRet M := fun R (r : R) w => Ret r w.

#[global] Instance M_bind : MBind M := fun R R' (f : R -> M R') (m : M R) w =>
  match m w with
  | Ret r w' => f r w'
  | Throw e w' => Throw e w'
  | Undefined => Undefined
  | Terminated => Terminated
  end.

Definition throw {R} (e : exn) : M R := fun w => Throw e w.
Definition undefined {R} : M R := fun _ => Undefined.
Definition terminate {R} : M R := fun _ => Terminated.

(** [try { m } catch (...) { h; throw; }] *)
Definition on_throw {R} (m : M R) (h : M ()) : M R := fun w =>
  match m w with
  | Throw e w' =>
      match h w' with
      | Ret _ w'' => Throw e w''
      | Throw e' w'' => Throw e' w''
      | Undefined => Undefined
      | Terminated => Terminated
      end
  | r => r
  end.

(** A function declared [noexcept]. *)
Definition noexcept {R} (m : M R) : M R := fun w =>
  match m w with
  | Throw _ _ => Terminated
  | r => r
  end.

Definition assert (b : bool) : M () :=
  if b then mret () else terminate.

(** Runs [m] as a member function of [other]. *)
Definition swap_roles (w : world) : world :=
  {| this := that w; that := this w; blocks := blocks w;
     next_block := next_block w; budget := budget w; trace := trace w |}.

Definition on_other {R} (m : M R) : M R := fun w =>
  match m (swap_roles w) with
  | Ret r w' => Ret r (swap_roles w')
  | Throw e w' => Throw e (swap_roles w')
  | Undefined => Undefined
  | Terminated => Terminated
  end.

(** [for (std::size_t index{ lo }; index < hi; ++index) body] *)
Fixpoint for_range (n : nat) (index : Z) (body : Z -> M ()) : M () :=
  match n with
  | O => mret ()
  | S n' => body index ;; for_range n' (index + 1) body
  end.

Definition for_loop (lo hi : Z) (body : Z -> M ()) : M () :=
  for_range (Z.to_nat (hi - lo)) lo body.

(** [try { for (index = 0; index < hi; ++index) { body; ++made; } }
     catch (...) { handler(made); throw; }] *)
Fixpoint counted_range (n : nat) (index made : Z)
    (body : Z -> M ()) (handler : Z -> M ()) : M () :=
  match n with
  | O => mret ()
  | S n' =>
      on_throw (body index) (handler made) ;;
      counted_range n' (index + 1) (made + 1) body handler
  end.

Definition try_counted (hi : Z) (body : Z -> M ()) (handler : Z -> M ()) : M () :=
  counted_range (Z.to_nat hi) 0 0 body handler.

(** *** Field access *)

Definition get_m_vector : M pointer := fun w => Ret (m_vector (this w)) w.
Definition size : M Z := fun w => Ret (m_size (this w)) w.
Definition capacity : M Z := fun w => Ret (m_capacity (this w)) w.
Definition other_m_vector : M pointer := fun w => Ret (m_vector (that w)) w.
Definition other_size : M Z := fun w => Ret (m_size (that w)) w.
Definition other_capacity : M Z := fun w => Ret (m_capacity (that w)) w.
Definition other_allocator : M nat := fun w => Ret (m_allocator (that w)) w.
Definition get_allocator : M nat := fun w => Ret (m_allocator (this w)) w.

Definition with_this (f : vector -> vector) (w : world) : world :=
  {| this := f (this w); that := that w; blocks := blocks w;
     next_block := next_block w; budget := budget w; trace := trace w |}.

Definition set_m_vector (p : pointer) : M () := fun w =>
  Ret () (with_this (fun v => Vector p (m_capacity v) (m_size v) (m_allocator v)) w).
Definition set_m_capacity (c : Z) : M () := fun w =>
  Ret () (with_this (fun v => Vector (m_vector v) c (m_size v) (m_allocator v)) w).
Definition set_m_size (n : Z) : M () := fun w =>
  Ret () (with_this (fun v => Vector (m_vector v) (m_capacity v) n (m_allocator v)) w).
Definition set_m_allocator (a : nat) : M () := fun w =>
  Ret () (with_this (fun v => Vector (m_vector v) (m_capacity v) (m_size v) a) w).

(** [begin()] and [end()] *)
Definition begin_ : M pointer := get_m_vector.
Definition end_ : M pointer :=
  mv ← get_m_vector; sz ← size; mret (ptr_add mv sz).

(** [std::distance(pos, begin())] read into a [size_type].  The iterator's
    [operator-] is [std::distance(m_iterator, other.m_iterator)], so
    [begin() - pos] is the index of [pos]. *)
Definition index_of (pos : pointer) : M Z :=
  b ← begin_;
  match ptr_diff pos b with
  | Some d => mret (SizeT.wrap d)
  | None => undefined
  end.

(** *** The memory provider and the element lifecycle *)

(** [std::allocator_traits<allocator_type>::allocate(m_allocator, n)]: a
    fresh block of [n] raw slots; a request above [ptrdiff_max] fails. *)
Definition alloc (n : Z) : M pointer := fun w =>
  if SizeT.ptrdiff_max <? n then Throw BadAlloc w
  else
    Ret (Ptr (next_block w) 0)
        {| this := this w; that := that w;
           blocks := <[next_block w := replicate (Z.to_nat n) None]> (blocks w);
           next_block := S (next_block w); budget := budget w;
           trace := trace w ++ [Allocated (next_block w) n] |}.

(** [std::allocator_traits<allocator_type>::deallocate(m_allocator, p, n)]:
    [p] must be null or the base of a live block.  The count [n] is not
    compared with the length of the block: the source passes the new
    [m_capacity] for the old block whenever it grows (line 167). *)
Definition dealloc (p : pointer) (n : Z) : M () := fun w =>
  match p with
  | Null => Ret () w
  | Ptr a o =>
      match blocks w !! a with
      | Some blk =>
          if o =? 0 then
            Ret () {| this := this w; that := that w;
                      blocks := delete a (blocks w);
                      next_block := next_block w; budget := budget w;
                      trace := trace w ++ [Released a] |}
          else Undefined
      | None => Undefined
      end
  end.

Definition load (p : pointer) : M (option T) := fun w =>
  match p with
  | Null => Undefined
  | Ptr a o =>
      match blocks w !! a with
      | Some blk =>
          if 0 <=? o then
            match blk !! Z.to_nat o with
            | Some s => Ret s w
            | None => Undefined
            end
          else Undefined
      | None => Undefined
      end
  end.

Definition store (p : pointer) (s : option T) : M () := fun w =>
  match p with
  | Null => Undefined
  | Ptr a o =>
      match blocks w !! a with
      | Some blk =>
          if (0 <=? o) && (o <? Z.of_nat (length blk))
          then Ret () {| this := this w; that := that w;
                         blocks := <[a := <[Z.to_nat o := s]> blk]> (blocks w);
                         next_block := next_block w; budget := budget w;
                         trace := trace w |}
          else Undefined
      | None => Undefined
      end
  end.

(** One element operation that may throw: it does when the budget is
    exhausted, and the budget is then lifted. *)
Definition tick (may_throw : bool) : M () := fun w =>
  if may_throw then
    match budget w with
    | Some O =>
        Throw ElementFailure
          {| this := this w; that := that w; blocks := blocks w;
             next_block := next_block w; budget := None; trace := trace w |}
    | Some (S n) =>
        Ret () {| this := this w; that := that w; blocks := blocks w;
                  next_block := next_block w; budget := Some n;
                  trace := trace w |}
    | None => Ret () w
    end
  else Ret () w.

(** Copying may always throw; moving may unless the type is nothrow move
    constructible (move assignment is taken to follow move construction). *)
Definition may_throw (c : value_category) : bool :=
  match c with
  | Lvalue => true
  | Rvalue => negb (is_nothrow_move_constructible E)
  end.

(** [*p] read as a value; raw storage reads as [indeterminate]. *)
Definition read (p : pointer) : M T :=
  s ← load p; mret (default (indeterminate E) s).

(** A use [k] of the argument [r]: the object is read where the source
    reads it. *)
Definition deref {R} (r : reference T) (k : T -> M R) : M R :=
  match r with
  | Outside v => k v
  | Inside p => v ← read p; k v
  end.

(** Records a lifecycle event at [p]. *)
Definition log (f : nat -> Z -> event) (p : pointer) : M () := fun w =>
  match p with
  | Null => Ret () w
  | Ptr a o =>
      Ret () {| this := this w; that := that w; blocks := blocks w;
                next_block := next_block w; budget := budget w;
                trace := trace w ++ [f a o] |}
  end.

(** [std::allocator_traits<allocator_type>::construct(m_allocator, p, v)]
    with [v] an lvalue (copy) or an rvalue (move).  The constructor runs
    first: when it throws, the slot is left as it was. *)
Definition construct_at (p : pointer) (c : value_category) (v : T) : M () :=
  tick (may_throw c) ;; store p (Some v) ;; log Constructed p.

(** [*p = v] (copy) and [*p = std::move(v)] *)
Definition assign_at (p : pointer) (c : value_category) (v : T) : M () :=
  tick (may_throw c) ;; store p (Some v).

(** [std::allocator_traits<allocator_type>::destroy(m_allocator, p)] *)
Definition destroy_at (p : pointer) : M () :=
  store p None ;; log Destroyed p.

(** *** Standard algorithms on raw pointers *)

(** [std::copy(first, last, d_first)] for [Lvalue], [std::move(first, last,
    d_first)] for [Rvalue]: front to back, one assignment per element. *)
Definition std_copy (c : value_category) (first last d_first : pointer) : M () :=
  match ptr_diff last first with
  | Some n =>
      if n <? 0 then undefined
      else for_range (Z.to_nat n) 0 (fun k =>
             v ← read (ptr_add first k); assign_at (ptr_add d_first k) c v)
  | None => undefined
  end.

(** [std::copy_backward] / [std::move_backward]: back to front. *)
Definition std_copy_backward (c : value_category) (first last d_last : pointer) : M () :=
  match ptr_diff last first with
  | Some n =>
      if n <? 0 then undefined
      else for_range (Z.to_nat n) 1 (fun k =>
             v ← read (ptr_add last (- k)); assign_at (ptr_add d_last (- k)) c v)
  | None => undefined
  end.

(** [std::equal(first1, last1, first2, last2)] once the two lengths agree. *)
Fixpoint equal_range (n : nat) (p q : pointer) : M bool :=
  match n with
  | O => mret true
  | S n' =>
      x ← read p; y ← read q;
      if elem_eq E x y then equal_range n' (ptr_add p 1) (ptr_add q 1)
      else mret false
  end.

Definition std_equal (p : pointer) (n1 : Z) (q : pointer) (n2 : Z) : M bool :=
  if n1 =? n2 then equal_range (Z.to_nat n1) p q else mret false.

(** *** Standard algorithms on iterators of the container *)

(** lines 90-92: the iterator's [operator-] is
    [std::distance(m_iterator, other.m_iterator)] on the raw pointers, taken
    in this order: [a - b] is [b.m_iterator - a.m_iterator]. *)
Definition iterator_minus (a b : pointer) : option Z := ptr_diff b a.

(** [std::distance(first, last)] on two iterators of the container: for a
    random access iterator it is [last - first]. *)
Definition std_distance (first last : pointer) : option Z :=
  iterator_minus last first.

(** [p + k] on a pointer that may be null: a non-zero offset from the null
    pointer is undefined. *)
Definition ptr_offset (p : pointer) (k : Z) : M pointer :=
  match p with
  | Null => if k =? 0 then mret Null else undefined
  | Ptr a o => mret (Ptr a (o + k))
  end.

(** One more than the number of slots from [p] to the end of its block: a
    loop that reads [*p], [*(p + 1)], ... has left the block, or ended,
    within that many steps. *)
Definition steps_within (p : pointer) : M nat := fun w =>
  Ret (match p with
       | Null => 1%nat
       | Ptr a o =>
           match blocks w !! a with
           | Some blk => S (Z.to_nat (Z.of_nat (length blk) - o))
           | None => 1%nat
           end
       end) w.

(** The loop of [std::__lexicographical_compare_impl] for two random access
    ranges (libstdc++, bits/stl_algobase.h): the second range is not tested
    for its end ([__cnd2] is [true]), and the loop is left when a pair of
    elements differs or [first1] meets [last1]. *)
Fixpoint lexicographical_compare_loop (fuel : nat)
    (first1 last1 first2 last2 : pointer) : M bool :=
  if ptr_eqb first1 last1
  then mret (ptr_eqb first1 last1 && negb (ptr_eqb first2 last2))
  else
    match fuel with
    | O => undefined
    | S fuel' =>
        x ← read first1; y ← read first2;
        if elem_lt E x y then mret true
        else if elem_lt E y x then mret false
        else lexicographical_compare_loop fuel'
               (ptr_add first1 1) last1 (ptr_add first2 1) last2
    end.

(** [std::lexicographical_compare(first1, last1, first2, last2)] with raw
    pointers for the first range and iterators of the container for the
    second one, as libstdc++ runs it: both have the random access category,
    so [__newlast1] first cuts the first range down to the length of the
    second, [__diff2 < __diff1 ? __first1 + __diff2 : __last1].  The two
    lengths are differences; [__diff2] is the iterator's [operator-], which
    yields the length of the second range negated.  For a non-empty second
    range the loop is therefore given an end before [first1], which it never
    meets: it stops at the first pair of elements that differ, or leaves
    the blocks. *)
Definition std_lexicographical_compare (first1 last1 first2 last2 : pointer) : M bool :=
  match ptr_diff last1 first1, iterator_minus last2 first2 with
  | Some diff1, Some diff2 =>
      new_last1 ← (if diff2 <? diff1 then ptr_offset first1 diff2 else mret last1);
      fuel ← steps_within first1;
      lexicographical_compare_loop fuel first1 new_last1 first2 last2
  | _, _ => undefined
  end.

(** *** Private member functions *)

(** [reset(other)], lines 114-118 *)
Definition reset_other : M () := fun w =>
  Ret () {| this := this w;
            that := Vector Null 0 0 (m_allocator (that w));
            blocks := blocks w; next_block := next_block w;
            budget := budget w; trace := trace w |}.

Definition set_other_m_vector (p : pointer) : M () :=
  on_other (set_m_vector p).

(** lines 120-123 *)
Definition allocate (cap : Z) : M () :=
  set_m_capacity cap ;;
  p ← alloc cap; set_m_vector p.

(** lines 125-129 *)
Definition deallocate (cap : Z) : M () :=
  mv ← get_m_vector;
  dealloc mv cap ;;
  set_m_capacity 0 ;;
  set_m_size 0.

(** lines 131-134 *)
Definition reallocate (old_cap new_cap : Z) : M () :=
  deallocate old_cap ;; allocate new_cap.

(** lines 136-140: [construct(size, value)]; [value] is read for each copy. *)
Definition construct (n : Z) (value : reference T) : M () :=
  set_m_size n ;;
  for_loop 0 n (fun index =>
    mv ← get_m_vector;
    deref value (fun v => construct_at (ptr_add mv index) Lvalue v)).

(** lines 142-146 *)
Definition destruct (n : Z) : M () :=
  for_loop 0 n (fun index =>
    mv ← get_m_vector; destroy_at (ptr_add mv index)) ;;
  set_m_size 0.

(** lines 148-151 *)
Definition allocate_and_copy_construct (cap n : Z) (value : reference T) : M () :=
  allocate cap ;; construct n value.

Fixpoint construct_each (index : Z) (values : list T) : M () :=
  match values with
  | [] => mret ()
  | v :: rest =>
      mv ← get_m_vector;
      construct_at (ptr_add mv index) Lvalue v ;;
      construct_each (index + 1) rest
  end.

(** lines 153-157 *)
Definition construct_init_list (values : list T) : M () :=
  set_m_size (Z.of_nat (length values)) ;;
  construct_each 0 values.

(** lines 159-162 *)
Definition deallocate_and_destruct (cap n : Z) : M () :=
  noexcept (destruct n ;; deallocate cap).

(** lines 164-171 *)
Definition deallocate_destruct_keep_size_and_capacity (n cap : Z) : M () :=
  noexcept (
    sz ← size;
    for_loop 0 sz (fun index =>
      mv ← get_m_vector; destroy_at (ptr_add mv index)) ;;
    mv ← get_m_vector; old_cap ← capacity;
    dealloc mv old_cap ;;
    set_m_capacity cap ;;
    set_m_size n).

(** lines 173-178 *)
Definition uninitialized_alloc_copy : M () :=
  n ← other_size; set_m_size n ;;
  sz ← size;
  for_loop 0 sz (fun index =>
    mv ← get_m_vector; ov ← other_m_vector;
    v ← read (ptr_add ov index);
    construct_at (ptr_add mv index) Lvalue v).

(** lines 180-187 *)
Definition uninitialized_alloc_move : M () :=
  noexcept (
    n ← other_size; set_m_size n ;;
    c ← other_capacity; set_m_capacity c ;;
    sz ← size;
    for_loop 0 sz (fun index =>
      mv ← get_m_vector; ov ← other_m_vector;
      v ← read (ptr_add ov index);
      construct_at (ptr_add mv index) Rvalue v) ;;
    oc ← other_capacity; os ← other_size;
    on_other (deallocate_and_destruct oc os) ;;
    set_other_m_vector Null).

(** lines 189-196 *)
Definition copy : M () :=
  ov ← other_m_vector;
  if is_null_ptr ov then set_m_vector Null
  else n ← other_size; allocate n ;; uninitialized_alloc_copy.

(** The condition of lines 200 and 301-303. *)
Definition moves_elements : bool :=
  is_nothrow_move_constructible E
  || (negb (is_nothrow_move_constructible E) && negb (is_copy_constructible E)).

(** lines 198-226 *)
Definition reallocate_strong_guarantee (cap : Z) : M () :=
  tempVect ← alloc cap;
  sz ← size;
  (if moves_elements then
     for_loop 0 sz (fun index =>
       mv ← get_m_vector;
       v ← read (ptr_add mv index);
       construct_at (ptr_add tempVect index) Rvalue v)
   else
     try_counted sz
       (fun index =>
          mv ← get_m_vector;
          v ← read (ptr_add mv index);
          construct_at (ptr_add tempVect index) Lvalue v)
       (fun copiesMade =>
          for_loop 0 copiesMade (fun index => destroy_at (ptr_add tempVect index)) ;;
          dealloc tempVect cap)) ;;
  sz ← size;
  deallocate_destruct_keep_size_and_capacity sz cap ;;
  set_m_vector tempVect.

(** The rollback of lines 257-260: destroys the slots
    [size() + 1 + copies_made1] down to [size() + 2]. *)
Fixpoint destroy_down (n : nat) (copies_made1 : Z) : M () :=
  match n with
  | O => mret ()
  | S n' =>
      mv ← get_m_vector; sz ← size;
      destroy_at (ptr_add (ptr_add (ptr_add mv sz) 1) copies_made1) ;;
      destroy_down n' (copies_made1 - 1)
  end.

(** The loop of lines 250-262.  It ends when [current_pos] meets [end()];
    [fuel] is the number of steps that takes when [index_pos <= size()],
    and the loop runs off the block otherwise. *)
Fixpoint shift_backward (fuel : nat)
    (current_pos count_after_last_element last_element : pointer)
    (copies_made1 : Z) : M () :=
  e ← end_;
  if ptr_eqb current_pos e then mret ()
  else
    match fuel with
    | O => undefined
    | S fuel' =>
        on_throw
          (v ← read (ptr_add last_element (-1));
           assign_at (ptr_add count_after_last_element (-1)) Lvalue v)
          (destroy_down (Z.to_nat copies_made1) copies_made1) ;;
        shift_backward fuel' (ptr_add current_pos 1)
          (ptr_add count_after_last_element (-1)) (ptr_add last_element (-1))
          (copies_made1 + 1)
    end.

(** lines 228-282: [shift_and_construct(index_pos, value, count)]; [value]
    is read at line 271, once for each copy, after the elements have been
    shifted. *)
Definition shift_and_construct (index_pos : Z) (value : reference T) (count : Z) : M () :=
  mv ← get_m_vector; sz ← size;
  let count_after_last_element := ptr_add (ptr_add mv sz) count in
  let last_element := ptr_add mv sz in
  let current_pos := ptr_add mv index_pos in
  try_counted count
    (fun index =>
       v ← read (ptr_add mv (SizeT.add sz index));
       construct_at (ptr_add (ptr_add mv sz) index) Lvalue v)
    (fun copies_made =>
       for_loop 0 copies_made (fun index =>
         destroy_at (ptr_add (ptr_add mv sz) index))) ;;
  shift_backward (Z.to_nat (sz - index_pos))
    current_pos count_after_last_element last_element 0 ;;
  for_loop 0 count (fun index =>
    destroy_at (ptr_add (ptr_add mv index_pos) index)) ;;
  try_counted count
    (fun index =>
       deref value (fun v =>
         construct_at (ptr_add (ptr_add mv index_pos) index) Lvalue v))
    (fun copies_made2 =>
       for_loop 0 copies_made2 (fun index =>
         destroy_at (ptr_add (ptr_add mv sz) index))) ;;
  set_m_size (SizeT.add sz count).

(** The loops of lines 285-288 and 292-296 over [for (auto value : list)];
    each step first copies the list element into [value]. *)
Fixpoint construct_tail_each (index : Z) (values : list T) : M () :=
  match values with
  | [] => mret ()
  | _ :: rest =>
      tick true ;;
      mv ← get_m_vector; sz ← size;
      v ← read (ptr_add mv (SizeT.add sz index));
      construct_at (ptr_add (ptr_add mv sz) index) Lvalue v ;;
      construct_tail_each (index + 1) rest
  end.

Fixpoint replace_each (pos_index_position index : Z) (values : list T) : M () :=
  match values with
  | [] => mret ()
  | value :: rest =>
      tick true ;;
      mv ← get_m_vector;
      destroy_at (ptr_add (ptr_add mv pos_index_position) index) ;;
      construct_at (ptr_add (ptr_add mv pos_index_position) index) Lvalue value ;;
      replace_each pos_index_position (index + 1) rest
  end.

(** lines 284-298 *)
Definition shift_and_construct_init (pos_index_position : Z) (values : list T) : M () :=
  construct_tail_each 0 values ;;
  mv ← get_m_vector; sz ← size;
  std_copy_backward Lvalue (ptr_add mv pos_index_position) (ptr_add mv sz)
    (ptr_add (ptr_add mv sz) (Z.of_nat (length values))) ;;
  replace_each pos_index_position 0 values ;;
  sz ← size;
  set_m_size (SizeT.add sz (Z.of_nat (length values))).

(** lines 300-314: [shift_and_construct(index_pos, Type&& value)] *)
Definition shift_and_construct_rvalue (index_pos : Z) (value : reference T) : M () :=
  if moves_elements then
    mv ← get_m_vector; sz ← size;
    v ← read (ptr_add mv sz);
    construct_at (ptr_add mv sz) Rvalue v ;;
    std_copy_backward Rvalue (ptr_add mv index_pos) (ptr_add mv sz)
      (ptr_add (ptr_add mv sz) 1) ;;
    deref value (fun v => construct_at (ptr_add mv index_pos) Rvalue v) ;;
    set_m_size (SizeT.add sz 1)
  else shift_and_construct index_pos value 1.

(** Overload resolution on the value category of the argument. *)
Definition shift_and_construct_arg (index_pos : Z) (c : value_category)
    (value : reference T) : M () :=
  match c with
  | Lvalue => shift_and_construct index_pos value 1
  | Rvalue => shift_and_construct_rvalue index_pos value
  end.

(** lines 316-325: [insert_end_strong_guarantee(const Type&)] *)
Definition insert_end_strong_guarantee (value : reference T) : M () :=
  mv ← get_m_vector; sz ← size;
  on_throw (deref value (fun v => construct_at (ptr_add mv sz) Lvalue v)) (mret ()) ;;
  set_m_size (SizeT.add sz 1).

(** *** Public member functions

    A binary member function runs on [this] with [that] as its argument;
    the two are distinct objects, so the [this == &other] tests of the
    source are false. *)

(** lines 371-375: [vector(init_list_type values, allocator)] *)
Definition vector_init_list (values : list T) : M () :=
  allocate (Z.of_nat (length values)) ;;
  construct_init_list values.

(** lines 388-391 and 393-396: the copy constructors *)
Definition vector_copy : M () := copy.

(** lines 420-427: [vector(vector&& other) noexcept] *)
Definition vector_move : M () := fun w =>
  reset_other
    {| this := that w; that := that w; blocks := blocks w;
       next_block := next_block w; budget := budget w; trace := trace w |}.

(** lines 398-416: [operator=(const vector& other)] *)
Definition copy_assign : M () :=
  ov ← other_m_vector;
  if negb (is_null_ptr ov) then
    (if propagate_on_container_copy_assignment A
     then a ← other_allocator; set_m_allocator a
     else mret ()) ;;
    os ← other_size; cap ← capacity;
    (if cap <? os then reallocate cap os else mret ()) ;;
    uninitialized_alloc_copy
  else
    set_m_vector Null ;;
    set_m_size 0.

(** lines 440-463: [operator=(vector&& other) noexcept] *)
Definition move_assign : M () :=
  noexcept (
    (if propagate_on_container_move_assignment A then
       cap ← capacity; sz ← size;
       deallocate_and_destruct cap sz ;;
       a ← other_allocator; set_m_allocator a ;;
       ov ← other_m_vector; set_m_vector ov ;;
       reset_other
     else
       a ← get_allocator; b ← other_allocator;
       if Nat.eqb a b then
         cap ← capacity; sz ← size;
         deallocate_and_destruct cap sz ;;
         ov ← other_m_vector; set_m_vector ov ;;
         reset_other
       else
         sz ← size; destruct sz ;;
         cap ← capacity; oc ← other_capacity;
         reallocate cap oc ;;
         uninitialized_alloc_move) ;;
    os ← other_size; set_m_size os ;;
    oc ← other_capacity; set_m_capacity oc).

(** lines 465: [~vector() noexcept] *)
Definition vector_destroy : M () :=
  cap ← capacity; sz ← size; deallocate_and_destruct cap sz.

(** lines 476-479: [operator==(first, second)] with [first = *this] *)
Definition op_eq : M bool :=
  n1 ← size; n2 ← other_size;
  if n1 =? n2 then
    p ← get_m_vector; q ← other_m_vector;
    std_equal p n1 q n2
  else mret false.

(** lines 480-482 *)
Definition op_ne : M bool := b ← op_eq; mret (negb b).

(** lines 483-485: [std::lexicographical_compare(m_vector, m_vector + size(),
    other.begin(), other.end())] *)
Definition op_lt : M bool :=
  mv ← get_m_vector; sz ← size;
  first2 ← on_other begin_; last2 ← on_other end_;
  std_lexicographical_compare mv (ptr_add mv sz) first2 last2.

(** lines 486-488 *)
Definition op_gt : M bool := b ← op_lt; mret (negb b).

(** lines 490-492 *)
Definition op_le : M bool := b ← on_other op_lt; mret (negb b).

(** lines 494-496 *)
Definition op_ge : M bool := b ← op_lt; mret (negb b).

(** lines 533-538: [at(index)] *)
Definition at_ (index : Z) : M T :=
  sz ← size;
  if index <? sz then mv ← get_m_vector; read (ptr_add mv index)
  else throw OutOfRange.

(** lines 539-544: [operator[](index)] *)
Definition subscript (index : Z) : M T :=
  sz ← size;
  assert (index <? sz) ;;
  mv ← get_m_vector; read (ptr_add mv index).

(** lines 545-550 *)
Definition data : M pointer :=
  sz ← size;
  if negb (sz =? 0) then get_m_vector else mret Null.

(** lines 600-602 *)
Definition max_size : Z := SizeT.ptrdiff_max.

(** lines 606-608 *)
Definition empty : M bool := sz ← size; mret (sz =? 0).

(** lines 609-611 *)
Definition is_null : M bool := mv ← get_m_vector; mret (is_null_ptr mv).

(** lines 613-619 *)
Definition reserve (cap : Z) : M () :=
  if max_size <? cap then throw LengthError
  else
    old ← capacity;
    if old <? cap then reallocate_strong_guarantee cap else mret ().

(** lines 621-625 *)
Definition shrink_to_fit : M () :=
  cap ← capacity; sz ← size;
  if negb (cap =? sz) then reallocate_strong_guarantee sz else mret ().

(** lines 628-630 *)
Definition clear : M () :=
  noexcept (sz ← size; destruct sz).

(** The growth loop of lines 753-756 (and 647-650, 668-671):
    [do { if (m_capacity == 0) m_capacity = 1; m_capacity *= realloc_factor; }
     while (m_capacity < required);] with [required] re-evaluated each time.
    Modulo [2^64] the capacities repeat with period 64 once they have wrapped
    to zero, which happens within 64 doublings; 128 steps see every value the
    loop can ever reach, and the loop never ends when they run out. *)
Fixpoint grow_loop (fuel : nat) (required : M Z) : M () :=
  match fuel with
  | O => undefined
  | S fuel' =>
      cap ← capacity;
      (if cap =? 0 then set_m_capacity 1 else mret ()) ;;
      cap ← capacity;
      set_m_capacity (SizeT.mul cap constants.realloc_factor) ;;
      cap ← capacity; r ← required;
      if cap <? r then grow_loop fuel' required else mret ()
  end.

Definition grow (required : M Z) : M () := grow_loop 128 required.

(** lines 732-762: [emplace(pos, args...)] with one argument of type [Type],
    forwarded as an lvalue or as an rvalue reference. *)
Definition emplace (pos : pointer) (c : value_category) (value : reference T) : M pointer :=
  e ← end_;
  assert (ptr_leb pos e) ;;
  pos_index_position ← index_of pos;
  sz ← size; cap ← capacity;
  (if SizeT.add sz 1 <? cap then
     if ptr_eqb pos e then
       mv ← get_m_vector;
       on_throw (deref value (fun v => construct_at (ptr_add mv sz) c v))
                (destroy_at (ptr_add mv sz)) ;;
       set_m_size (SizeT.add sz 1)
     else shift_and_construct_arg pos_index_position c value
   else
     grow (sz ← size; mret (SizeT.add 1 sz)) ;;
     cap ← capacity;
     reallocate_strong_guarantee cap ;;
     shift_and_construct_arg pos_index_position c value) ;;
  mv ← get_m_vector;
  mret (ptr_add mv pos_index_position).

(** lines 632-638: [insert(pos, const_reference value)] for [Lvalue] and
    [insert(pos, value_type&& value)] for [Rvalue]; the reference is handed
    on to [emplace]. *)
Definition insert (pos : pointer) (c : value_category) (value : reference T) : M pointer :=
  emplace pos c value.

(** lines 640-656: [insert(pos, values)] *)
Definition insert_list (pos : pointer) (values : list T) : M pointer :=
  pos_index_position ← index_of pos;
  sz ← size; cap ← capacity;
  (if SizeT.add sz (Z.of_nat (length values)) <? cap then
     shift_and_construct_init pos_index_position values
   else
     grow (sz ← size; mret (SizeT.add (Z.of_nat (length values)) sz)) ;;
     cap ← capacity;
     reallocate_strong_guarantee cap ;;
     shift_and_construct_init pos_index_position values) ;;
  mv ← get_m_vector;
  mret (if Z.of_nat (length values) =? 0 then pos
        else ptr_add mv pos_index_position).

(** lines 658-677: [insert(pos, count, const_reference value)] *)
Definition insert_n (pos : pointer) (count : Z) (value : reference T) : M pointer :=
  pos_index_position ← index_of pos;
  sz ← size; cap ← capacity;
  (if SizeT.add sz count <? cap then
     e ← end_;
     if ptr_eqb pos e then insert_end_strong_guarantee value
     else shift_and_construct pos_index_position value count
   else
     grow size ;;
     cap ← capacity;
     reallocate_strong_guarantee cap ;;
     shift_and_construct pos_index_position value count) ;;
  mv ← get_m_vector;
  mret (if count =? 0 then pos else ptr_add mv pos_index_position).

(** lines 679-691: [erase(pos)] *)
Definition erase (pos : pointer) : M pointer :=
  e ← end_;
  assert (ptr_leb pos e) ;;
  pos_index_position ← index_of pos;
  mv ← get_m_vector; sz ← size;
  destroy_at (ptr_add mv pos_index_position) ;;
  std_copy (if is_nothrow_move_constructible E then Rvalue else Lvalue)
    (ptr_add (ptr_add mv pos_index_position) 1) (ptr_add mv sz)
    (ptr_add mv pos_index_position) ;;
  set_m_size (SizeT.sub sz 1) ;;
  e' ← end_;
  mret (if ptr_eqb e' pos then e' else ptr_add mv pos_index_position).

(** lines 693-711: [erase(first, last)] *)
Definition erase_range (first last : pointer) : M pointer :=
  e ← end_;
  let last_equals_end := ptr_eqb last e in
  assert (ptr_leb first e) ;;
  assert (ptr_leb last e) ;;
  assert (ptr_leb first last) ;;
  first_position ← index_of first;
  last_position ← index_of last;
  let difference := SizeT.sub last_position first_position in
  mv ← get_m_vector; sz ← size;
  for_loop first_position last_position (fun index =>
    destroy_at (ptr_add mv index)) ;;
  std_copy (if is_nothrow_move_constructible E then Rvalue else Lvalue)
    (ptr_add mv last_position) (ptr_add mv sz) (ptr_add mv first_position) ;;
  set_m_size (SizeT.sub sz difference) ;;
  mret (if last_equals_end then ptr_add mv last_position
        else ptr_add mv first_position).

(** lines 713-716 *)
Definition pop_back : M () :=
  noexcept (
    mv ← get_m_vector; sz ← size;
    destroy_at (ptr_add (ptr_add mv sz) (-1)) ;;
    set_m_size (SizeT.sub sz 1)).

(** lines 718-730: [resize(count, const_reference value)]; [value] is read
    by [insert_end_strong_guarantee], after the reallocation. *)
Definition resize (count : Z) (value : reference T) : M () :=
  temp_size ← size;
  if count <? temp_size then
    for_loop count temp_size (fun _ => pop_back)
  else
    cap ← capacity;
    (if cap <? count then reallocate_strong_guarantee count else mret ()) ;;
    for_loop temp_size count (fun _ => insert_end_strong_guarantee value).

(** lines 764-768: [emplace_back(Args... args)]; the argument has already
    been copied or moved into the by-value parameter and is forwarded as an
    rvalue. *)
Definition emplace_back (value : T) : M () :=
  e ← end_;
  emplace e Rvalue (Outside value) ;;
  mv ← get_m_vector; sz ← size;
  read (ptr_add (ptr_add mv sz) (-1)) ;;
  mret ().

(** lines 770-776: [push_back(const Type&)] for [Lvalue], [push_back(Type&&)]
    for [Rvalue]; the by-value parameter of [emplace_back] is built first. *)
Definition push_back (c : value_category) (value : T) : M () :=
  tick (may_throw c) ;;
  emplace_back value.

(** lines 778-787 *)
Definition swap : M () := fun w =>
  let a := this w in
  let b := that w in
  let exchange := propagate_on_container_swap A || is_always_equal A in
  Ret ()
    {| this := Vector (m_vector b) (m_capacity b) (m_size b)
                 (if exchange then m_allocator b else m_allocator a);
       that := Vector (m_vector a) (m_capacity a) (m_size a)
                 (if exchange then m_allocator a else m_allocator b);
       blocks := blocks w; next_block := next_block w;
       budget := budget w; trace := trace w |}.

(** *** The remaining constructors and [assign] *)

(** lines 366-369: [vector(length, value, allocator)]; [value] cannot
    refer into the vector that is being constructed. *)
Definition vector_fill (len : Z) (value : T) : M () :=
  allocate_and_copy_construct len len (Outside value).

(** The loops of lines 381-384 and 524-527: the elements of the range that
    starts at [first] are copy-constructed one by one, and [m_size] counts
    them. *)
Definition construct_counting (first : pointer) (n : Z) : M () :=
  for_loop 0 n (fun index =>
    mv ← get_m_vector;
    v ← read (ptr_add first index);
    construct_at (ptr_add mv index) Lvalue v ;;
    sz ← size; set_m_size (SizeT.add sz 1)).

(** lines 377-385: [vector(first, last, allocator)] on two iterators of a
    container; [m_size] starts from its default member initializer. *)
Definition vector_range (first last : pointer) : M () :=
  match std_distance last first with
  | Some d =>
      set_m_size 0 ;;
      allocate (SizeT.wrap d) ;;
      construct_counting first (SizeT.wrap d)
  | None => undefined
  end.

(** lines 500-506: [assign(size, const_reference value)]; [value] is read by
    [construct], when the elements have been destroyed and the block may have
    been replaced. *)
Definition assign_n (n : Z) (value : reference T) : M () :=
  sz ← size; destruct sz ;;
  cap ← capacity;
  (if cap <? n then reallocate cap n else mret ()) ;;
  construct n value.

(** lines 508-515: [assign(values)] *)
Definition assign_list (values : list T) : M () :=
  sz ← size; destruct sz ;;
  cap ← capacity;
  (if cap <? Z.of_nat (length values)
   then reallocate cap (Z.of_nat (length values)) else mret ()) ;;
  construct_init_list values.

(** lines 517-528: [assign(first, last)] on two iterators of a container.
    Line 520 passes the length of the new range to [destruct]. *)
Definition assign_range (first last : pointer) : M () :=
  match std_distance last first with
  | Some d =>
      destruct (SizeT.wrap d) ;;
      cap ← capacity;
      (if cap <? SizeT.wrap d then reallocate cap (SizeT.wrap d) else mret ()) ;;
      construct_counting first (SizeT.wrap d)
  | None => undefined
  end.

(** A local vector of a member function: [m] runs with a
    default-constructed vector in the place of [other], and the caller's
    [other] is back in place when [m] is left. *)
Definition with_local {R} (m : M R) : M R := fun w =>
  let restore w' :=
    {| this := this w'; that := that w; blocks := blocks w';
       next_block := next_block w'; budget := budget w'; trace := trace w' |} in
  match m {| this := this w; that := vector_default; blocks := blocks w;
             next_block := next_block w; budget := budget w; trace := trace w |} with
  | Ret r w' => Ret r (restore w')
  | Throw e w' => Throw e (restore w')
  | Undefined => Undefined
  | Terminated => Terminated
  end.

(** lines 468-472: [operator=(init_list_type values)]: [temp_vect] is built
    from the list, swapped with [*this] and destroyed on return. *)
Definition assign_init_list (values : list T) : M () :=
  with_local (
    on_other (vector_init_list values) ;;
    on_other swap ;;
    on_other vector_destroy).

(** lines 551-556: [back()] *)
Definition back : M T :=
  e ← end_; read (ptr_add e (-1)).

(** lines 557-562: [front()] *)
Definition front : M T :=
  b ← begin_; read b.

(** *** Observing a vector *)

(** The slots [[0, m_size)] of the block of [v], as the store holds them. *)
Definition slots_of (w : world) (v : vector) : option (list (option T)) :=
  match m_vector v with
  | Null => if m_size v =? 0 then Some [] else None
  | Ptr a o =>
      blk ← blocks w !! a;
      if (0 <=? o) && (o + m_size v <=? Z.of_nat (length blk))
      then Some (take (Z.to_nat (m_size v)) (drop (Z.to_nat o) blk))
      else None
  end.

(** The element values of [v], front to back. *)
Definition contents (w : world) (v : vector) : option (list T) :=
  fmap (M := option) (fmap (M := list) (default (indeterminate E))) (slots_of w v).

End Model.

(** ** Element types, starting states and specification-side notions *)

(** [int]: copying and moving cannot fail. *)
Definition int_type : element_type :=
  {| carrier := Z; indeterminate := 0;
     is_nothrow_move_constructible := true; is_copy_constructible := true;
     elem_eq := Z.eqb; elem_lt := Z.ltb |}.

(** An integer wrapper whose copy and move constructors may throw. *)
Definition throwing_type : element_type :=
  {| carrier := Z; indeterminate := 0;
     is_nothrow_move_constructible := false; is_copy_constructible := true;
     elem_eq := Z.eqb; elem_lt := Z.ltb |}.

(** Two default-constructed vectors and an empty store. *)
Definition start (E : element_type) : world E :=
  {| this := vector_default; that := vector_default; blocks := ∅;
     next_block := 0%nat; budget := None; trace := [] |}.

(** Test hook: the element operation after the next [n] ones throws. *)
Definition fail_after {E : element_type} (n : nat) : M E () := fun w =>
  Ret () {| this := this E w; that := that E w; blocks := blocks E w;
            next_block := next_block E w; budget := Some n; trace := trace E w |}.

(** Tail appends of the values of a list, front to back. *)
Fixpoint appends (E : element_type) (c : value_category) (values : list E) : M E () :=
  match values with
  | [] => mret ()
  | v :: rest => push_back E c v ;; appends E c rest
  end.

(** The representation invariant of the data model: [0 <= size <= capacity],
    the base address is null exactly when the capacity is zero, and the
    slots [[0, size)] of the block hold live elements. *)
Definition rep_inv {E : element_type} (w : world E) (v : vector) : Prop :=
  0 <= m_size v <= m_capacity v
  /\ (m_vector v = Null <-> m_capacity v = 0)
  /\ exists live : list E, slots_of E w v = Some (Some <$> live).

(** The smallest value of the sequence 1, 2, 4, 8, ... that is at least [k]. *)
Fixpoint doubling_from (fuel : nat) (p k : Z) : Z :=
  match fuel with
  | O => p
  | S fuel' => if k <=? p then p else doubling_from fuel' (2 * p) k
  end.

Definition smallest_doubling (k : Z) : Z := doubling_from 64 1 k.

(** [n] is a value of the sequence 2, 4, 8, ... *)
Definition doubled_power (n : Z) : Prop := exists j : Z, 1 <= j /\ n = 2 ^ j.

(** [this] is a well-formed vector holding exactly the elements [vals], and
    no element operation is scheduled to fail. *)
Definition holds {E : element_type} (w : world E) (vals : list E) : Prop :=
  budget E w = None
  /\ m_size (this E w) = Z.of_nat (length vals)
  /\ match m_vector (this E w) with
     | Null => m_capacity (this E w) = 0 /\ vals = []
     | Ptr a o =>
         o = 0 /\ (a < next_block E w)%nat
         /\ exists blk, blocks E w !! a = Some blk
              /\ Z.of_nat (length blk) = m_capacity (this E w)
              /\ take (length vals) blk = Some <$> vals
     end.

(** The capacity after one append to a well-formed vector of capacity [cap]
    and size [sz]: kept when line 737 finds room, doubled (from 1 if zero)
    otherwise; one doubling then always reaches [sz + 1]. *)
Definition next_capacity (cap sz : Z) : Z :=
  if sz + 1 <? cap then cap else Z.max cap 1 * 2.

(** The capacity after [k] appends to a vector of capacity [cap] and size [sz]. *)
Fixpoint capacity_after (cap sz : Z) (k : nat) : Z :=
  match k with
  | O => cap
  | S k' => capacity_after (next_capacity cap sz) (sz + 1) k'
  end.

(** What [next_capacity] keeps true of capacity and size from [0, 0] on. *)
Definition doubling_invariant (cap sz : Z) : Prop :=
  (sz = 0 /\ cap = 0) \/ (1 <= sz /\ doubled_power cap /\ sz < cap <= 2 * sz).

(** The new block after a reallocation to [n] slots: the first [s] elements
    of the old block, then raw slots. *)
Definition moved_block {E : element_type} (blk : list (option E)) (s n : nat)
    : list (option E) :=
  ((fun x => Some (default (indeterminate E) x)) <$> take s blk)
  ++ replicate (n - s) None.

(** A store whose [this] holds the elements [vals] in a block with [spare]
    further raw slots, next to a default-constructed [that]. *)
Definition filled (E : element_type) (vals : list E) (spare : nat) : world E :=
  {| this := {| m_vector := Ptr 0 0;
                m_capacity := Z.of_nat (length vals + spare);
                m_size := Z.of_nat (length vals);
                m_allocator := 0%nat |};
     that := vector_default;
     blocks := {[ 0%nat := (Some <$> vals) ++ replicate spare None ]};
     next_block := 1%nat; budget := None; trace := [] |}.

(** The store [w] with [ys] held by [that] in a block of its own, of exactly
    as many slots as [ys] has elements. *)
Definition beside {E : element_type} (w : world E) (ys : list E) : world E :=
  {| this := this E w;
     that := {| m_vector := Ptr (next_block E w) 0;
                m_capacity := Z.of_nat (length ys);
                m_size := Z.of_nat (length ys);
                m_allocator := 0%nat |};
     blocks := <[next_block E w := Some <$> ys]> (blocks E w);
     next_block := S (next_block E w); budget := budget E w; trace := trace E w |}.

(** Element-wise equality of two sequences of the same length. *)
Fixpoint pairwise_eq {E : element_type} (xs ys : list E) : bool :=
  match xs, ys with
  | [], [] => true
  | x :: xs', y :: ys' => elem_eq E x y && pairwise_eq xs' ys'
  | _, _ => false
  end.

(** Strict lexicographic order induced by [operator<] of the elements. *)
Fixpoint lex_less {E : element_type} (xs ys : list E) : bool :=
  match xs, ys with
  | _, [] => false
  | [], _ :: _ => true
  | x :: xs', y :: ys' =>
      if elem_lt E x y then true
      else if elem_lt E y x then false
      else lex_less xs' ys'
  end.

(** Neither element is less than the other one. *)
Definition equivalent {E : element_type} (x y : E) : Prop :=
  elem_lt E x y = false /\ elem_lt E y x = false.

(** The elements [xs] can be read one after the other from [p] on. *)
Definition readable {E : element_type} (w : world E) (p : pointer) (xs : list E) : Prop :=
  forall (k : nat) x, xs !! k = Some x -> read E (ptr_add p (Z.of_nat k)) w = Ret x w.

(** A tail operation: [push_back] of a value, or [pop_back]. *)
Inductive tail_op (E : element_type) : Type :=
| Push (c : value_category) (v : E)
| Pop.

Arguments Push {E} c v.
Arguments Pop {E}.

(** A sequence of tail operations, run in order. *)
Fixpoint tail_ops (E : element_type) (ops : list (tail_op E)) : M E () :=
  match ops with
  | [] => mret ()
  | Push c v :: rest => push_back E c v ;; tail_ops E rest
  | Pop :: rest => pop_back E ;; tail_ops E rest
  end.

(** The same sequence on a list; [None] when it removes from an empty one. *)
Fixpoint after_tail_ops {E : element_type} (vals : list E) (ops : list (tail_op E))
    : option (list E) :=
  match ops with
  | [] => Some vals
  | Push _ v :: rest => after_tail_ops (vals ++ [v]) rest
  | Pop :: rest =>
      match vals with
      | [] => None
      | _ :: _ => after_tail_ops (removelast vals) rest
      end
  end.

(** The numbers of appends and of removals in a sequence. *)
Fixpoint pushes {E : element_type} (ops : list (tail_op E)) : nat :=
  match ops with
  | [] => 0
  | Push _ _ :: rest => S (pushes rest)
  | Pop :: rest => pushes rest
  end.

Fixpoint pops {E : element_type} (ops : list (tail_op E)) : nat :=
  match ops with
  | [] => 0
  | Push _ _ :: rest => pops rest
  | Pop :: rest => S (pops rest)
  end.

(** [other] is a well-formed vector holding exactly the elements [vals]. *)
Definition other_holds {E : element_type} (w : world E) (vals : list E) : Prop :=
  holds (swap_roles E w) vals.

(** No block of the store has an address the provider has yet to hand out. *)
Definition fresh_next {E : element_type} (w : world E) : Prop :=
  forall b, (next_block E w <= b)%nat -> blocks E w !! b = None.

(** * Properties *)

Lemma wrap_small z : 0 <= z < SizeT.modulus -> SizeT.wrap z = z.
Proof. intros H. unfold SizeT.wrap. now apply Z.mod_small. Qed.

Lemma wrap_range z : 0 <= SizeT.wrap z < SizeT.modulus.
Proof. unfold SizeT.wrap. apply Z.mod_pos_bound. reflexivity. Qed.

Section Proofs.
Context (E : element_type) (A : allocator_traits).

(** ** Running a computation *)

(** A computation that returns hands its result to the continuation. *)
Lemma bind_ret {R R'} (m : M E R) (f : R -> M E R') w a w1 :
  m w = Ret a w1 -> (m ≫= f) w = f a w1.
Proof. intros H. unfold mbind, M_bind. now rewrite H. Qed.

Lemma bind_assoc {R R' R''} (m : M E R) (f : R -> M E R') (k : R' -> M E R'') w :
  ((m ≫= f) ≫= k) w = (m ≫= (fun x => f x ≫= k)) w.
Proof. unfold mbind, M_bind. now destruct (m w). Qed.

Lemma on_throw_ret {R} (m : M E R) (hd : M E ()) w r w' :
  m w = Ret r w' -> on_throw E m hd w = Ret r w'.
Proof. intros H. unfold on_throw. now rewrite H. Qed.

Lemma noexcept_ret {R} (m : M E R) w r w' :
  m w = Ret r w' -> noexcept E m w = Ret r w'.
Proof. intros H. unfold noexcept. now rewrite H. Qed.

Lemma bind_throw {R R'} (m : M E R) (f : R -> M E R') w e w1 :
  m w = Throw e w1 -> (m ≫= f) w = Throw e w1.
Proof. intros H. unfold mbind, M_bind. now rewrite H. Qed.

Lemma on_throw_throw {R} (m : M E R) (hd : M E ()) w e w1 w2 :
  m w = Throw e w1 -> hd w1 = Ret () w2 -> on_throw E m hd w = Throw e w2.
Proof. intros H H'. unfold on_throw. now rewrite H, H'. Qed.

Lemma assert_true b (w : world E) : b = true -> assert E b w = Ret () w.
Proof. now intros ->. Qed.

Ltac mstep tac := rewrite ?bind_assoc; erewrite bind_ret by tac.

Ltac norm := cbn [this that blocks next_block budget trace with_this
                  m_vector m_capacity m_size m_allocator ptr_add deref].

Ltac norm_in H := cbn [this that blocks next_block budget trace with_this
                  m_vector m_capacity m_size m_allocator ptr_add deref] in H.

Ltac mget := rewrite ?bind_assoc; erewrite bind_ret by reflexivity; norm.

(** ** The memory provider and the element operations, one step each *)

Lemma log_ok f a o th ta h nx bd tr :
  log E f (Ptr a o) (World E th ta h nx bd tr) = Ret () (World E th ta h nx bd (tr ++ [f a o])).
Proof. reflexivity. Qed.

Lemma store_ok th ta h nx bd tr a (i : nat) blk s :
  h !! a = Some blk -> (i < length blk)%nat ->
  store E (Ptr a (Z.of_nat i)) s (World E th ta h nx bd tr)
  = Ret () (World E th ta (<[a := <[i := s]> blk]> h) nx bd tr).
Proof.
  intros Hb Hi. unfold store. cbn. rewrite Hb.
  replace (0 <=? Z.of_nat i) with true by (symmetry; apply Z.leb_le; lia).
  replace (Z.of_nat i <? Z.of_nat (length blk)) with true by (symmetry; apply Z.ltb_lt; lia).
  cbn. now rewrite Nat2Z.id.
Qed.

Lemma load_ok th ta h nx bd tr a (i : nat) blk s :
  h !! a = Some blk -> blk !! i = Some s ->
  load E (Ptr a (Z.of_nat i)) (World E th ta h nx bd tr) = Ret s (World E th ta h nx bd tr).
Proof.
  intros Hb Hi. unfold load. cbn. rewrite Hb.
  replace (0 <=? Z.of_nat i) with true by (symmetry; apply Z.leb_le; lia).
  now rewrite Nat2Z.id, Hi.
Qed.

Lemma read_ok th ta h nx bd tr a (i : nat) blk s :
  h !! a = Some blk -> blk !! i = Some s ->
  read E (Ptr a (Z.of_nat i)) (World E th ta h nx bd tr)
  = Ret (default (indeterminate E) s) (World E th ta h nx bd tr).
Proof.
  intros Hb Hi. unfold read.
  now rewrite (bind_ret _ _ _ _ _ (load_ok _ _ _ _ _ _ _ _ _ _ Hb Hi)).
Qed.

Lemma tick_ok b th ta h nx tr :
  tick E b (World E th ta h nx None tr) = Ret () (World E th ta h nx None tr).
Proof. unfold tick. now destruct b. Qed.

Lemma assign_at_ok th ta h nx tr a (i : nat) blk c v :
  h !! a = Some blk -> (i < length blk)%nat ->
  assign_at E (Ptr a (Z.of_nat i)) c v (World E th ta h nx None tr)
  = Ret () (World E th ta (<[a := <[i := Some v]> blk]> h) nx None tr).
Proof.
  intros Hb Hi. unfold assign_at.
  rewrite (bind_ret _ _ _ _ _ (tick_ok _ _ _ _ _ _)).
  now apply store_ok.
Qed.

Lemma construct_at_ok th ta h nx tr a (i : nat) blk c v :
  h !! a = Some blk -> (i < length blk)%nat ->
  construct_at E (Ptr a (Z.of_nat i)) c v (World E th ta h nx None tr)
  = Ret () (World E th ta (<[a := <[i := Some v]> blk]> h) nx None
             (tr ++ [Constructed a (Z.of_nat i)])).
Proof.
  intros Hb Hi. unfold construct_at.
  rewrite (bind_ret _ _ _ _ _ (tick_ok _ _ _ _ _ _)).
  rewrite (bind_ret _ _ _ _ _ (store_ok _ _ _ _ _ _ _ _ _ _ Hb Hi)).
  reflexivity.
Qed.

Lemma destroy_at_ok th ta h nx bd tr a (i : nat) blk :
  h !! a = Some blk -> (i < length blk)%nat ->
  destroy_at E (Ptr a (Z.of_nat i)) (World E th ta h nx bd tr)
  = Ret () (World E th ta (<[a := <[i := None]> blk]> h) nx bd (tr ++ [Destroyed a (Z.of_nat i)])).
Proof.
  intros Hb Hi. unfold destroy_at.
  rewrite (bind_ret _ _ _ _ _ (store_ok _ _ _ _ _ _ _ _ _ _ Hb Hi)).
  reflexivity.
Qed.

Lemma alloc_ok th ta h nx bd tr (n : nat) :
  Z.of_nat n <= SizeT.ptrdiff_max ->
  alloc E (Z.of_nat n) (World E th ta h nx bd tr)
  = Ret (Ptr nx 0)
      (World E th ta (<[nx := replicate n None]> h) (S nx) bd
         (tr ++ [Allocated nx (Z.of_nat n)])).
Proof.
  intros Hn. unfold alloc.
  replace (SizeT.ptrdiff_max <? Z.of_nat n) with false by (symmetry; apply Z.ltb_ge; lia).
  cbn. now rewrite Nat2Z.id.
Qed.

Lemma dealloc_ok th ta h nx bd tr a blk n :
  h !! a = Some blk ->
  dealloc E (Ptr a 0) n (World E th ta h nx bd tr)
  = Ret () (World E th ta (delete a h) nx bd (tr ++ [Released a])).
Proof. intros Hb. unfold dealloc. cbn. now rewrite Hb. Qed.

Lemma ptr_leb_same a o o' : o <= o' -> ptr_leb (Ptr a o) (Ptr a o') = true.
Proof. intros H. cbn. rewrite Nat.eqb_refl. cbn. now apply Z.leb_le. Qed.

Lemma index_of_ok th ta h nx bd tr a (i : nat) :
  m_vector th = Ptr a 0 -> Z.of_nat i < SizeT.modulus ->
  index_of E (Ptr a (Z.of_nat i)) (World E th ta h nx bd tr)
  = Ret (Z.of_nat i) (World E th ta h nx bd tr).
Proof.
  intros Hv Hi. destruct th as [mv cap sz al]. cbn in Hv. subst mv.
  unfold index_of, begin_, get_m_vector, mbind, M_bind. cbn.
  rewrite Nat.eqb_refl. cbn. rewrite Z.sub_0_r, wrap_small by lia. reflexivity.
Qed.

(** ** The loops *)

(** A loop that destroys the slots [[i, i + n)] of one block. *)
Lemma destroy_range_ok (body : Z -> M E ()) th ta nx bd a n :
  (forall index h tr, body index (World E th ta h nx bd tr)
                      = destroy_at E (Ptr a index) (World E th ta h nx bd tr)) ->
  forall (i : nat) h tr blk,
  h !! a = Some blk -> (i + n <= length blk)%nat ->
  for_range E n (Z.of_nat i) body (World E th ta h nx bd tr)
  = Ret () (World E th ta
              (<[a := take i blk ++ replicate n None ++ drop (i + n) blk]> h) nx bd
              (tr ++ (Destroyed a <$> seqZ (Z.of_nat i) (Z.of_nat n)))).
Proof.
  intros Hbody. induction n as [|n IH]; intros i h tr blk Hb Hlen.
  - cbn. rewrite Nat.add_0_r, take_drop, insert_id by done.
    now rewrite app_nil_r.
  - cbn [for_range].
    assert (Hi : (i < length blk)%nat) by lia.
    pose proof (destroy_at_ok th ta h nx bd tr a i blk Hb Hi) as Hd.
    rewrite <- Hbody in Hd. rewrite (bind_ret _ _ _ _ _ Hd).
    replace (Z.of_nat i + 1) with (Z.of_nat (S i)) by lia.
    rewrite (IH (S i) _ _ (<[i := None]> blk)).
    + f_equal. f_equal.
      * rewrite insert_insert_eq. f_equal.
        rewrite (take_S_r _ _ None) by (apply list_lookup_insert_eq; lia).
        rewrite take_insert_ge by lia.
        rewrite drop_insert_lt by lia.
        rewrite <- app_assoc. cbn. now rewrite Nat.add_succ_r.
      * rewrite <- app_assoc. f_equal.
        rewrite (seqZ_cons (Z.of_nat i)) by lia. cbn. do 3 f_equal; lia.
    + apply lookup_insert_eq.
    + rewrite length_insert. lia.
Qed.

Lemma destroy_own_range_ok c sz al ta nx bd a n (i : nat) h tr blk :
  h !! a = Some blk -> (i + n <= length blk)%nat ->
  for_range E n (Z.of_nat i)
    (fun index => mv ← get_m_vector E; destroy_at E (ptr_add mv index))
    (World E (Vector (Ptr a 0) c sz al) ta h nx bd tr)
  = Ret () (World E (Vector (Ptr a 0) c sz al) ta
              (<[a := take i blk ++ replicate n None ++ drop (i + n) blk]> h) nx bd
              (tr ++ (Destroyed a <$> seqZ (Z.of_nat i) (Z.of_nat n)))).
Proof. apply destroy_range_ok. reflexivity. Qed.

(** The loop of [std::copy] or [std::move] within one block, towards lower
    addresses: the sources are read before they can be overwritten. *)
Lemma std_copy_range_ok (body : Z -> M E ()) th ta nx a c (src dst : nat) n :
  (forall (k : nat) h tr,
     body (Z.of_nat k) (World E th ta h nx None tr)
     = (v ← read E (Ptr a (Z.of_nat (src + k)));
        assign_at E (Ptr a (Z.of_nat (dst + k))) c v) (World E th ta h nx None tr)) ->
  (dst <= src)%nat ->
  forall (k : nat) h tr cur,
  h !! a = Some cur -> (src + k + n <= length cur)%nat ->
  for_range E n (Z.of_nat k) body (World E th ta h nx None tr)
  = Ret () (World E th ta
              (<[a := take (dst + k) cur
                      ++ ((fun s => Some (default (indeterminate E) s))
                            <$> take n (drop (src + k) cur))
                      ++ drop (dst + k + n) cur]> h) nx None tr).
Proof.
  intros Hbody Hds. induction n as [|n IH]; intros k h tr cur Hb Hlen.
  - cbn [for_range].
    rewrite Nat.add_0_r, take_0, fmap_nil, app_nil_l, take_drop, insert_id by done.
    reflexivity.
  - cbn [for_range].
    destruct (cur !! (src + k)%nat) as [s|] eqn:Hs.
    2:{ apply lookup_ge_None in Hs. lia. }
    assert (Hstep : body (Z.of_nat k) (World E th ta h nx None tr)
              = Ret () (World E th ta
                  (<[a := <[(dst + k)%nat := Some (default (indeterminate E) s)]> cur]> h)
                  nx None tr)).
    { rewrite Hbody.
      rewrite (bind_ret _ _ _ _ _ (read_ok _ _ _ _ _ _ _ _ _ _ Hb Hs)).
      apply assign_at_ok; [done | lia]. }
    rewrite (bind_ret _ _ _ _ _ Hstep).
    replace (Z.of_nat k + 1) with (Z.of_nat (S k)) by lia.
    rewrite (IH (S k) _ _ (<[(dst + k)%nat := Some (default (indeterminate E) s)]> cur)).
    + f_equal. f_equal. rewrite insert_insert_eq. f_equal.
      replace (dst + S k)%nat with (S (dst + k)) by lia.
      rewrite (take_S_r _ _ (Some (default (indeterminate E) s)))
        by (apply list_lookup_insert_eq; lia).
      rewrite take_insert_ge by lia.
      rewrite !drop_insert_lt by lia.
      rewrite (drop_S cur s (src + k)) by done.
      rewrite <- app_assoc. cbn.
      replace (src + S k)%nat with (S (src + k)) by lia.
      replace (dst + k + S n)%nat with (S (dst + k) + n)%nat by lia.
      reflexivity.
    + apply lookup_insert_eq.
    + rewrite length_insert. lia.
Qed.

Lemma std_copy_ok th ta h nx tr a c (src dst s : nat) cur :
  h !! a = Some cur -> (dst <= src <= s)%nat -> (s <= length cur)%nat ->
  std_copy E c (Ptr a (Z.of_nat src)) (Ptr a (Z.of_nat s)) (Ptr a (Z.of_nat dst))
    (World E th ta h nx None tr)
  = Ret () (World E th ta
              (<[a := take dst cur
                      ++ ((fun x => Some (default (indeterminate E) x))
                            <$> take (s - src) (drop src cur))
                      ++ drop (dst + (s - src)) cur]> h) nx None tr).
Proof.
  intros Hb Hle Hlen. unfold std_copy. cbn [ptr_diff]. rewrite Nat.eqb_refl.
  replace (Z.of_nat s - Z.of_nat src <? 0) with false by (symmetry; apply Z.ltb_ge; lia).
  replace (Z.to_nat (Z.of_nat s - Z.of_nat src)) with (s - src)%nat by lia.
  rewrite (std_copy_range_ok _ th ta nx a c src dst (s - src)) with (k := 0%nat) (cur := cur);
    try done; try lia.
  - now rewrite !Nat.add_0_r.
  - intros k h' tr'. cbn [ptr_add]. now rewrite !Nat2Z.inj_add.
Qed.

(** The transfer loop of a reallocation: block [a] into the fresh block [t]. *)
Lemma transfer_range_ok (body : Z -> M E ()) th ta nx a t c n :
  (forall (k : nat) h tr,
     body (Z.of_nat k) (World E th ta h nx None tr)
     = (v ← read E (Ptr a (Z.of_nat k));
        construct_at E (Ptr t (Z.of_nat k)) c v) (World E th ta h nx None tr)) ->
  a <> t ->
  forall (k : nat) h tr blk tb,
  h !! a = Some blk -> h !! t = Some tb ->
  (k + n <= length blk)%nat -> (k + n <= length tb)%nat ->
  for_range E n (Z.of_nat k) body (World E th ta h nx None tr)
  = Ret () (World E th ta
              (<[t := take k tb
                      ++ ((fun s => Some (default (indeterminate E) s))
                            <$> take n (drop k blk))
                      ++ drop (k + n) tb]> h) nx None
              (tr ++ (Constructed t <$> seqZ (Z.of_nat k) (Z.of_nat n)))).
Proof.
  intros Hbody Hne. induction n as [|n IH]; intros k h tr blk tb Hb Ht Hlb Hlt.
  - cbn [for_range].
    rewrite Nat.add_0_r, take_0, fmap_nil, app_nil_l, take_drop, insert_id by done.
    now rewrite app_nil_r.
  - cbn [for_range].
    destruct (blk !! k) as [s|] eqn:Hs.
    2:{ apply lookup_ge_None in Hs. lia. }
    assert (Hstep : body (Z.of_nat k) (World E th ta h nx None tr)
              = Ret () (World E th ta
                  (<[t := <[k := Some (default (indeterminate E) s)]> tb]> h)
                  nx None (tr ++ [Constructed t (Z.of_nat k)]))).
    { rewrite Hbody.
      rewrite (bind_ret _ _ _ _ _ (read_ok _ _ _ _ _ _ _ _ _ _ Hb Hs)).
      apply construct_at_ok; [done | lia]. }
    rewrite (bind_ret _ _ _ _ _ Hstep).
    replace (Z.of_nat k + 1) with (Z.of_nat (S k)) by lia.
    rewrite (IH (S k) _ _ blk (<[k := Some (default (indeterminate E) s)]> tb)).
    + f_equal. f_equal.
      * rewrite insert_insert_eq. f_equal.
        rewrite (take_S_r _ _ (Some (default (indeterminate E) s)))
          by (apply list_lookup_insert_eq; lia).
        rewrite take_insert_ge by lia.
        rewrite drop_insert_lt by lia.
        rewrite (drop_S blk s k) by done.
        rewrite <- app_assoc. cbn. now rewrite Nat.add_succ_r.
      * rewrite <- app_assoc. f_equal.
        rewrite (seqZ_cons (Z.of_nat k)) by lia. cbn. do 3 f_equal; lia.
    + now rewrite lookup_insert_ne.
    + apply lookup_insert_eq.
    + lia.
    + rewrite length_insert. lia.
Qed.

(** A [try] loop that completes is the plain loop. *)
Lemma counted_range_ret body handler n :
  forall index made w w',
  for_range E n index body w = Ret () w' ->
  counted_range E n index made body handler w = Ret () w'.
Proof.
  induction n as [|n IH]; intros index made w w' H; [exact H|].
  cbn [for_range counted_range] in *.
  unfold mbind, M_bind in *.
  destruct (body index w) as [[] w1| | |] eqn:Hb; try discriminate.
  rewrite (on_throw_ret _ _ _ _ _ Hb). now apply IH.
Qed.

(** The growth loop: from capacity [c] it stops at [max c 1 * 2^j] for the
    least [j >= 1] that reaches [r]. *)
Lemma grow_loop_ok (required : M E Z) mv sz al ta h nx bd tr r fuel :
  (forall c, required (World E (Vector mv c sz al) ta h nx bd tr)
             = Ret r (World E (Vector mv c sz al) ta h nx bd tr)) ->
  r <= 2 ^ 62 ->
  forall c,
  0 <= c <= 2 ^ 62 ->
  (1 <= fuel)%nat ->
  r <= Z.max c 1 * 2 ^ Z.of_nat fuel ->
  exists j,
    1 <= j <= Z.of_nat fuel
    /\ grow_loop E fuel required (World E (Vector mv c sz al) ta h nx bd tr)
       = Ret () (World E (Vector mv (Z.max c 1 * 2 ^ j) sz al) ta h nx bd tr)
    /\ r <= Z.max c 1 * 2 ^ j
    /\ (j = 1 \/ Z.max c 1 * 2 ^ (j - 1) < r).
Proof.
  intros Hreq Hr. induction fuel as [|f IH]; intros c Hc Hf Hfuel; [lia|].
  assert (Hw : SizeT.mul (Z.max c 1) constants.realloc_factor = Z.max c 1 * 2).
  { unfold SizeT.mul, constants.realloc_factor. apply wrap_small.
    unfold SizeT.modulus. lia. }
  assert (Hstep :
    grow_loop E (S f) required (World E (Vector mv c sz al) ta h nx bd tr)
    = if Z.max c 1 * 2 <? r
      then grow_loop E f required (World E (Vector mv (Z.max c 1 * 2) sz al) ta h nx bd tr)
      else Ret () (World E (Vector mv (Z.max c 1 * 2) sz al) ta h nx bd tr)).
  { cbn [grow_loop]. unfold mbind, M_bind, capacity, set_m_capacity, with_this, mret, M_ret.
    cbn [this m_capacity m_vector m_size m_allocator that blocks next_block budget trace].
    destruct (c =? 0) eqn:Hc0;
      cbn [this m_capacity m_vector m_size m_allocator that blocks next_block budget trace].
    - apply Z.eqb_eq in Hc0. subst c. change (Z.max 0 1) with 1 in *.
      rewrite Hw, Hreq. now destruct (1 * 2 <? r).
    - apply Z.eqb_neq in Hc0. replace (Z.max c 1) with c in * by lia.
      rewrite Hw, Hreq. now destruct (c * 2 <? r). }
  rewrite Hstep.
  destruct (Z.max c 1 * 2 <? r) eqn:Hlt.
  - apply Z.ltb_lt in Hlt.
    assert (Hf1 : (1 <= f)%nat).
    { destruct f; [|lia]. cbn in Hfuel. lia. }
    destruct (IH (Z.max c 1 * 2) ltac:(lia) Hf1) as (j & Hj & Hrun & Hge & Hmin).
    { replace (Z.max (Z.max c 1 * 2) 1) with (Z.max c 1 * 2) by lia.
      rewrite Nat2Z.inj_succ, Z.pow_succ_r in Hfuel by lia. lia. }
    replace (Z.max (Z.max c 1 * 2) 1) with (Z.max c 1 * 2) in * by lia.
    exists (j + 1). split; [lia|].
    rewrite Z.pow_add_r, Z.pow_1_r by lia.
    replace (Z.max c 1 * (2 ^ j * 2)) with (Z.max c 1 * 2 * 2 ^ j) by lia.
    split; [exact Hrun|]. split; [exact Hge|].
    right. replace (j + 1 - 1) with j by lia.
    destruct Hmin as [-> | Hmin].
    + rewrite Z.pow_1_r. lia.
    + replace j with (Z.succ (j - 1)) at 1 by lia.
      rewrite Z.pow_succ_r by lia. lia.
  - apply Z.ltb_ge in Hlt.
    exists 1. rewrite Z.pow_1_r. split; [lia|]. split; [reflexivity|].
    split; [exact Hlt | now left].
Qed.

(** ** Reallocation and tail append *)

(** A reallocation that does not fail: the new block is populated, then the
    old elements are destroyed and the old block released. *)
Lemma reallocate_strong_guarantee_ok c al ta h nx tr a blk (s n : nat) :
  h !! a = Some blk -> a <> nx ->
  (s <= length blk)%nat -> (s <= n)%nat ->
  Z.of_nat n <= SizeT.ptrdiff_max ->
  reallocate_strong_guarantee E (Z.of_nat n)
    (World E (Vector (Ptr a 0) c (Z.of_nat s) al) ta h nx None tr)
  = Ret () (World E (Vector (Ptr nx 0) (Z.of_nat n) (Z.of_nat s) al) ta
              (<[nx := moved_block blk s n]> (delete a h)) (S nx) None
              (tr ++ [Allocated nx (Z.of_nat n)]
                  ++ (Constructed nx <$> seqZ 0 (Z.of_nat s))
                  ++ (Destroyed a <$> seqZ 0 (Z.of_nat s))
                  ++ [Released a])).
Proof.
  intros Hb Hne Hs Hsn Hn.
  unfold reallocate_strong_guarantee.
  rewrite (bind_ret _ _ _ _ _ (alloc_ok _ _ _ _ _ _ _ Hn)).
  mget.
  assert (Hcopy : forall c0,
    for_range E s 0
      (fun index => mv ← get_m_vector E; v ← read E (ptr_add mv index);
                    construct_at E (ptr_add (Ptr nx 0) index) c0 v)
      (World E (Vector (Ptr a 0) c (Z.of_nat s) al) ta
         (<[nx := replicate n None]> h) (S nx) None (tr ++ [Allocated nx (Z.of_nat n)]))
    = Ret () (World E (Vector (Ptr a 0) c (Z.of_nat s) al) ta
         (<[nx := moved_block blk s n]> (<[nx := replicate n None]> h)) (S nx) None
         ((tr ++ [Allocated nx (Z.of_nat n)]) ++ (Constructed nx <$> seqZ 0 (Z.of_nat s))))).
  { intros c0.
    rewrite (transfer_range_ok _ _ _ _ a nx c0 s) with (k := 0%nat) (blk := blk)
      (tb := replicate n None); try done.
    - unfold moved_block. cbn [take app]. rewrite drop_replicate, Nat.add_0_l.
      now rewrite drop_0.
    - now rewrite lookup_insert_ne.
    - apply lookup_insert_eq.
    - rewrite length_replicate. lia. }
  assert (Hphase : forall k : unit -> M E (),
    ((if moves_elements E
      then for_loop E 0 (Z.of_nat s)
             (fun index => mv ← get_m_vector E; v ← read E (ptr_add mv index);
                           construct_at E (ptr_add (Ptr nx 0) index) Rvalue v)
      else try_counted E (Z.of_nat s)
             (fun index => mv ← get_m_vector E; v ← read E (ptr_add mv index);
                           construct_at E (ptr_add (Ptr nx 0) index) Lvalue v)
             (fun copiesMade =>
                for_loop E 0 copiesMade (fun index => destroy_at E (ptr_add (Ptr nx 0) index)) ;;
                dealloc E (Ptr nx 0) (Z.of_nat n))) ≫= k)
      (World E (Vector (Ptr a 0) c (Z.of_nat s) al) ta
         (<[nx := replicate n None]> h) (S nx) None (tr ++ [Allocated nx (Z.of_nat n)]))
    = k () (World E (Vector (Ptr a 0) c (Z.of_nat s) al) ta
         (<[nx := moved_block blk s n]> (<[nx := replicate n None]> h)) (S nx) None
         ((tr ++ [Allocated nx (Z.of_nat n)]) ++ (Constructed nx <$> seqZ 0 (Z.of_nat s))))).
  { intros k. apply bind_ret. destruct (moves_elements E).
    - unfold for_loop. rewrite Z.sub_0_r, Nat2Z.id. apply Hcopy.
    - unfold try_counted. rewrite Nat2Z.id. apply counted_range_ret, Hcopy. }
  rewrite Hphase. rewrite insert_insert_eq.
  mget.
  unfold deallocate_destruct_keep_size_and_capacity.
  erewrite bind_ret.
  2:{ apply noexcept_ret. mget. unfold for_loop. rewrite Z.sub_0_r, Nat2Z.id.
      erewrite bind_ret.
      2:{ apply (destroy_own_range_ok _ _ _ _ _ _ a s 0%nat) with (blk := blk);
            [now rewrite lookup_insert_ne | lia]. }
      mget. mget.
      erewrite bind_ret by (eapply dealloc_ok, lookup_insert_eq).
      reflexivity. }
  unfold set_m_vector, with_this. norm.
  f_equal. f_equal.
  - rewrite delete_insert_eq. now rewrite delete_insert_ne.
  - rewrite <- !app_assoc. reflexivity.
Qed.

Lemma reallocate_strong_guarantee_null c al ta h nx tr (n : nat) :
  Z.of_nat n <= SizeT.ptrdiff_max ->
  reallocate_strong_guarantee E (Z.of_nat n)
    (World E (Vector Null c 0 al) ta h nx None tr)
  = Ret () (World E (Vector (Ptr nx 0) (Z.of_nat n) 0 al) ta
              (<[nx := replicate n None]> h) (S nx) None
              (tr ++ [Allocated nx (Z.of_nat n)])).
Proof.
  intros Hn. unfold reallocate_strong_guarantee.
  rewrite (bind_ret _ _ _ _ _ (alloc_ok _ _ _ _ _ _ _ Hn)).
  mget. destruct (moves_elements E); reflexivity.
Qed.

(** Appending into a free slot: [shift_and_construct] at [index_pos = size()]. *)
Lemma shift_and_construct_end c al ta h nx tr a blk (s : nat) v :
  h !! a = Some blk -> (s < length blk)%nat -> Z.of_nat s + 1 < SizeT.modulus ->
  exists tr',
    shift_and_construct E (Z.of_nat s) (Outside v) 1
      (World E (Vector (Ptr a 0) c (Z.of_nat s) al) ta h nx None tr)
    = Ret () (World E (Vector (Ptr a 0) c (Z.of_nat s + 1) al) ta
                (<[a := <[s := Some v]> blk]> h) nx None tr').
Proof.
  intros Hb Hs Hmod.
  destruct (blk !! s) as [x|] eqn:Hx.
  2:{ apply lookup_ge_None in Hx. lia. }
  unfold shift_and_construct.
  mget. mget.
  unfold try_counted, for_loop.
  rewrite ?Z.add_0_l, Z.sub_diag.
  change (Z.to_nat 1) with 1%nat. change (Z.to_nat (1 - 0)) with 1%nat.
  change (Z.to_nat 0) with 0%nat.
  cbn [counted_range for_range shift_backward].
  unfold SizeT.add. rewrite ?Z.add_0_r, (wrap_small (Z.of_nat s)) by lia.
  erewrite bind_ret.
  2:{ erewrite bind_ret; [reflexivity|].
      apply on_throw_ret.
      rewrite (bind_ret _ _ _ _ _ (read_ok _ _ _ _ _ _ _ _ _ _ Hb Hx)).
      apply construct_at_ok; [done | lia]. }
  erewrite bind_ret.
  2:{ mget. cbn [ptr_eqb]. rewrite ?Z.add_0_l, Nat.eqb_refl, Z.eqb_refl. reflexivity. }
  erewrite bind_ret.
  2:{ erewrite bind_ret; [reflexivity|].
      apply destroy_at_ok; [apply lookup_insert_eq | rewrite length_insert; lia]. }
  erewrite bind_ret.
  2:{ erewrite bind_ret; [reflexivity|].
      apply on_throw_ret.
      apply construct_at_ok; [apply lookup_insert_eq | rewrite !length_insert; lia]. }
  rewrite wrap_small by lia.
  eexists. unfold set_m_size, with_this. norm.
  rewrite !insert_insert_eq, !list_insert_insert_eq. reflexivity.
Qed.

(** The same through [shift_and_construct(index_pos, Type&&)]. *)
Lemma shift_and_construct_arg_end cat c al ta h nx tr a blk (s : nat) v :
  h !! a = Some blk -> (s < length blk)%nat -> Z.of_nat s + 1 < SizeT.modulus ->
  exists tr',
    shift_and_construct_arg E (Z.of_nat s) cat (Outside v)
      (World E (Vector (Ptr a 0) c (Z.of_nat s) al) ta h nx None tr)
    = Ret () (World E (Vector (Ptr a 0) c (Z.of_nat s + 1) al) ta
                (<[a := <[s := Some v]> blk]> h) nx None tr').
Proof.
  intros Hb Hs Hmod.
  destruct cat; cbn [shift_and_construct_arg];
    [now apply shift_and_construct_end|].
  unfold shift_and_construct_rvalue.
  destruct (moves_elements E); [|now apply shift_and_construct_end].
  destruct (blk !! s) as [x|] eqn:Hx.
  2:{ apply lookup_ge_None in Hx. lia. }
  mget. mget. rewrite ?Z.add_0_l.
  rewrite (bind_ret _ _ _ _ _ (read_ok _ _ _ _ _ _ _ _ _ _ Hb Hx)).
  erewrite bind_ret by (apply construct_at_ok; [done | lia]).
  erewrite bind_ret.
  2:{ unfold std_copy_backward. cbn [ptr_diff]. rewrite Nat.eqb_refl, Z.sub_diag.
      reflexivity. }
  erewrite bind_ret
    by (apply construct_at_ok; [apply lookup_insert_eq | rewrite length_insert; lia]).
  unfold SizeT.add. rewrite wrap_small by lia.
  eexists. unfold set_m_size, with_this. norm.
  rewrite !insert_insert_eq, !list_insert_insert_eq. reflexivity.
Qed.

Lemma holds_length (vals : list E) (blk : list (option E)) :
  take (length vals) blk = Some <$> vals ->
  (length vals <= length blk)%nat.
Proof.
  intros H. apply (f_equal length) in H.
  rewrite length_take, length_fmap in H. lia.
Qed.

Lemma holds_contents (w : world E) vals :
  holds w vals -> contents E w (this E w) = Some vals.
Proof.
  destruct w as [[mv c sz al] ta h nx bd tr]. unfold holds, contents, slots_of. norm.
  intros (_ & -> & Hmv). destruct mv as [|a o].
  - destruct Hmv as [_ ->]. reflexivity.
  - destruct Hmv as (-> & _ & blk & Hb & _ & Htake). rewrite Hb. cbn [mbind option_bind].
    pose proof (holds_length _ _ Htake) as Hl.
    replace ((0 <=? 0) && (0 + Z.of_nat (length vals) <=? Z.of_nat (length blk))) with true
      by (symmetry; apply andb_true_iff; split; [reflexivity | apply Z.leb_le; lia]).
    change (Z.to_nat 0) with 0%nat. rewrite drop_0, Nat2Z.id, Htake.
    cbn [fmap option_fmap option_map].
    f_equal. rewrite <- list_fmap_compose. apply list_fmap_id.
Qed.

(** One [emplace(end(), value)] on a well-formed vector. *)
Lemma emplace_end_ok cat v (w : world E) vals :
  holds w vals ->
  Z.of_nat (length vals) + 1 <= 2 ^ 61 ->
  exists p w',
    (e ← end_ E; emplace E e cat (Outside v)) w = Ret p w'
    /\ holds w' (vals ++ [v])
    /\ m_capacity (this E w')
       = next_capacity (m_capacity (this E w)) (m_size (this E w))
    /\ that E w' = that E w.
Proof.
  destruct w as [[mv c sz al] ta h nx bd tr]. unfold holds. norm.
  intros (-> & -> & Hmv) Hbound.
  assert (Hmodulus : SizeT.modulus = 2 ^ 64) by reflexivity.
  assert (Hpmax : SizeT.ptrdiff_max = 2 ^ 63 - 1) by reflexivity.
  destruct mv as [|a o].
  - destruct Hmv as [-> ->]. cbn [length] in *. change (Z.of_nat 0) with 0 in *.
    unfold emplace. mget. mget.
    mstep ltac:(reflexivity). mstep ltac:(reflexivity). mget. mget.
    change (SizeT.add 0 1 <? 0) with false. cbn iota. change (SizeT.wrap 0) with 0.
    destruct (grow_loop_ok ((sz ← size E; mret (SizeT.add 1 sz)) : M E Z) Null 0 al ta h nx
                None tr 1 128) with (c := 0)
      as (j & Hj & Hrun & Hge & Hmin).
    { reflexivity. } { lia. } { lia. } { lia. } { cbn; lia. }
    change (Z.max 0 1) with 1 in *.
    assert (j = 1) as ->.
    { destruct Hmin as [|Hmin]; [done|].
      assert (0 < 2 ^ (j - 1)) by (apply Z.pow_pos_nonneg; lia). lia. }
    unfold grow. rewrite !bind_assoc, (bind_ret _ _ _ _ _ Hrun). mget.
    change (1 * 2 ^ 1) with (Z.of_nat 2).
    rewrite !bind_assoc,
      (bind_ret _ _ _ _ _ (reallocate_strong_guarantee_null _ _ _ _ _ _ 2 ltac:(lia))).
    destruct (shift_and_construct_arg_end cat (Z.of_nat 2) al ta
                (<[nx := replicate 2 None]> h) (S nx) (tr ++ [Allocated nx (Z.of_nat 2)]) nx
                (replicate 2 None) 0 v)
      as [tr' Hsc]; [apply lookup_insert_eq | cbn; lia | lia |].
    change 0 with (Z.of_nat 0) at 1.
    rewrite (bind_ret _ _ _ _ _ Hsc). mget.
    eexists _, _. split; [reflexivity|]. norm.
    split; [|split; [reflexivity | reflexivity]].
    split; [reflexivity|]. split; [reflexivity|].
    split; [reflexivity|]. split; [lia|].
    eexists. split; [apply lookup_insert_eq|].
    split; reflexivity.
  - destruct Hmv as (-> & Ha & blk & Hb & Hlen & Htake).
    pose proof (holds_length _ _ Htake) as Hvl.
    set (s := length vals) in *.
    unfold emplace. mget. mget. rewrite ?Z.add_0_l.
    mstep ltac:(apply assert_true, ptr_leb_same; lia).
    mstep ltac:(apply index_of_ok; [reflexivity | lia]).
    mget. mget.
    unfold SizeT.add at 1. rewrite wrap_small by lia.
    unfold next_capacity.
    destruct (Z.of_nat s + 1 <? c) eqn:Hroom.
    + apply Z.ltb_lt in Hroom.
      cbn [ptr_eqb]. rewrite Nat.eqb_refl, Z.eqb_refl. cbn [andb].
      mget. rewrite ?Z.add_0_l.
      mstep ltac:(apply on_throw_ret, construct_at_ok; [done | lia]).
      unfold SizeT.add. rewrite wrap_small by lia.
      mget. mget.
      eexists _, _. split; [reflexivity|]. norm.
      split; [|split; [reflexivity | reflexivity]].
      split; [reflexivity|]. split; [rewrite length_app; cbn; lia|].
      split; [reflexivity|]. split; [exact Ha|].
      eexists. split; [apply lookup_insert_eq|].
      split; [rewrite length_insert; exact Hlen|].
      rewrite length_app. cbn [length]. fold s.
      replace (s + 1)%nat with (S s) by lia.
      rewrite (take_S_r _ _ (Some v)) by (apply list_lookup_insert_eq; lia).
      rewrite take_insert_ge by lia. rewrite Htake. now rewrite fmap_app.
    + apply Z.ltb_ge in Hroom.
      destruct (grow_loop_ok ((sz ← size E; mret (SizeT.add 1 sz)) : M E Z) (Ptr a 0)
                  (Z.of_nat s) al ta h nx None tr (Z.of_nat s + 1) 128) with (c := c)
        as (j & Hj & Hrun & Hge & Hmin).
      { intros c'. unfold mbind, M_bind, size, mret, M_ret. norm.
        unfold SizeT.add. rewrite wrap_small by lia. f_equal; lia. }
      { lia. } { lia. } { lia. }
      { change (2 ^ Z.of_nat 128) with (2 ^ 61 * 2 ^ 67). nia. }
      assert (j = 1) as ->.
      { destruct Hmin as [|Hmin]; [done|].
        destruct (Z.eq_dec j 1) as [|Hj1]; [done|].
        assert (2 <= 2 ^ (j - 1)).
        { change 2 with (2 ^ 1) at 1. apply Z.pow_le_mono_r; lia. }
        nia. }
      rewrite Z.pow_1_r in *.
      unfold grow. rewrite !bind_assoc, (bind_ret _ _ _ _ _ Hrun). mget.
      set (n := Z.to_nat (Z.max c 1 * 2)).
      replace (Z.max c 1 * 2) with (Z.of_nat n) by lia.
      rewrite !bind_assoc, (bind_ret _ _ _ _ _
        (reallocate_strong_guarantee_ok _ al ta h nx tr a blk s n Hb
           ltac:(lia) ltac:(lia) ltac:(lia) ltac:(lia))).
      match goal with |- context [World E _ _ ?hh _ _ ?tt] =>
        destruct (shift_and_construct_arg_end cat (Z.of_nat n) al ta hh (S nx) tt nx
                    (moved_block blk s n) s v) as [tr' Hsc]
      end.
      { apply lookup_insert_eq. }
      { unfold moved_block. rewrite length_app, length_fmap, length_take, length_replicate. lia. }
      { lia. }
      rewrite (bind_ret _ _ _ _ _ Hsc). mget.
      eexists _, _. split; [reflexivity|]. norm.
      split; [|split; [reflexivity | reflexivity]].
      split; [reflexivity|]. split; [rewrite length_app; cbn; lia|].
      split; [reflexivity|]. split; [lia|].
      eexists. split; [apply lookup_insert_eq|].
      split.
      { rewrite length_insert. unfold moved_block.
        rewrite length_app, length_fmap, length_take, length_replicate. lia. }
      rewrite length_app. cbn [length]. fold s.
      replace (s + 1)%nat with (S s) by lia.
      rewrite (take_S_r _ _ (Some v)).
      2:{ apply list_lookup_insert_eq. unfold moved_block.
          rewrite length_app, length_fmap, length_take, length_replicate. lia. }
      rewrite take_insert_ge by lia.
      unfold moved_block. rewrite take_app_length'.
      2:{ rewrite length_fmap, length_take. lia. }
      rewrite Htake, <- list_fmap_compose, fmap_app. reflexivity.
Qed.

(** With room for the element, a failing construction at the end leaves
    the fields of the vector and its elements as they were: the handler of
    lines 742-745 only marks the slot past the end as raw. *)
Lemma emplace_end_room_failure cat v c al ta h nx tr a blk (s : nat) :
  may_throw E cat = true ->
  h !! a = Some blk -> (s < length blk)%nat ->
  Z.of_nat s + 1 < c -> c <= SizeT.modulus ->
  (e ← end_ E; emplace E e cat (Outside v))
    (World E (Vector (Ptr a 0) c (Z.of_nat s) al) ta h nx (Some 0%nat) tr)
  = Throw ElementFailure
      (World E (Vector (Ptr a 0) c (Z.of_nat s) al) ta
         (<[a := <[s := None]> blk]> h) nx None (tr ++ [Destroyed a (Z.of_nat s)])).
Proof.
  intros Hthrow Hb Hs Hroom Hc.
  unfold emplace. mget. mget. rewrite ?Z.add_0_l.
  mstep ltac:(apply assert_true, ptr_leb_same; lia).
  mstep ltac:(apply index_of_ok; [reflexivity | lia]).
  mget. mget.
  unfold SizeT.add at 1. rewrite wrap_small by lia.
  replace (Z.of_nat s + 1 <? c) with true by (symmetry; apply Z.ltb_lt; lia).
  cbn [ptr_eqb]. rewrite Nat.eqb_refl, Z.eqb_refl. cbn [andb].
  mget. rewrite ?Z.add_0_l.
  rewrite ?bind_assoc. apply bind_throw.
  eapply on_throw_throw; [|now apply destroy_at_ok].
  unfold construct_at. apply bind_throw. unfold tick. now rewrite Hthrow.
Qed.

Lemma push_back_ok cat v (w : world E) vals :
  holds w vals ->
  Z.of_nat (length vals) + 1 <= 2 ^ 61 ->
  exists w',
    push_back E cat v w = Ret () w'
    /\ holds w' (vals ++ [v])
    /\ m_capacity (this E w')
       = next_capacity (m_capacity (this E w)) (m_size (this E w))
    /\ that E w' = that E w.
Proof.
  intros Hw Hbound.
  destruct (emplace_end_ok Rvalue v w vals Hw Hbound) as (p & w' & Hrun & Hw' & Hcap & Hthat).
  exists w'. split; [|done].
  unfold push_back, emplace_back.
  assert (Ht : tick E (may_throw E cat) w = Ret () w).
  { destruct w as [th ta h nx bd tr]. destruct Hw as [Hbd _]. cbn in Hbd. subst bd.
    apply tick_ok. }
  rewrite (bind_ret _ _ _ _ _ Ht).
  rewrite <- (bind_assoc (end_ E) (fun e => emplace E e Rvalue (Outside v))).
  rewrite (bind_ret _ _ _ _ _ Hrun).
  destruct w' as [[mv c sz al] ta h nx bd tr].
  destruct Hw' as (Hbd & Hsz & Hmv). cbn [this budget m_size m_vector m_capacity blocks
    next_block] in *. subst bd sz.
  destruct mv as [|a o].
  { destruct Hmv as [_ Hnil]. now destruct vals. }
  destruct Hmv as (-> & _ & blk & Hb & _ & Htake).
  mget. mget.
  rewrite length_app in *. cbn [length] in *.
  replace (0 + Z.of_nat (length vals + 1) + -1) with (Z.of_nat (length vals)) by lia.
  erewrite bind_ret; [reflexivity|].
  apply read_ok with (blk := blk) (s := Some v); [done|].
  apply (f_equal (fun l => l !! length vals)) in Htake.
  rewrite lookup_take_lt in Htake by lia. rewrite Htake.
  rewrite list_lookup_fmap, lookup_app_r, Nat.sub_diag by lia. reflexivity.
Qed.

(** Any number of appends, far from [2^64]. *)
Lemma appends_ok cat vs :
  forall (w : world E) vals,
  holds w vals ->
  Z.of_nat (length vals + length vs) <= 2 ^ 61 ->
  exists w',
    appends E cat vs w = Ret () w'
    /\ holds w' (vals ++ vs)
    /\ m_capacity (this E w')
       = capacity_after (m_capacity (this E w)) (m_size (this E w)) (length vs)
    /\ that E w' = that E w.
Proof.
  induction vs as [|v vs IH]; intros w vals Hw Hbound.
  - exists w. rewrite app_nil_r. split; [reflexivity|]. split; [exact Hw|].
    split; reflexivity.
  - cbn [length] in Hbound.
    destruct (push_back_ok cat v w vals Hw ltac:(lia)) as (w1 & Hrun1 & Hw1 & Hcap1 & Hthat1).
    destruct (IH w1 (vals ++ [v]) Hw1) as (w' & Hrun & Hw' & Hcap & Hthat).
    { rewrite length_app. cbn [length]. lia. }
    exists w'. cbn [appends]. rewrite (bind_ret _ _ _ _ _ Hrun1).
    split; [exact Hrun|]. rewrite <- app_assoc in Hw'. split; [exact Hw'|].
    split; [|congruence].
    rewrite Hcap, Hcap1. cbn [capacity_after length].
    destruct Hw1 as (_ & Hs1 & _). destruct Hw as (_ & Hs & _).
    rewrite Hs1, Hs, length_app. cbn [length]. do 2 f_equal. lia.
Qed.

(** While an append finds [size() + 1 < capacity()] the capacity stays. *)
Lemma capacity_after_room k :
  forall cap sz, sz + Z.of_nat k < cap -> capacity_after cap sz k = cap.
Proof.
  induction k as [|k IH]; intros cap sz H; [reflexivity|].
  cbn [capacity_after]. unfold next_capacity.
  replace (sz + 1 <? cap) with true by (symmetry; apply Z.ltb_lt; lia).
  apply IH. lia.
Qed.

Lemma appends_within_capacity cat vs (w : world E) vals :
  holds w vals ->
  Z.of_nat (length vals + length vs) <= 2 ^ 61 ->
  Z.of_nat (length vals + length vs) < m_capacity (this E w) ->
  exists w',
    appends E cat vs w = Ret () w'
    /\ holds w' (vals ++ vs)
    /\ m_capacity (this E w') = m_capacity (this E w).
Proof.
  intros Hw Hbound Hroom.
  destruct (appends_ok cat vs w vals Hw Hbound) as (w' & Hrun & Hw' & Hcap & _).
  exists w'. split; [exact Hrun|]. split; [exact Hw'|].
  rewrite Hcap. apply capacity_after_room.
  destruct Hw as (_ & -> & _). lia.
Qed.

(** ** Arithmetic of the doubling sequence *)

Lemma doubled_power_double n : doubled_power n -> doubled_power (n * 2).
Proof.
  intros (j & Hj & ->). exists (j + 1). split; [lia|].
  rewrite Z.pow_add_r, Z.pow_1_r by lia. reflexivity.
Qed.

Lemma doubling_invariant_step cap sz :
  doubling_invariant cap sz -> doubling_invariant (next_capacity cap sz) (sz + 1).
Proof.
  unfold next_capacity. intros [[-> ->] | (Hsz & Hp & Hlt)].
  - right. change (if 0 + 1 <? 0 then 0 else Z.max 0 1 * 2) with 2.
    split; [lia|]. split; [|lia]. exists 1. split; [lia | reflexivity].
  - right. split; [lia|].
    destruct (sz + 1 <? cap) eqn:Hroom.
    + apply Z.ltb_lt in Hroom. split; [exact Hp | lia].
    + apply Z.ltb_ge in Hroom. replace (Z.max cap 1) with cap by lia.
      split; [now apply doubled_power_double | lia].
Qed.

Lemma doubling_invariant_after k :
  forall cap sz,
  doubling_invariant cap sz ->
  doubling_invariant (capacity_after cap sz k) (sz + Z.of_nat k).
Proof.
  induction k as [|k IH]; intros cap sz H.
  - cbn. now rewrite Z.add_0_r.
  - cbn [capacity_after].
    replace (sz + Z.of_nat (S k)) with (sz + 1 + Z.of_nat k) by lia.
    apply IH, doubling_invariant_step, H.
Qed.

(** ** Erasing a range *)

(** The block after the destroy loop ([gap]) and after the shift ([closed]). *)
Lemma erase_block_contents (blk : list (option E)) (first last s : nat) :
  (first <= last <= s)%nat -> (s <= length blk)%nat ->
  let gap := take first blk ++ replicate (last - first) None
               ++ drop (first + (last - first)) blk in
  let closed := take first gap
                  ++ ((fun x => Some (default (indeterminate E) x))
                        <$> take (s - last) (drop last gap))
                  ++ drop (first + (s - last)) gap in
  length closed = length blk
  /\ default (indeterminate E) <$> take (s - (last - first)) closed
     = take first (default (indeterminate E) <$> take s blk)
       ++ drop last (default (indeterminate E) <$> take s blk).
Proof.
  intros Hle Hlen gap closed.
  assert (Hgl : length gap = length blk).
  { unfold gap. rewrite !length_app, length_take, length_replicate, length_drop. lia. }
  assert (Htg : take first gap = take first blk).
  { unfold gap. rewrite take_app_length'; [done | rewrite length_take; lia]. }
  assert (Hdg : drop last gap = drop last blk).
  { unfold gap. rewrite app_assoc, drop_app_length'.
    - f_equal. lia.
    - rewrite length_app, length_take, length_replicate. lia. }
  split.
  - unfold closed.
    rewrite !length_app, length_fmap, !length_take, !length_drop. lia.
  - unfold closed. rewrite Htg, Hdg, app_assoc.
    rewrite take_app_length'.
    2:{ rewrite length_app, length_fmap, !length_take, length_drop. lia. }
    rewrite fmap_app, <- list_fmap_compose.
    rewrite <- !fmap_take, <- fmap_drop, take_take.
    replace (first `min` s)%nat with first by lia.
    f_equal.
    rewrite take_drop_commute. replace (last + (s - last))%nat with s by lia.
    reflexivity.
Qed.

(** [erase(first, last)] on a vector without a block: nothing to do. *)
Lemma erase_range_null c al ta h nx bd tr :
  erase_range E Null Null (World E (Vector Null c 0 al) ta h nx bd tr)
  = Ret Null (World E (Vector Null c 0 al) ta h nx bd tr).
Proof. reflexivity. Qed.

(** ** Comparing *)

Lemma ptr_add_add p a b : ptr_add (ptr_add p a) b = ptr_add p (a + b).
Proof. destruct p; cbn; [reflexivity|]. f_equal. lia. Qed.

Lemma ptr_add_0 p : ptr_add p 0 = p.
Proof. destruct p; cbn; [reflexivity|]. f_equal. lia. Qed.

Lemma readable_head (w : world E) p x xs :
  readable w p (x :: xs) -> read E p w = Ret x w.
Proof. intros H. rewrite <- (ptr_add_0 p). exact (H 0%nat x eq_refl). Qed.

Lemma readable_tail (w : world E) p x xs :
  readable w p (x :: xs) -> readable w (ptr_add p 1) xs.
Proof.
  intros H k y Hy. rewrite ptr_add_add.
  replace (1 + Z.of_nat k) with (Z.of_nat (S k)) by lia. exact (H (S k) y Hy).
Qed.

Lemma contents_readable (w : world E) v xs :
  contents E w v = Some xs -> readable w (m_vector v) xs.
Proof.
  unfold contents, slots_of. intros H k x Hx.
  destruct (m_vector v) as [|a o].
  - destruct (m_size v =? 0); [|discriminate]. cbn in H. injection H as <-. discriminate.
  - destruct (blocks E w !! a) as [blk|] eqn:Hb; [|discriminate].
    cbn [mbind option_bind] in H.
    destruct ((0 <=? o) && (o + m_size v <=? Z.of_nat (length blk))) eqn:Hr; [|discriminate].
    apply andb_true_iff in Hr as [Ho _]. apply Z.leb_le in Ho.
    cbn [fmap option_fmap option_map] in H. injection H as <-.
    rewrite list_lookup_fmap in Hx.
    destruct (take (Z.to_nat (m_size v)) (drop (Z.to_nat o) blk) !! k) as [s|] eqn:Hs;
      [|discriminate].
    cbn in Hx. injection Hx as <-.
    apply lookup_take_Some in Hs as [Hs _]. rewrite lookup_drop in Hs.
    cbn [ptr_add].
    replace (o + Z.of_nat k) with (Z.of_nat (Z.to_nat o + k)) by lia.
    destruct w as [th ta h nx bd tr]. cbn in Hb. now apply read_ok with (blk := blk).
Qed.

Lemma contents_length (w : world E) v xs :
  contents E w v = Some xs -> 0 <= m_size v -> Z.of_nat (length xs) = m_size v.
Proof.
  unfold contents, slots_of. intros H Hs.
  destruct (m_vector v) as [|a o].
  - destruct (m_size v =? 0) eqn:Hz; [|discriminate]. apply Z.eqb_eq in Hz.
    cbn in H. injection H as <-. cbn. lia.
  - destruct (blocks E w !! a) as [blk|] eqn:Hb; [|discriminate].
    cbn [mbind option_bind] in H.
    destruct ((0 <=? o) && (o + m_size v <=? Z.of_nat (length blk))) eqn:Hr; [|discriminate].
    apply andb_true_iff in Hr as [Ho Hl]. apply Z.leb_le in Ho, Hl.
    cbn [fmap option_fmap option_map] in H. injection H as <-.
    rewrite length_fmap, length_take, length_drop. lia.
Qed.

Lemma equal_range_ok (w : world E) xs :
  forall ys p q,
  length xs = length ys ->
  readable w p xs -> readable w q ys ->
  equal_range E (length xs) p q w = Ret (pairwise_eq xs ys) w.
Proof.
  induction xs as [|x xs IH]; intros [|y ys] p q Hlen Hp Hq; try discriminate.
  - reflexivity.
  - cbn [length equal_range pairwise_eq].
    rewrite (bind_ret _ _ _ _ _ (readable_head _ _ _ _ Hp)).
    rewrite (bind_ret _ _ _ _ _ (readable_head _ _ _ _ Hq)).
    destruct (elem_eq E x y); [|reflexivity].
    cbn [andb]. apply IH.
    + cbn in Hlen. lia.
    + eapply readable_tail, Hp.
    + eapply readable_tail, Hq.
Qed.

Lemma pairwise_eq_length (xs ys : list E) :
  length xs <> length ys -> pairwise_eq xs ys = false.
Proof.
  revert ys. induction xs as [|x xs IH]; intros [|y ys] H; cbn in *; try congruence.
  rewrite IH by lia. apply andb_false_r.
Qed.

Lemma read_swap_roles (w : world E) p x :
  read E p w = Ret x w -> read E p (swap_roles E w) = Ret x (swap_roles E w).
Proof.
  destruct w as [th ta h nx bd tr].
  unfold read, load, swap_roles, mbind, M_bind, mret, M_ret. cbn.
  destruct p as [|a o]; [discriminate|].
  destruct (h !! a) as [blk|]; [|discriminate].
  destruct (0 <=? o); [|discriminate].
  destruct (blk !! Z.to_nat o); [|discriminate].
  intros H. injection H as ->. reflexivity.
Qed.

(** [operator==] and [operator!=] on two well-formed vectors. *)
Lemma equality_results (w : world E) (xs ys : list E) :
  contents E w (this E w) = Some xs ->
  contents E w (that E w) = Some ys ->
  0 <= m_size (this E w) -> 0 <= m_size (that E w) ->
  op_eq E w = Ret (pairwise_eq xs ys) w
  /\ op_ne E w = Ret (negb (pairwise_eq xs ys)) w.
Proof.
  intros Hx Hy Hsx Hsy.
  pose proof (contents_length _ _ _ Hx Hsx) as Hlx.
  pose proof (contents_length _ _ _ Hy Hsy) as Hly.
  pose proof (contents_readable _ _ _ Hx) as Hrx.
  pose proof (contents_readable _ _ _ Hy) as Hry.
  assert (Heq : op_eq E w = Ret (pairwise_eq xs ys) w).
  { unfold op_eq, mbind, M_bind, size, other_size, get_m_vector, other_m_vector, std_equal.
    rewrite <- Hlx, <- Hly.
    destruct (Z.of_nat (length xs) =? Z.of_nat (length ys)) eqn:Hl.
    - apply Z.eqb_eq in Hl. rewrite Nat2Z.id. apply equal_range_ok; [lia | done | done].
    - apply Z.eqb_neq in Hl. rewrite pairwise_eq_length by lia. reflexivity. }
  split; [exact Heq|].
  unfold op_ne; now rewrite (bind_ret _ _ _ _ _ Heq).
Qed.

(** *** [operator<]

    [std::lexicographical_compare] is handed iterators of [other], whose
    difference has the wrong sign.  What [operator<] does on two well-formed
    vectors follows: it answers [false] when [other] is empty, it answers as
    the lexicographic order does when the two vectors differ at an index
    that both have, and it reads past the elements in every other case. *)

Lemma swap_roles_involutive (w : world E) : swap_roles E (swap_roles E w) = w.
Proof. now destruct w. Qed.

Lemma holds_readable (w : world E) (vals : list E) :
  holds w vals -> readable w (m_vector (this E w)) vals.
Proof. intros H. apply contents_readable, holds_contents, H. Qed.

Lemma other_holds_readable (w : world E) (vals : list E) :
  other_holds w vals -> readable w (m_vector (that E w)) vals.
Proof.
  intros H k x Hx. rewrite <- (swap_roles_involutive w).
  apply read_swap_roles.
  exact (holds_readable (swap_roles E w) vals H k x Hx).
Qed.

Lemma read_cases (w : world E) p :
  read E p w = Undefined \/ exists x, read E p w = Ret x w.
Proof.
  unfold read, load, mbind, M_bind, mret, M_ret. destruct p as [|a o]; [now left|].
  destruct (blocks E w !! a) as [blk|]; [|now left].
  destruct (0 <=? o); [|now left].
  destruct (blk !! Z.to_nat o); [right; eauto | now left].
Qed.

Lemma lex_less_first_difference (px py : list E) x y rx ry :
  Forall2 equivalent px py ->
  elem_lt E x y = true \/ elem_lt E y x = true ->
  lex_less (px ++ x :: rx) (py ++ y :: ry) = elem_lt E x y.
Proof.
  intros Hp Hd. induction Hp as [|x0 y0 px py [H1 H2] _ IH]; cbn [app lex_less].
  - destruct (elem_lt E x y); [reflexivity|].
    destruct Hd as [Hd | ->]; [discriminate | reflexivity].
  - now rewrite H1, H2.
Qed.

Lemma on_other_begin th ta h nx bd tr :
  on_other E (begin_ E) (World E th ta h nx bd tr)
  = Ret (m_vector ta) (World E th ta h nx bd tr).
Proof. reflexivity. Qed.

Lemma on_other_end th ta h nx bd tr :
  on_other E (end_ E) (World E th ta h nx bd tr)
  = Ret (ptr_add (m_vector ta) (m_size ta)) (World E th ta h nx bd tr).
Proof. reflexivity. Qed.

(** The loop stops at the first pair of elements that differ, when its end
    is not met before. *)
Lemma lexicographical_compare_loop_differ (w : world E) (px py : list E) x y rx ry :
  Forall2 equivalent px py ->
  elem_lt E x y = true \/ elem_lt E y x = true ->
  forall fuel first1 last1 first2 last2,
  readable w first1 (px ++ x :: rx) -> readable w first2 (py ++ y :: ry) ->
  (forall k : nat, (k <= length px)%nat ->
     ptr_eqb (ptr_add first1 (Z.of_nat k)) last1 = false) ->
  (length px < fuel)%nat ->
  lexicographical_compare_loop E fuel first1 last1 first2 last2 w = Ret (elem_lt E x y) w.
Proof.
  intros Hp Hd. induction Hp as [|x0 y0 px py [H1 H2] _ IH];
    intros fuel first1 last1 first2 last2 Hr1 Hr2 Hne Hfuel;
    (destruct fuel as [|fuel]; [cbn [length] in Hfuel; lia|]);
    cbn [app length lexicographical_compare_loop] in *.
  - pose proof (Hne 0%nat ltac:(lia)) as H0. rewrite ptr_add_0 in H0. rewrite H0.
    rewrite (bind_ret _ _ _ _ _ (readable_head _ _ _ _ Hr1)).
    rewrite (bind_ret _ _ _ _ _ (readable_head _ _ _ _ Hr2)).
    destruct (elem_lt E x y); [reflexivity|].
    destruct Hd as [Hd | ->]; [discriminate | reflexivity].
  - pose proof (Hne 0%nat ltac:(lia)) as H0. rewrite ptr_add_0 in H0. rewrite H0.
    rewrite (bind_ret _ _ _ _ _ (readable_head _ _ _ _ Hr1)).
    rewrite (bind_ret _ _ _ _ _ (readable_head _ _ _ _ Hr2)).
    rewrite H1, H2. apply IH.
    + eapply readable_tail, Hr1.
    + eapply readable_tail, Hr2.
    + intros k Hk. rewrite ptr_add_add.
      replace (1 + Z.of_nat k) with (Z.of_nat (S k)) by lia. apply Hne. lia.
    + lia.
Qed.

(** The loop leaves the blocks when no pair differs before. *)
Lemma lexicographical_compare_loop_off (w : world E) (xs ys : list E) :
  Forall2 equivalent xs ys ->
  forall fuel first1 last1 first2 last2,
  readable w first1 xs -> readable w first2 ys ->
  (forall k : nat, (k <= length xs)%nat ->
     ptr_eqb (ptr_add first1 (Z.of_nat k)) last1 = false) ->
  (length xs < fuel)%nat ->
  read E (ptr_add first1 (Z.of_nat (length xs))) w = Undefined
  \/ read E (ptr_add first2 (Z.of_nat (length xs))) w = Undefined ->
  lexicographical_compare_loop E fuel first1 last1 first2 last2 w = Undefined.
Proof.
  intros Hp. induction Hp as [|x0 y0 xs ys [H1 H2] _ IH];
    intros fuel first1 last1 first2 last2 Hr1 Hr2 Hne Hfuel Hoff;
    (destruct fuel as [|fuel]; [cbn [length] in Hfuel; lia|]);
    cbn [length lexicographical_compare_loop] in *.
  - pose proof (Hne 0%nat ltac:(lia)) as H0. rewrite ptr_add_0 in H0. rewrite H0.
    change (Z.of_nat 0) with 0 in Hoff. rewrite !ptr_add_0 in Hoff.
    unfold mbind, M_bind.
    destruct (read_cases w first1) as [Hu | [x Hx]]; rewrite ?Hu, ?Hx; [reflexivity|].
    destruct Hoff as [Hoff | ->]; [congruence | reflexivity].
  - pose proof (Hne 0%nat ltac:(lia)) as H0. rewrite ptr_add_0 in H0. rewrite H0.
    rewrite (bind_ret _ _ _ _ _ (readable_head _ _ _ _ Hr1)).
    rewrite (bind_ret _ _ _ _ _ (readable_head _ _ _ _ Hr2)).
    rewrite H1, H2. apply IH.
    + eapply readable_tail, Hr1.
    + eapply readable_tail, Hr2.
    + intros k Hk. rewrite ptr_add_add.
      replace (1 + Z.of_nat k) with (Z.of_nat (S k)) by lia. apply Hne. lia.
    + lia.
    + rewrite !ptr_add_add.
      now replace (1 + Z.of_nat (length xs)) with (Z.of_nat (S (length xs))) by lia.
Qed.

(** [a < b] is [false] when [b] is empty. *)
Lemma op_lt_other_empty (w : world E) (xs : list E) :
  holds w xs -> other_holds w [] -> op_lt E w = Ret false w.
Proof.
  destruct w as [[mv c sz al] [ov oc osz oal] h nx bd tr].
  unfold other_holds, holds, swap_roles. norm.
  intros (_ & -> & Hmv) (_ & -> & Hov).
  unfold op_lt. mget. mget.
  mstep ltac:(apply on_other_begin). mstep ltac:(apply on_other_end). norm.
  cbn [length]. change (Z.of_nat 0) with 0.
  unfold std_lexicographical_compare, iterator_minus.
  assert (Hd2 : ptr_diff ov (ptr_add ov 0) = Some 0).
  { destruct ov as [|b o]; [reflexivity|]. cbn. rewrite Nat.eqb_refl. f_equal. lia. }
  assert (He2 : ptr_eqb ov (ptr_add ov 0) = true).
  { destruct ov as [|b o]; [reflexivity|]. cbn. rewrite Nat.eqb_refl. cbn.
    apply Z.eqb_eq. lia. }
  rewrite Hd2.
  destruct mv as [|a o].
  - destruct Hmv as [_ ->]. cbn [length ptr_add ptr_diff]. change (0 <? Z.of_nat 0) with false.
    mget. mget. cbn [lexicographical_compare_loop ptr_eqb]. now rewrite He2.
  - destruct Hmv as (-> & _). cbn [ptr_add ptr_diff]. rewrite Nat.eqb_refl.
    destruct (0 <? 0 + Z.of_nat (length xs) - 0) eqn:Hn.
    + unfold ptr_offset. mget. mget.
      destruct (h !! a); cbn [lexicographical_compare_loop ptr_eqb];
        rewrite Nat.eqb_refl; cbn [andb Z.add Z.eqb]; now rewrite He2.
    + apply Z.ltb_ge in Hn. assert (length xs = 0%nat) as -> by lia.
      mget. mget.
      destruct (h !! a); cbn [lexicographical_compare_loop ptr_eqb];
        rewrite Nat.eqb_refl; cbn [andb Z.add Z.eqb]; now rewrite He2.
Qed.

(** [a < b] is the lexicographic order when the two vectors differ at an
    index that both have. *)
Lemma op_lt_first_difference (w : world E) (px py : list E) x y rx ry :
  holds w (px ++ x :: rx) -> other_holds w (py ++ y :: ry) ->
  Forall2 equivalent px py ->
  elem_lt E x y = true \/ elem_lt E y x = true ->
  op_lt E w = Ret (lex_less (px ++ x :: rx) (py ++ y :: ry)) w.
Proof.
  intros Hw Ho Hp Hd.
  rewrite (lex_less_first_difference px py x y rx ry Hp Hd).
  pose proof (holds_readable w _ Hw) as Hr1.
  pose proof (other_holds_readable w _ Ho) as Hr2.
  destruct w as [[mv c sz al] [ov oc osz oal] h nx bd tr].
  unfold other_holds, holds, swap_roles in Hw, Ho. norm_in Hw. norm_in Ho.
  norm_in Hr1. norm_in Hr2.
  destruct Hw as (_ & -> & Hmv). destruct Ho as (_ & -> & Hov).
  destruct mv as [|a o]; [destruct Hmv as [_ Hnil]; now destruct px|].
  destruct ov as [|b o']; [destruct Hov as [_ Hnil]; now destruct py|].
  destruct Hmv as (-> & _ & blk & Hb & Hlen & Htake).
  destruct Hov as (-> & _).
  pose proof (holds_length _ _ Htake) as Hl.
  rewrite !length_app in *. cbn [length] in *.
  unfold op_lt. mget. mget.
  mstep ltac:(apply on_other_begin). mstep ltac:(apply on_other_end). norm.
  unfold std_lexicographical_compare, iterator_minus. cbn [ptr_add ptr_diff].
  rewrite !Nat.eqb_refl.
  replace (0 - (0 + Z.of_nat (length py + S (length ry)))
           <? 0 + Z.of_nat (length px + S (length rx)) - 0) with true
    by (symmetry; apply Z.ltb_lt; lia).
  unfold ptr_offset. mget.
  unfold steps_within. mget. rewrite Hb.
  apply (lexicographical_compare_loop_differ _ px py x y rx ry Hp Hd); [exact Hr1 | exact Hr2 | |].
  - intros k Hk. cbn [ptr_add ptr_eqb]. rewrite Nat.eqb_refl. cbn [andb].
    apply Z.eqb_neq. lia.
  - lia.
Qed.

(** In every other case [a < b] reads past the elements of one of the two
    vectors: when [b] is not empty and no pair of elements differs at an
    index that both have, that is, when one is a prefix of the other or the
    two are equal.  For vectors whose capacity is their size the read leaves
    the block. *)
Lemma op_lt_no_difference (w : world E) (xs ys : list E) :
  holds w xs -> other_holds w ys ->
  ys <> [] ->
  m_capacity (this E w) = Z.of_nat (length xs) ->
  m_capacity (that E w) = Z.of_nat (length ys) ->
  Forall2 equivalent (take (length ys) xs) (take (length xs) ys) ->
  op_lt E w = Undefined.
Proof.
  intros Hw Ho Hne Hc1 Hc2 Hp.
  pose proof (holds_readable w _ Hw) as Hr1.
  pose proof (other_holds_readable w _ Ho) as Hr2.
  destruct w as [[mv c sz al] [ov oc osz oal] h nx bd tr].
  unfold other_holds, holds, swap_roles in Hw, Ho. norm_in Hw. norm_in Ho.
  norm_in Hr1. norm_in Hr2. norm_in Hc1. norm_in Hc2. subst c oc.
  destruct Hw as (_ & -> & Hmv). destruct Ho as (_ & -> & Hov).
  assert (Hny : (0 < length ys)%nat) by (destruct ys; [congruence | cbn; lia]).
  destruct ov as [|b o']; [destruct Hov as [_ Hnil]; congruence|].
  destruct Hov as (-> & _ & blk2 & Hb2 & Hlen2 & Htake2).
  unfold op_lt. mget. mget.
  mstep ltac:(apply on_other_begin). mstep ltac:(apply on_other_end). norm.
  unfold std_lexicographical_compare, iterator_minus.
  destruct mv as [|a o].
  - destruct Hmv as [_ ->]. cbn [length ptr_add ptr_diff]. rewrite Nat.eqb_refl.
    replace (0 - (0 + Z.of_nat (length ys)) <? 0) with true
      by (symmetry; apply Z.ltb_lt; lia).
    unfold ptr_offset.
    replace (0 - (0 + Z.of_nat (length ys)) =? 0) with false
      by (symmetry; apply Z.eqb_neq; lia).
    reflexivity.
  - destruct Hmv as (-> & _ & blk1 & Hb1 & Hlen1 & Htake1).
    cbn [ptr_add ptr_diff]. rewrite !Nat.eqb_refl.
    replace (0 - (0 + Z.of_nat (length ys)) <? 0 + Z.of_nat (length xs) - 0) with true
      by (symmetry; apply Z.ltb_lt; lia).
    unfold ptr_offset. mget.
    unfold steps_within. mget. rewrite Hb1.
    apply (lexicographical_compare_loop_off _ _ _ Hp).
    + intros k x Hx. apply Hr1. now apply lookup_take_Some in Hx.
    + intros k y Hy. apply Hr2. now apply lookup_take_Some in Hy.
    + intros k Hk. cbn [ptr_add ptr_eqb]. rewrite Nat.eqb_refl. cbn [andb].
      apply Z.eqb_neq. lia.
    + rewrite length_take. lia.
    + rewrite length_take.
      destruct (le_lt_dec (length xs) (length ys)) as [Hle | Hlt].
      * left. rewrite Nat.min_r by lia.
        unfold read, load, mbind, M_bind. cbn [ptr_add blocks]. rewrite Hb1.
        replace (0 <=? 0 + Z.of_nat (length xs)) with true by (symmetry; apply Z.leb_le; lia).
        rewrite (proj2 (lookup_ge_None blk1 _)); [reflexivity | lia].
      * right. rewrite Nat.min_l by lia.
        unfold read, load, mbind, M_bind. cbn [ptr_add blocks]. rewrite Hb2.
        replace (0 <=? 0 + Z.of_nat (length ys)) with true by (symmetry; apply Z.leb_le; lia).
        rewrite (proj2 (lookup_ge_None blk2 _)); [reflexivity | lia].
Qed.

Lemma pairwise_eq_refl (xs : list E) :
  (forall x, elem_eq E x x = true) -> pairwise_eq xs xs = true.
Proof.
  intros H. induction xs as [|x xs IH]; [reflexivity|].
  cbn. now rewrite H, IH.
Qed.

Lemma pairwise_eq_sym (xs ys : list E) :
  (forall x y, elem_eq E x y = elem_eq E y x) -> pairwise_eq xs ys = pairwise_eq ys xs.
Proof.
  intros H. revert ys. induction xs as [|x xs IH]; intros [|y ys]; try reflexivity.
  cbn. now rewrite H, IH.
Qed.

(** ** Removing at the tail and move assignment *)

(** [pop_back()] on a non-empty well-formed vector. *)
Lemma pop_back_ok (w : world E) vals v :
  holds w (vals ++ [v]) ->
  m_size (this E w) < SizeT.modulus ->
  exists w',
    pop_back E w = Ret () w'
    /\ holds w' vals
    /\ m_capacity (this E w') = m_capacity (this E w)
    /\ m_vector (this E w') = m_vector (this E w).
Proof.
  destruct w as [[mv c sz al] ta h nx bd tr]. unfold holds. norm.
  rewrite length_app. cbn [length].
  intros (-> & -> & Hmv) Hmod.
  destruct mv as [|a o]; [destruct Hmv as [_ Hnil]; now destruct vals|].
  destruct Hmv as (-> & Ha & blk & Hb & Hlen & Htake).
  assert (Hl : (length vals + 1 <= length blk)%nat).
  { apply (f_equal length) in Htake. rewrite length_take, length_fmap, length_app in Htake.
    cbn [length] in Htake. lia. }
  eexists. split.
  - unfold pop_back. apply noexcept_ret. mget. mget.
    replace (0 + Z.of_nat (length vals + 1) + -1) with (Z.of_nat (length vals)) by lia.
    erewrite bind_ret by (apply destroy_at_ok; [done | lia]).
    reflexivity.
  - unfold set_m_size, with_this, SizeT.sub. norm.
    rewrite wrap_small by lia.
    split; [|split; reflexivity].
    split; [reflexivity|]. split; [lia|]. split; [reflexivity|]. split; [exact Ha|].
    eexists. split; [apply lookup_insert_eq|].
    split; [now rewrite length_insert|].
    rewrite take_insert_ge by lia.
    apply (f_equal (take (length vals))) in Htake.
    rewrite take_take, Nat.min_l in Htake by lia.
    rewrite Htake, fmap_app, take_app_length'; [done | now rewrite length_fmap].
Qed.

(** [operator=(vector&&)] when the allocator propagates on move assignment
    (as [std::allocator] does): whatever [other] held, [*this] ends with
    size 0 and capacity 0, holding the block of [other]. *)
Lemma move_assign_propagating c al ta h nx bd tr a blk (s : nat) :
  propagate_on_container_move_assignment A = true ->
  h !! a = Some blk -> (s <= length blk)%nat ->
  move_assign E A (World E (Vector (Ptr a 0) c (Z.of_nat s) al) ta h nx bd tr)
  = Ret () (World E (Vector (m_vector ta) 0 0 (m_allocator ta))
              (Vector Null 0 0 (m_allocator ta))
              (delete a h) nx bd
              (tr ++ (Destroyed a <$> seqZ 0 (Z.of_nat s)) ++ [Released a])).
Proof.
  intros Hp Hb Hs. unfold move_assign. rewrite Hp. apply noexcept_ret.
  mget. mget. rewrite ?bind_assoc.
  erewrite bind_ret.
  2:{ unfold deallocate_and_destruct. apply noexcept_ret.
      unfold destruct, for_loop. rewrite Z.sub_0_r, Nat2Z.id, ?bind_assoc.
      erewrite bind_ret.
      2:{ apply (destroy_own_range_ok _ _ _ _ _ _ a s 0%nat) with (blk := blk); [done | lia]. }
      mget. unfold deallocate. mget.
      erewrite bind_ret by (eapply dealloc_ok, lookup_insert_eq).
      reflexivity. }
  do 7 mget.
  rewrite delete_insert_eq, <- app_assoc. reflexivity.
Qed.

(** ** Clearing, and the two operators with one body *)

(** [clear()] on a vector without a block: nothing to do. *)
Lemma clear_null c al ta h nx bd tr :
  clear E (World E (Vector Null c 0 al) ta h nx bd tr)
  = Ret () (World E (Vector Null c 0 al) ta h nx bd tr).
Proof. reflexivity. Qed.

(** [operator>] and [operator>=] have the same body. *)
Lemma op_gt_is_op_ge (w : world E) : op_gt E w = op_ge E w.
Proof. reflexivity. Qed.

(** ** The properties of the specification that hold of every vector *)

(** C7 (amended).  [clear()] destroys every live element and leaves size 0;
    it does not release the block: the capacity and the base address are
    unchanged, the block stays allocated with its slots [[0, size)] raw, and
    the provider is not asked to release anything. *)
Theorem clear_keeps_block (w : world E) (a : nat) (blk : list (option E)) :
  m_vector (this E w) = Ptr a 0 ->
  blocks E w !! a = Some blk ->
  0 <= m_size (this E w) <= Z.of_nat (length blk) ->
  exists w',
    clear E w = Ret () w'
    /\ m_size (this E w') = 0
    /\ m_capacity (this E w') = m_capacity (this E w)
    /\ m_vector (this E w') = m_vector (this E w)
    /\ blocks E w' !! a
       = Some (replicate (Z.to_nat (m_size (this E w))) None
               ++ drop (Z.to_nat (m_size (this E w))) blk)
    /\ (forall b, b <> a -> blocks E w' !! b = blocks E w !! b)
    /\ trace E w'
       = trace E w ++ (Destroyed a <$> seqZ 0 (m_size (this E w))).
Proof.
  destruct w as [[mv c sz al] ta h nx bd tr]. norm.
  intros -> Hb Hsz.
  eexists. split.
  - unfold clear. apply noexcept_ret. mget. unfold destruct, for_loop.
    rewrite Z.sub_0_r.
    erewrite bind_ret.
    2:{ apply (destroy_own_range_ok _ _ _ _ _ _ a (Z.to_nat sz) 0%nat) with (blk := blk);
          [done | lia]. }
    reflexivity.
  - unfold set_m_size, with_this. norm.
    split; [reflexivity|]. split; [reflexivity|]. split; [reflexivity|].
    split; [apply lookup_insert_eq|].
    split; [intros b Hne; now rewrite lookup_insert_ne|].
    now rewrite Z2Nat.id by lia.
Qed.

(** C8.  Range erase.  On a well-formed vector, for [first <= last <= size]
    and with no element assignment failing, [erase(first, last)] destroys
    exactly the elements of [[first, last)], moves the trailing elements down
    over the gap in their order, lowers the size by [last - first] and leaves
    the capacity and the base address alone. *)
Theorem erase_range_spec (w : world E) a blk (first last : nat) vals :
  m_vector (this E w) = Ptr a 0 ->
  blocks E w !! a = Some blk ->
  budget E w = None ->
  m_size (this E w) <= Z.of_nat (length blk) ->
  m_size (this E w) < SizeT.modulus ->
  (first <= last)%nat ->
  Z.of_nat last <= m_size (this E w) ->
  contents E w (this E w) = Some vals ->
  exists w',
    erase_range E (Ptr a (Z.of_nat first)) (Ptr a (Z.of_nat last)) w
    = Ret (Ptr a (if Z.of_nat last =? m_size (this E w)
                  then Z.of_nat last else Z.of_nat first)) w'
    /\ m_size (this E w') = m_size (this E w) - (Z.of_nat last - Z.of_nat first)
    /\ m_capacity (this E w') = m_capacity (this E w)
    /\ m_vector (this E w') = m_vector (this E w)
    /\ contents E w' (this E w') = Some (take first vals ++ drop last vals)
    /\ trace E w' = trace E w
         ++ (Destroyed a <$> seqZ (Z.of_nat first) (Z.of_nat last - Z.of_nat first)).
Proof.
  destruct w as [[mv cap sz al] ta h nx bd tr]. norm.
  intros -> Hb -> Hlen Hmod Hfl Hls Hvals.
  assert (Hsz : 0 <= sz) by lia.
  destruct (Z_of_nat_complete sz Hsz) as [s ->]. clear Hsz.
  unfold erase_range.
  mget.
  mstep ltac:(apply assert_true, ptr_leb_same; lia).
  mstep ltac:(apply assert_true, ptr_leb_same; lia).
  mstep ltac:(apply assert_true, ptr_leb_same; lia).
  mstep ltac:(apply index_of_ok; [reflexivity | lia]).
  mstep ltac:(apply index_of_ok; [reflexivity | lia]).
  mget. mget.
  unfold for_loop.
  replace (Z.to_nat (Z.of_nat last - Z.of_nat first)) with (last - first)%nat by lia.
  rewrite (bind_ret _ _ _ _ _
    (destroy_range_ok _ _ _ _ _ a (last - first) (fun _ _ _ => eq_refl) first h tr blk Hb
       ltac:(lia))).
  erewrite bind_ret.
  2:{ apply (std_copy_ok _ _ _ _ _ a _ last first s); [apply lookup_insert_eq | lia |].
      rewrite !length_app, length_take, length_replicate, length_drop. lia. }
  rewrite insert_insert_eq.
  mget.
  rewrite !Z.add_0_l. unfold mret, M_ret, with_this. norm.
  cbn [ptr_eqb]. rewrite Nat.eqb_refl. cbn [andb].
  eexists. split.
  { destruct (Z.of_nat last =? Z.of_nat s); reflexivity. }
  norm. unfold SizeT.sub.
  rewrite (wrap_small (Z.of_nat last - Z.of_nat first)) by lia.
  rewrite wrap_small by lia.
  split; [reflexivity|]. split; [reflexivity|]. split; [reflexivity|].
  split.
  2:{ now rewrite Nat2Z.inj_sub by lia. }
  unfold contents, slots_of in *. norm. norm_in Hvals.
  rewrite lookup_insert_eq. rewrite Hb in Hvals. cbn [mbind option_bind] in *.
  destruct (erase_block_contents blk first last s ltac:(lia) ltac:(lia)) as [Hl Hc].
  cbv zeta in Hl, Hc. rewrite Hl.
  replace ((0 <=? 0) && (0 + (Z.of_nat s - (Z.of_nat last - Z.of_nat first))
                         <=? Z.of_nat (length blk))) with true
    by (symmetry; apply andb_true_iff; split; [reflexivity | apply Z.leb_le; lia]).
  replace ((0 <=? 0) && (0 + Z.of_nat s <=? Z.of_nat (length blk))) with true in Hvals
    by (symmetry; apply andb_true_iff; split; [reflexivity | apply Z.leb_le; lia]).
  cbn [fmap option_fmap option_map] in *. injection Hvals as <-.
  f_equal. cbn [Z.to_nat drop]. rewrite Nat2Z.id.
  replace (Z.to_nat (Z.of_nat s - (Z.of_nat last - Z.of_nat first)))
    with (s - (last - first))%nat by lia.
  exact Hc.
Qed.

(** C10.  [data()] returns the null pointer whenever [size()] is 0, whatever
    the base address and the capacity are, and otherwise returns [m_vector],
    the address of the element at index 0. *)
Theorem data_null_when_empty (w : world E) :
  (m_size (this E w) = 0 -> data E w = Ret Null w)
  /\ (m_size (this E w) <> 0 ->
      data E w = Ret (m_vector (this E w)) w
      /\ begin_ E w = Ret (m_vector (this E w)) w
      /\ ptr_add (m_vector (this E w)) 0 = m_vector (this E w)).
Proof.
  unfold data, begin_, mbind, M_bind, size, get_m_vector, mret, M_ret. split.
  - intros ->. reflexivity.
  - intros Hne. apply Z.eqb_neq in Hne. rewrite Hne. cbn [negb].
    split; [reflexivity|]. split; [reflexivity|].
    destruct (m_vector (this E w)); [reflexivity|]. cbn. now rewrite Z.add_0_r.
Qed.

(** * Further properties of the code *)

Ltac mrun := rewrite ?bind_assoc; erewrite bind_ret by reflexivity; unfold with_this; norm.

(** ** Element access *)

(** X1.  Checked access.  On a vector holding the elements [vals], [at(index)]
    returns the element at [index] when [index < size()] and throws
    [std::out_of_range] otherwise; in both cases the vector and the store are
    as they were. *)
Theorem at_checked (w : world E) (vals : list E) (index : nat) :
  contents E w (this E w) = Some vals ->
  0 <= m_size (this E w) ->
  at_ E (Z.of_nat index) w
  = match vals !! index with
    | Some x => Ret x w
    | None => Throw OutOfRange w
    end.
Proof.
  intros Hc Hs.
  pose proof (contents_length _ _ _ Hc Hs) as Hl.
  pose proof (contents_readable _ _ _ Hc) as Hr.
  unfold at_. mget. rewrite <- Hl.
  destruct (vals !! index) as [x|] eqn:Hx.
  - apply lookup_lt_Some in Hx as Hlt.
    replace (Z.of_nat index <? Z.of_nat (length vals)) with true
      by (symmetry; apply Z.ltb_lt; lia).
    mget. now apply Hr.
  - apply lookup_ge_None in Hx.
    replace (Z.of_nat index <? Z.of_nat (length vals)) with false
      by (symmetry; apply Z.ltb_ge; lia).
    reflexivity.
Qed.

(** X2.  Unchecked access.  On a vector holding the elements [vals],
    [operator[]] returns the element at [index] when [index < size()] and
    stops the program at its [assert] otherwise; on a non-empty vector
    [front()] is the first element and [back()] the last one.  None of them
    changes the vector. *)
Theorem unchecked_access (w : world E) (vals : list E) :
  contents E w (this E w) = Some vals ->
  0 <= m_size (this E w) ->
  (forall index : nat,
     subscript E (Z.of_nat index) w
     = match vals !! index with
       | Some x => Ret x w
       | None => Terminated
       end)
  /\ (forall x, head vals = Some x -> front E w = Ret x w)
  /\ (forall x, last vals = Some x -> back E w = Ret x w).
Proof.
  intros Hc Hs.
  pose proof (contents_length _ _ _ Hc Hs) as Hl.
  pose proof (contents_readable _ _ _ Hc) as Hr.
  split; [|split].
  - intros index. unfold subscript. mget. rewrite <- Hl.
    destruct (vals !! index) as [x|] eqn:Hx.
    + apply lookup_lt_Some in Hx as Hlt.
      replace (Z.of_nat index <? Z.of_nat (length vals)) with true
        by (symmetry; apply Z.ltb_lt; lia).
      mget. mget. now apply Hr.
    + apply lookup_ge_None in Hx.
      replace (Z.of_nat index <? Z.of_nat (length vals)) with false
        by (symmetry; apply Z.ltb_ge; lia).
      reflexivity.
  - intros x Hx. unfold front, begin_. mget.
    rewrite <- (ptr_add_0 (m_vector (this E w))).
    apply (Hr 0%nat). now rewrite <- head_lookup.
  - intros x Hx. unfold back, end_. mget. mget. mget.
    rewrite ptr_add_add, <- Hl.
    rewrite last_lookup in Hx.
    assert (length vals <> 0)%nat by (destruct vals; [discriminate | cbn; lia]).
    replace (Z.of_nat (length vals) + -1) with (Z.of_nat (pred (length vals))) by lia.
    now apply Hr.
Qed.

Lemma after_tail_ops_length (ops : list (tail_op E)) :
  forall vals vals',
  after_tail_ops vals ops = Some vals' ->
  (length vals' + pops ops = length vals + pushes ops)%nat.
Proof.
  induction ops as [|[c v|] ops IH]; intros vals vals' H; cbn in *.
  - injection H as <-. lia.
  - apply IH in H. rewrite length_app in H. cbn in H. lia.
  - destruct vals as [|x vals]; [discriminate|].
    apply IH in H.
    rewrite removelast_firstn_len, length_take in H. cbn [length] in *. lia.
Qed.

(** X3.  Tail operations.  Any sequence of [push_back] and [pop_back] that
    never removes from an empty vector runs to completion on a well-formed
    vector; the vector then holds what the same sequence leaves of a list
    (appended values at the end, in order of insertion, the last one removed
    first), and its size is the starting size plus the number of appends
    minus the number of removals. *)
Theorem tail_ops_spec (ops : list (tail_op E)) :
  forall (w : world E) (vals vals' : list E),
  holds w vals ->
  after_tail_ops vals ops = Some vals' ->
  Z.of_nat (length vals + length ops) <= 2 ^ 61 ->
  exists w',
    tail_ops E ops w = Ret () w'
    /\ holds w' vals'
    /\ contents E w' (this E w') = Some vals'
    /\ m_size (this E w')
       = m_size (this E w) + Z.of_nat (pushes ops) - Z.of_nat (pops ops).
Proof.
  induction ops as [|[c v|] ops IH]; intros w vals vals' Hw Hops Hbound.
  - cbn in Hops. injection Hops as <-. exists w.
    split; [reflexivity|]. split; [exact Hw|].
    split; [now apply holds_contents|]. cbn. lia.
  - cbn [after_tail_ops] in Hops. cbn [length] in Hbound.
    destruct (push_back_ok c v w vals Hw) as (w1 & Hrun1 & Hw1 & _); [lia|].
    destruct (IH w1 (vals ++ [v]) vals' Hw1 Hops) as (w' & Hrun & Hw' & Hc & Hsz).
    { rewrite length_app. cbn [length]. lia. }
    exists w'. cbn [tail_ops]. erewrite bind_ret by exact Hrun1.
    split; [exact Hrun|]. split; [exact Hw'|]. split; [exact Hc|].
    rewrite Hsz. destruct Hw1 as (_ & -> & _). destruct Hw as (_ & -> & _).
    rewrite length_app. cbn [length pushes pops]. lia.
  - cbn [after_tail_ops] in Hops. cbn [length] in Hbound.
    destruct vals as [|x vals]; [discriminate|].
    assert (Hsplit : x :: vals = removelast (x :: vals) ++ [List.last (x :: vals) x])
      by (apply app_removelast_last; discriminate).
    rewrite Hsplit in Hw.
    destruct (pop_back_ok w _ _ Hw) as (w1 & Hrun1 & Hw1 & _).
    { destruct Hw as (_ & -> & _). rewrite <- Hsplit. cbn [length] in *.
      unfold SizeT.modulus. lia. }
    destruct (IH w1 _ vals' Hw1 Hops) as (w' & Hrun & Hw' & Hc & Hsz).
    { rewrite removelast_firstn_len, length_take. cbn [length] in *. lia. }
    exists w'. cbn [tail_ops]. erewrite bind_ret by exact Hrun1.
    split; [exact Hrun|]. split; [exact Hw'|]. split; [exact Hc|].
    rewrite Hsz. destruct Hw1 as (_ & -> & _). destruct Hw as (_ & -> & _).
    rewrite <- Hsplit, removelast_firstn_len, length_take. cbn [length pushes pops]. lia.
Qed.

(** X4.  [pop_back()] on an empty vector is undefined behaviour: line 714
    destroys the slot before the block (or through the null pointer) without
    any check. *)
Theorem pop_back_empty (w : world E) :
  holds w [] -> pop_back E w = Undefined.
Proof.
  destruct w as [[mv c sz al] ta h nx bd tr]. unfold holds. norm.
  intros (-> & -> & Hmv). cbn [length]. change (Z.of_nat 0) with 0.
  unfold pop_back, noexcept. mget. mget.
  destruct mv as [|a o].
  - reflexivity.
  - destruct Hmv as (-> & _ & blk & Hb & _).
    norm. unfold destroy_at, store, mbind, M_bind. norm. now rewrite Hb.
Qed.

(** ** Reserving and shrinking *)

Lemma moved_block_length (blk : list (option E)) (s n : nat) :
  (s <= length blk)%nat -> (s <= n)%nat -> length (moved_block blk s n) = n.
Proof.
  intros Hs Hn. unfold moved_block.
  rewrite length_app, length_fmap, length_take, length_replicate. lia.
Qed.

Lemma moved_block_take (vals : list E) (blk : list (option E)) (n : nat) :
  take (length vals) blk = Some <$> vals ->
  take (length vals) (moved_block blk (length vals) n) = Some <$> vals.
Proof.
  intros Htake. pose proof (holds_length _ _ Htake) as Hl.
  unfold moved_block. rewrite take_app_length'.
  2:{ rewrite length_fmap, length_take. lia. }
  rewrite Htake, <- list_fmap_compose. reflexivity.
Qed.

(** A reallocation of a well-formed vector to [n] slots, [n] at least its
    size: the same elements, in a fresh block of exactly [n] slots. *)
Lemma reallocate_holds (w : world E) (vals : list E) (n : nat) :
  holds w vals ->
  (length vals <= n)%nat ->
  Z.of_nat n <= SizeT.ptrdiff_max ->
  exists w',
    reallocate_strong_guarantee E (Z.of_nat n) w = Ret () w'
    /\ holds w' vals
    /\ m_capacity (this E w') = Z.of_nat n
    /\ m_vector (this E w') = Ptr (next_block E w) 0
    /\ that E w' = that E w.
Proof.
  destruct w as [[mv c sz al] ta h nx bd tr]. unfold holds. norm.
  intros (-> & -> & Hmv) Hle Hn.
  destruct mv as [|a o].
  - destruct Hmv as [-> ->]. cbn [length]. change (Z.of_nat 0) with 0.
    erewrite reallocate_strong_guarantee_null by lia.
    eexists. split; [reflexivity|]. norm.
    split; [|repeat split].
    split; [reflexivity|]. split; [reflexivity|].
    split; [reflexivity|]. split; [lia|].
    eexists. split; [apply lookup_insert_eq|].
    split; [now rewrite length_replicate | reflexivity].
  - destruct Hmv as (-> & Ha & blk & Hb & Hlen & Htake).
    pose proof (holds_length _ _ Htake) as Hvl.
    erewrite reallocate_strong_guarantee_ok; [|exact Hb|lia|lia|lia|lia].
    eexists. split; [reflexivity|]. norm.
    split; [|repeat split].
    split; [reflexivity|]. split; [reflexivity|].
    split; [reflexivity|]. split; [lia|].
    eexists. split; [apply lookup_insert_eq|].
    split; [rewrite moved_block_length; lia|].
    now apply moved_block_take.
Qed.

(** The size of a well-formed vector is at most its capacity. *)
Lemma holds_size_capacity (w : world E) (vals : list E) :
  holds w vals ->
  m_size (this E w) = Z.of_nat (length vals)
  /\ Z.of_nat (length vals) <= m_capacity (this E w).
Proof.
  destruct w as [[mv c sz al] ta h nx bd tr]. unfold holds. norm.
  intros (_ & -> & Hmv). split; [reflexivity|].
  destruct mv as [|a o].
  - destruct Hmv as [-> ->]. cbn. lia.
  - destruct Hmv as (_ & _ & blk & _ & <- & Htake).
    apply holds_length in Htake. lia.
Qed.

(** X5.  [reserve(n)] on a well-formed vector: it throws
    [std::length_error] and changes nothing when [n > max_size()]; it does
    nothing when [n <= capacity()]; otherwise it moves the elements into a
    fresh block of exactly [n] slots, so that the capacity is [n] and the
    elements are the same. *)
Theorem reserve_spec (w : world E) (vals : list E) (n : Z) :
  holds w vals ->
  (SizeT.ptrdiff_max < n -> reserve E n w = Throw LengthError w)
  /\ (n <= SizeT.ptrdiff_max -> n <= m_capacity (this E w) -> reserve E n w = Ret () w)
  /\ (m_capacity (this E w) < n <= SizeT.ptrdiff_max ->
      exists w',
        reserve E n w = Ret () w'
        /\ holds w' vals
        /\ m_capacity (this E w') = n
        /\ m_vector (this E w') = Ptr (next_block E w) 0
        /\ that E w' = that E w).
Proof.
  intros Hw. unfold reserve, max_size. split; [|split].
  - intros Hn. now replace (SizeT.ptrdiff_max <? n) with true by (symmetry; apply Z.ltb_lt; lia).
  - intros Hn Hcap.
    replace (SizeT.ptrdiff_max <? n) with false by (symmetry; apply Z.ltb_ge; lia).
    mget. now replace (m_capacity (this E w) <? n) with false by (symmetry; apply Z.ltb_ge; lia).
  - intros [Hcap Hn].
    replace (SizeT.ptrdiff_max <? n) with false by (symmetry; apply Z.ltb_ge; lia).
    mget. replace (m_capacity (this E w) <? n) with true by (symmetry; apply Z.ltb_lt; lia).
    destruct (holds_size_capacity w vals Hw) as [_ Hsc].
    destruct (reallocate_holds w vals (Z.to_nat n) Hw) as (w' & Hrun & Hw' & Hc & Hv & Ht);
      [lia | lia |].
    rewrite Z2Nat.id in Hrun, Hc by lia.
    exists w'. now repeat (split; [assumption|]).
Qed.

(** X7.  [shrink_to_fit()] on a well-formed vector leaves the same elements
    with a capacity equal to the size: nothing happens when they are equal
    already, and otherwise the elements move to a fresh block of exactly
    [size()] slots (a block of no slot for an empty vector). *)
Theorem shrink_to_fit_spec (w : world E) (vals : list E) :
  holds w vals ->
  m_size (this E w) <= SizeT.ptrdiff_max ->
  exists w',
    shrink_to_fit E w = Ret () w'
    /\ holds w' vals
    /\ m_capacity (this E w') = m_size (this E w)
    /\ that E w' = that E w
    /\ (m_capacity (this E w) = m_size (this E w) -> w' = w)
    /\ (m_capacity (this E w) <> m_size (this E w) ->
        m_vector (this E w') = Ptr (next_block E w) 0).
Proof.
  intros Hw Hmax. unfold shrink_to_fit. mget. mget.
  destruct (holds_size_capacity w vals Hw) as [Hsz _].
  destruct (m_capacity (this E w) =? m_size (this E w)) eqn:Heq.
  - apply Z.eqb_eq in Heq. exists w. cbn [negb].
    split; [reflexivity|]. split; [exact Hw|]. split; [exact Heq|].
    split; [reflexivity|]. split; [reflexivity|]. intros Hne. now destruct Hne.
  - apply Z.eqb_neq in Heq. cbn [negb]. rewrite Hsz in *.
    destruct (reallocate_holds w vals (length vals) Hw) as (w' & Hrun & Hw' & Hc & Hv & Ht);
      [lia | lia |].
    exists w'. split; [exact Hrun|]. split; [exact Hw'|]. split; [exact Hc|].
    split; [exact Ht|]. split; [intros Hc'; now destruct Heq | intros _; exact Hv].
Qed.

(** ** Loops that set one slot per step *)

Lemma seqZ_fmap_seq {B} (F : Z -> B) (off k0 n : nat) :
  (fun k : nat => F (Z.of_nat (off + k))) <$> seq k0 n
  = F <$> seqZ (Z.of_nat (off + k0)) (Z.of_nat n).
Proof.
  revert k0. induction n as [|n IH]; intros k0; [reflexivity|].
  cbn [seq fmap list_fmap]. rewrite (seqZ_cons (Z.of_nat (off + k0))) by lia.
  cbn [fmap list_fmap]. f_equal. rewrite IH. do 2 f_equal; lia.
Qed.

(** Each step [k] stores [g k] in the slot [off + k] of block [a] and
    records [ev k]. *)
Lemma slot_range_ok (body : Z -> M E ()) (g : nat -> option E) (ev : nat -> event)
    th ta nx bd a (off : nat) n :
  (forall (k : nat) h tr cur,
     h !! a = Some cur -> (off + k < length cur)%nat ->
     body (Z.of_nat k) (World E th ta h nx bd tr)
     = Ret () (World E th ta (<[a := <[(off + k)%nat := g k]> cur]> h) nx bd (tr ++ [ev k]))) ->
  forall (k0 : nat) h tr cur,
  h !! a = Some cur -> (off + k0 + n <= length cur)%nat ->
  for_range E n (Z.of_nat k0) body (World E th ta h nx bd tr)
  = Ret () (World E th ta
              (<[a := take (off + k0) cur ++ (g <$> seq k0 n) ++ drop (off + k0 + n) cur]> h)
              nx bd (tr ++ (ev <$> seq k0 n))).
Proof.
  intros Hbody. induction n as [|n IH]; intros k0 h tr cur Hb Hlen.
  - cbn. rewrite Nat.add_0_r, take_drop, insert_id by done. now rewrite app_nil_r.
  - cbn [for_range].
    erewrite bind_ret by (apply Hbody; [exact Hb | lia]).
    replace (Z.of_nat k0 + 1) with (Z.of_nat (S k0)) by lia.
    erewrite IH; [|apply lookup_insert_eq | rewrite length_insert; lia].
    f_equal. f_equal.
    + rewrite insert_insert_eq. f_equal.
      replace (off + S k0)%nat with (S (off + k0)) by lia.
      rewrite (take_S_r _ _ (g k0)) by (apply list_lookup_insert_eq; lia).
      rewrite take_insert_ge by lia.
      rewrite drop_insert_lt by lia.
      rewrite <- app_assoc. cbn [seq fmap list_fmap app].
      now replace (S (off + k0) + n)%nat with (off + k0 + S n)%nat by lia.
    + rewrite <- app_assoc. reflexivity.
Qed.

(** The values of a list, constructed one after the other from slot [i] on. *)
Lemma construct_each_ok (values : list E) c sz al ta nx a :
  forall (i : nat) h tr blk,
  h !! a = Some blk -> (i + length values <= length blk)%nat ->
  construct_each E (Z.of_nat i) values
    (World E (Vector (Ptr a 0) c sz al) ta h nx None tr)
  = Ret () (World E (Vector (Ptr a 0) c sz al) ta
              (<[a := take i blk ++ (Some <$> values) ++ drop (i + length values) blk]> h)
              nx None
              (tr ++ (Constructed a <$> seqZ (Z.of_nat i) (Z.of_nat (length values))))).
Proof.
  induction values as [|v values IH]; intros i h tr blk Hb Hlen.
  - cbn. rewrite Nat.add_0_r, take_drop, insert_id by done. now rewrite app_nil_r.
  - cbn [construct_each length] in *. mget. rewrite Z.add_0_l.
    erewrite bind_ret by (apply construct_at_ok; [exact Hb | lia]).
    replace (Z.of_nat i + 1) with (Z.of_nat (S i)) by lia.
    erewrite IH; [|apply lookup_insert_eq | rewrite length_insert; lia].
    f_equal. f_equal.
    + rewrite insert_insert_eq. f_equal.
      rewrite (take_S_r _ _ (Some v)) by (apply list_lookup_insert_eq; lia).
      rewrite take_insert_ge by lia.
      rewrite drop_insert_lt by lia.
      rewrite <- app_assoc. cbn [fmap list_fmap app].
      now replace (S i + length values)%nat with (i + S (length values))%nat by lia.
    + rewrite <- app_assoc. f_equal.
      rewrite (seqZ_cons (Z.of_nat i)) by lia. cbn [fmap list_fmap app].
      do 3 f_equal; lia.
Qed.

(** [construct(size, value)] into a block. *)
Lemma construct_ok c sz al ta h nx tr a blk (n : nat) v :
  h !! a = Some blk -> (n <= length blk)%nat ->
  construct E (Z.of_nat n) (Outside v) (World E (Vector (Ptr a 0) c sz al) ta h nx None tr)
  = Ret () (World E (Vector (Ptr a 0) c (Z.of_nat n) al) ta
              (<[a := replicate n (Some v) ++ drop n blk]> h) nx None
              (tr ++ (Constructed a <$> seqZ 0 (Z.of_nat n)))).
Proof.
  intros Hb Hn. unfold construct. mrun.
  unfold for_loop. rewrite Z.sub_0_r, Nat2Z.id.
  erewrite (slot_range_ok _ (fun _ => Some v) (fun k => Constructed a (Z.of_nat (0 + k))))
    with (off := 0%nat) (k0 := 0%nat); [|intros k h' tr' cur Hc Hk|exact Hb|lia].
  - f_equal. f_equal.
    + f_equal. cbn [Nat.add]. rewrite take_0, app_nil_l. f_equal.
      clear. generalize 0%nat. induction n as [|n IH]; intros k0; cbn; [done|].
      now rewrite IH.
    + f_equal. apply (seqZ_fmap_seq (Constructed a) 0 0 n).
  - mget. rewrite Z.add_0_l. cbn [Nat.add].
    now apply construct_at_ok.
Qed.

(** [destruct(size)] followed by [deallocate(capacity)]. *)
Lemma deallocate_and_destruct_ok c al ta h nx bd tr a blk (s : nat) cap :
  h !! a = Some blk -> (s <= length blk)%nat ->
  deallocate_and_destruct E cap (Z.of_nat s)
    (World E (Vector (Ptr a 0) c (Z.of_nat s) al) ta h nx bd tr)
  = Ret () (World E (Vector (Ptr a 0) 0 0 al) ta (delete a h) nx bd
              (tr ++ (Destroyed a <$> seqZ 0 (Z.of_nat s)) ++ [Released a])).
Proof.
  intros Hb Hs. unfold deallocate_and_destruct. apply noexcept_ret.
  unfold destruct, for_loop. rewrite Z.sub_0_r, Nat2Z.id, ?bind_assoc.
  erewrite bind_ret
    by (apply destroy_own_range_ok with (i := 0%nat) (blk := blk); [exact Hb | lia]).
  mget. unfold deallocate. mget.
  erewrite bind_ret by (eapply dealloc_ok, lookup_insert_eq).
  mget. unfold set_m_size, with_this. norm.
  rewrite delete_insert_eq, <- app_assoc. reflexivity.
Qed.

(** X11.  The destructor of a well-formed vector destroys each of its
    elements once, front to back, and then releases its block, once; the
    other blocks of the store are not touched.  For a vector without a block
    nothing is destroyed and no block is released: the release is asked for
    the null pointer. *)
Theorem vector_destroy_spec (w : world E) (vals : list E) :
  holds w vals ->
  exists w',
    vector_destroy E w = Ret () w'
    /\ match m_vector (this E w) with
       | Null => blocks E w' = blocks E w /\ trace E w' = trace E w
       | Ptr a _ =>
           blocks E w' = delete a (blocks E w)
           /\ trace E w'
              = trace E w ++ (Destroyed a <$> seqZ 0 (Z.of_nat (length vals)))
                  ++ [Released a]
       end
    /\ that E w' = that E w
    /\ next_block E w' = next_block E w.
Proof.
  destruct w as [[mv c sz al] ta h nx bd tr]. unfold holds. norm.
  intros (-> & -> & Hmv). unfold vector_destroy. mget. mget.
  destruct mv as [|a o].
  - destruct Hmv as [-> ->]. eexists. split; [reflexivity|]. now norm.
  - destruct Hmv as (-> & Ha & blk & Hb & Hlen & Htake).
    pose proof (holds_length _ _ Htake) as Hvl.
    erewrite deallocate_and_destruct_ok by eassumption.
    eexists. split; [reflexivity|]. now norm.
Qed.

(** The constructor from a value list, on any store. *)
Lemma vector_init_list_ok (values : list E) mv c sz al ta h nx tr :
  Z.of_nat (length values) <= SizeT.ptrdiff_max ->
  vector_init_list E values (World E (Vector mv c sz al) ta h nx None tr)
  = Ret () (World E (Vector (Ptr nx 0) (Z.of_nat (length values))
                       (Z.of_nat (length values)) al) ta
              (<[nx := Some <$> values]> h) (S nx) None
              (tr ++ [Allocated nx (Z.of_nat (length values))]
                  ++ (Constructed nx <$> seqZ 0 (Z.of_nat (length values))))).
Proof.
  intros Hn. unfold vector_init_list, allocate, construct_init_list.
  mrun. mstep ltac:(apply alloc_ok; exact Hn). mrun. mrun.
  erewrite construct_each_ok with (i := 0%nat);
    [|apply lookup_insert_eq | rewrite length_replicate; lia].
  f_equal. f_equal.
  - rewrite insert_insert_eq. f_equal. cbn [Nat.add].
    rewrite take_0, app_nil_l, drop_replicate, Nat.sub_diag. apply app_nil_r.
  - now rewrite <- app_assoc.
Qed.

(** X10.  The constructor from a value list allocates one block of exactly
    as many slots as the list has values and copy-constructs them in order:
    the new vector holds the values of the list, with a capacity equal to
    its size (a block of no slot for an empty list). *)
Theorem vector_init_list_spec (w : world E) (values : list E) :
  budget E w = None ->
  Z.of_nat (length values) <= SizeT.ptrdiff_max ->
  exists w',
    vector_init_list E values w = Ret () w'
    /\ holds w' values
    /\ m_capacity (this E w') = Z.of_nat (length values)
    /\ m_vector (this E w') = Ptr (next_block E w) 0
    /\ blocks E w' = <[next_block E w := Some <$> values]> (blocks E w)
    /\ that E w' = that E w
    /\ trace E w'
       = trace E w ++ [Allocated (next_block E w) (Z.of_nat (length values))]
           ++ (Constructed (next_block E w) <$> seqZ 0 (Z.of_nat (length values))).
Proof.
  destruct w as [[mv c sz al] ta h nx bd tr]. norm. intros -> Hn.
  rewrite vector_init_list_ok by exact Hn.
  eexists. split; [reflexivity|]. unfold holds. norm.
  split; [|repeat split].
  split; [reflexivity|]. split; [reflexivity|].
  split; [reflexivity|]. split; [lia|].
  eexists. split; [apply lookup_insert_eq|].
  split; [now rewrite length_fmap|].
  rewrite <- (length_fmap Some values). apply firstn_all.
Qed.

(** ** Swapping *)

(** X9.  [swap(other)] exchanges the base addresses, capacities and sizes of
    the two vectors, hence their elements, without any allocation,
    construction or destruction; the allocators are exchanged exactly when
    the allocator propagates on swap or is always equal, and stay where they
    are otherwise.  Swapping twice restores both vectors. *)
Theorem swap_spec (w : world E) :
  exists w',
    swap E A w = Ret () w'
    /\ contents E w' (this E w') = contents E w (that E w)
    /\ contents E w' (that E w') = contents E w (this E w)
    /\ m_capacity (this E w') = m_capacity (that E w)
    /\ m_capacity (that E w') = m_capacity (this E w)
    /\ m_allocator (this E w')
       = (if propagate_on_container_swap A || is_always_equal A
          then m_allocator (that E w) else m_allocator (this E w))
    /\ m_allocator (that E w')
       = (if propagate_on_container_swap A || is_always_equal A
          then m_allocator (this E w) else m_allocator (that E w))
    /\ blocks E w' = blocks E w
    /\ trace E w' = trace E w
    /\ swap E A w' = Ret () w.
Proof.
  destruct w as [[mv c sz al] [mv' c' sz' al'] h nx bd tr].
  eexists. split; [reflexivity|].
  repeat (split; [reflexivity|]).
  unfold swap. norm. destruct (propagate_on_container_swap A || is_always_equal A); reflexivity.
Qed.

(** ** Erasing one element *)

Lemma fmap_default_Some (l : list E) :
  (fun x : option E => Some (default (indeterminate E) x)) <$> (Some <$> l) = Some <$> l.
Proof. rewrite <- list_fmap_compose. reflexivity. Qed.

(** The slots of a block that hold the elements [vals], a part of them. *)
Lemma holds_take_drop (vals : list E) (blk : list (option E)) (i n : nat) :
  take (length vals) blk = Some <$> vals ->
  (i + n <= length vals)%nat ->
  take n (drop i blk) = Some <$> take n (drop i vals).
Proof.
  intros Htake Hle.
  rewrite take_drop_commute.
  replace (take (i + n) blk) with (take (i + n) (take (length vals) blk))
    by (rewrite take_take; f_equal; lia).
  rewrite Htake, <- fmap_take, <- fmap_drop. f_equal.
  now rewrite take_drop_commute.
Qed.

(** X12.  [erase(pos)] at a valid index of a well-formed vector destroys
    that element, moves the later ones down by one slot in their order,
    lowers the size by one and returns the iterator at the same index; the
    capacity and the base address are unchanged.  No element assignment is
    assumed to fail. *)
Theorem erase_spec (w : world E) (vals : list E) (a : nat) (index : nat) :
  holds w vals ->
  m_vector (this E w) = Ptr a 0 ->
  (index < length vals)%nat ->
  m_size (this E w) < SizeT.modulus ->
  exists w',
    erase E (Ptr a (Z.of_nat index)) w = Ret (Ptr a (Z.of_nat index)) w'
    /\ holds w' (take index vals ++ drop (S index) vals)
    /\ m_capacity (this E w') = m_capacity (this E w)
    /\ m_vector (this E w') = m_vector (this E w)
    /\ that E w' = that E w
    /\ trace E w' = trace E w ++ [Destroyed a (Z.of_nat index)].
Proof.
  destruct w as [[mv c sz al] ta h nx bd tr]. unfold holds. norm.
  intros (-> & -> & Hmv) -> Hi Hmod.
  destruct Hmv as (_ & Ha & blk & Hb & Hlen & Htake).
  pose proof (holds_length _ _ Htake) as Hvl.
  set (s := length vals) in *.
  unfold erase. mget. rewrite Z.add_0_l.
  mstep ltac:(apply assert_true, ptr_leb_same; lia).
  mstep ltac:(apply index_of_ok; [reflexivity | lia]).
  mget. mget. rewrite !Z.add_0_l.
  mstep ltac:(apply destroy_at_ok; [exact Hb | lia]).
  replace (Z.of_nat index + 1) with (Z.of_nat (S index)) by lia.
  mstep ltac:(apply std_copy_ok with (s := s);
              [apply lookup_insert_eq | lia | rewrite length_insert; lia]).
  rewrite insert_insert_eq. mrun. mget.
  unfold SizeT.sub. rewrite wrap_small by lia. rewrite Z.add_0_l.
  eexists. split.
  { unfold mret, M_ret. f_equal. cbn [ptr_eqb].
    destruct (Nat.eqb a a && (Z.of_nat s - 1 =? Z.of_nat index)) eqn:Heq; [|reflexivity].
    apply andb_true_iff in Heq as [_ Heq]. apply Z.eqb_eq in Heq. f_equal. lia. }
  norm. split; [|repeat split].
  split; [reflexivity|].
  assert (Hnew : length (take index vals ++ drop (S index) vals) = (s - 1)%nat).
  { rewrite length_app, length_take, length_drop. lia. }
  split; [rewrite Hnew; lia|].
  split; [reflexivity|]. split; [exact Ha|].
  eexists. split; [apply lookup_insert_eq|].
  split.
  { rewrite !length_app, length_fmap, !length_take, !length_drop, !length_insert. lia. }
  rewrite Hnew.
  rewrite take_insert_ge by lia. rewrite drop_insert_lt by lia.
  rewrite (holds_take_drop vals blk (S index) (s - S index) Htake) by lia.
  rewrite fmap_default_Some.
  rewrite app_assoc, take_app_length'.
  2:{ rewrite length_app, length_fmap, !length_take, length_drop. lia. }
  rewrite fmap_app. f_equal.
  - pose proof (holds_take_drop vals blk 0 index Htake) as H0.
    rewrite !drop_0 in H0. apply H0. lia.
  - f_equal. apply take_ge. rewrite length_drop. lia.
Qed.

(** X13.  [erase(end())] passes the [assert] of line 680 and is undefined
    behaviour on every well-formed vector: it destroys the slot past the last
    element and then shifts the range that starts one slot after [end()]. *)
Theorem erase_end_undefined (w : world E) (vals : list E) :
  holds w vals ->
  m_size (this E w) < SizeT.modulus ->
  (e ← end_ E; erase E e) w = Undefined.
Proof.
  destruct w as [[mv c sz al] ta h nx bd tr]. unfold holds. norm.
  intros (-> & -> & Hmv) Hmod. unfold end_. mget. mget. mget.
  destruct mv as [|a o].
  - reflexivity.
  - destruct Hmv as (-> & Ha & blk & Hb & Hlen & Htake). norm. rewrite Z.add_0_l.
    unfold erase. mget. rewrite Z.add_0_l.
    mstep ltac:(apply assert_true, ptr_leb_same; lia).
    mstep ltac:(apply index_of_ok; [reflexivity | lia]).
    mget. mget. rewrite !Z.add_0_l.
    unfold mbind at 1, M_bind at 1.
    destruct (destroy_at E (Ptr a (Z.of_nat (length vals))) _) as [[] w1| | |] eqn:Hd;
      try reflexivity.
    + unfold mbind, M_bind, std_copy. cbn [ptr_diff]. rewrite Nat.eqb_refl.
      replace (Z.of_nat (length vals) - (Z.of_nat (length vals) + 1) <? 0) with true
        by (symmetry; apply Z.ltb_lt; lia).
      reflexivity.
    + exfalso. revert Hd. unfold destroy_at, store, log, mbind, M_bind. norm. rewrite Hb.
      destruct (_ && _); discriminate.
    + exfalso. revert Hd. unfold destroy_at, store, log, mbind, M_bind. norm. rewrite Hb.
      destruct (_ && _); discriminate.
Qed.

(** ** A reallocation that fails *)

Lemma construct_at_spend th ta h nx tr a (i : nat) blk c v (k : nat) :
  h !! a = Some blk -> (i < length blk)%nat ->
  construct_at E (Ptr a (Z.of_nat i)) c v (World E th ta h nx (Some (S k)) tr)
  = Ret () (World E th ta (<[a := <[i := Some v]> blk]> h) nx
              (if may_throw E c then Some k else Some (S k))
              (tr ++ [Constructed a (Z.of_nat i)])).
Proof.
  intros Hb Hi. unfold construct_at, tick.
  destruct (may_throw E c).
  - erewrite bind_ret by reflexivity.
    erewrite bind_ret by (apply store_ok; [exact Hb | exact Hi]). reflexivity.
  - erewrite bind_ret by reflexivity.
    erewrite bind_ret by (apply store_ok; [exact Hb | exact Hi]). reflexivity.
Qed.

Lemma construct_at_fail th ta h nx tr p c v :
  may_throw E c = true ->
  construct_at E p c v (World E th ta h nx (Some 0%nat) tr)
  = Throw ElementFailure (World E th ta h nx None tr).
Proof. intros Hc. unfold construct_at, tick. now rewrite Hc. Qed.

(** The handler of lines 214-220 on the new block [t]. *)
Lemma rollback_ok th ta h nx bd tr t tb (made : nat) cap :
  h !! t = Some tb -> (made <= length tb)%nat ->
  (for_loop E 0 (Z.of_nat made) (fun index => destroy_at E (ptr_add (Ptr t 0) index)) ;;
   dealloc E (Ptr t 0) cap) (World E th ta h nx bd tr)
  = Ret () (World E th ta (delete t h) nx bd
              (tr ++ (Destroyed t <$> seqZ 0 (Z.of_nat made)) ++ [Released t])).
Proof.
  intros Hb Hm. unfold for_loop. rewrite Z.sub_0_r, Nat2Z.id.
  erewrite bind_ret.
  2:{ apply destroy_range_ok with (i := 0%nat) (blk := tb); [reflexivity | exact Hb | lia]. }
  erewrite dealloc_ok by apply lookup_insert_eq.
  now rewrite delete_insert_eq, <- app_assoc.
Qed.

(** The copy loop of lines 207-220 when the copy of element [i + k] throws:
    the [i + k] copies made so far are destroyed and the new block released. *)
Lemma counted_transfer_fails (body handler : Z -> M E ()) th ta nx a t :
  may_throw E Lvalue = true ->
  (forall (j : nat) h tr bd,
     body (Z.of_nat j) (World E th ta h nx bd tr)
     = (v ← read E (Ptr a (Z.of_nat j));
        construct_at E (Ptr t (Z.of_nat j)) Lvalue v) (World E th ta h nx bd tr)) ->
  (forall (made : nat) h tr tb,
     h !! t = Some tb -> (made <= length tb)%nat ->
     handler (Z.of_nat made) (World E th ta h nx None tr)
     = Ret () (World E th ta (delete t h) nx None
                 (tr ++ (Destroyed t <$> seqZ 0 (Z.of_nat made)) ++ [Released t]))) ->
  a <> t ->
  forall (k n i : nat) h tr blk tb,
  h !! a = Some blk -> h !! t = Some tb ->
  (k < n)%nat -> (i + n <= length blk)%nat -> (i + n <= length tb)%nat ->
  counted_range E n (Z.of_nat i) (Z.of_nat i) body handler
    (World E th ta h nx (Some k) tr)
  = Throw ElementFailure
      (World E th ta (delete t h) nx None
         (tr ++ (Constructed t <$> seqZ (Z.of_nat i) (Z.of_nat k))
             ++ (Destroyed t <$> seqZ 0 (Z.of_nat (i + k))) ++ [Released t])).
Proof.
  intros _ Hbody Hhandler Hne.
  induction k as [|k IH]; intros n i h tr blk tb Hb Ht Hk Hlb Hlt;
    (destruct n as [|n]; [lia|]); cbn [counted_range].
  - destruct (blk !! i) as [s|] eqn:Hs.
    2:{ apply lookup_ge_None in Hs. lia. }
    apply bind_throw. eapply on_throw_throw.
    + rewrite Hbody. erewrite bind_ret by (eapply read_ok; eassumption).
      now apply construct_at_fail.
    + rewrite Hhandler with (tb := tb) by (done || lia).
      rewrite Nat.add_0_r. reflexivity.
  - destruct (blk !! i) as [s|] eqn:Hs.
    2:{ apply lookup_ge_None in Hs. lia. }
    erewrite bind_ret.
    2:{ apply on_throw_ret. rewrite Hbody.
        erewrite bind_ret by (eapply read_ok; eassumption).
        apply construct_at_spend; [exact Ht | lia]. }
    cbn [may_throw].
    replace (Z.of_nat i + 1) with (Z.of_nat (S i)) by lia.
    erewrite IH with (blk := blk);
      [|now rewrite lookup_insert_ne|apply lookup_insert_eq|lia|lia|rewrite length_insert; lia].
    rewrite delete_insert_eq. do 2 f_equal.
    rewrite <- app_assoc. f_equal.
    rewrite (seqZ_cons (Z.of_nat i)) by lia. cbn [fmap list_fmap app].
    f_equal. replace (Z.succ (Z.of_nat i)) with (Z.of_nat (S i)) by lia.
    replace (Z.pred (Z.of_nat (S k))) with (Z.of_nat k) by lia.
    now replace (S i + k)%nat with (i + S k)%nat by lia.
Qed.

(** X6.  Strong guarantee of [reserve].  For an element type that is copied
    on reallocation, when the copy of element [k] fails during a growing
    [reserve(n)], the [k] copies already made are destroyed, the new block is
    released and the exception propagates; the fields of the vector, its
    elements and every block of the store are as before the call. *)
Theorem reserve_strong_guarantee (w : world E) (vals : list E) (n : Z) (k : nat) :
  holds w vals ->
  fresh_next w ->
  moves_elements E = false ->
  (k < length vals)%nat ->
  m_capacity (this E w) < n <= SizeT.ptrdiff_max ->
  exists w',
    (fail_after k ;; reserve E n) w = Throw ElementFailure w'
    /\ this E w' = this E w
    /\ that E w' = that E w
    /\ blocks E w' = blocks E w
    /\ contents E w' (this E w') = Some vals
    /\ trace E w'
       = trace E w ++ [Allocated (next_block E w) n]
           ++ (Constructed (next_block E w) <$> seqZ 0 (Z.of_nat k))
           ++ (Destroyed (next_block E w) <$> seqZ 0 (Z.of_nat k))
           ++ [Released (next_block E w)].
Proof.
  intros Hw Hfresh Hmoves Hk [Hcap Hn].
  pose proof (holds_contents _ _ Hw) as Hcontents.
  destruct w as [[mv c sz al] ta h nx bd tr]. unfold holds in Hw. norm_in Hw. norm_in Hcap.
  unfold fresh_next in Hfresh. norm_in Hfresh. norm.
  destruct Hw as (-> & -> & Hmv).
  destruct mv as [|a o]; [destruct Hmv as [_ ->]; cbn in Hk; lia|].
  destruct Hmv as (-> & Ha & blk & Hb & Hlen & Htake).
  pose proof (holds_length _ _ Htake) as Hvl.
  assert (Hnx : h !! nx = None) by (apply Hfresh; lia).
  unfold fail_after. mget.
  unfold reserve, max_size.
  replace (SizeT.ptrdiff_max <? n) with false by (symmetry; apply Z.ltb_ge; lia).
  mget. replace (c <? n) with true by (symmetry; apply Z.ltb_lt; lia).
  unfold reallocate_strong_guarantee. rewrite Hmoves.
  rewrite <- (Z2Nat.id n) by lia.
  mstep ltac:(apply alloc_ok; lia). mget.
  eexists. split.
  { apply bind_throw. unfold try_counted. rewrite Nat2Z.id.
    apply counted_transfer_fails with (a := a) (t := nx) (i := 0%nat) (blk := blk)
      (tb := replicate (Z.to_nat n) None).
    - reflexivity.
    - reflexivity.
    - intros made h' tr' tb Ht Hm. now apply rollback_ok with (tb := tb).
    - lia.
    - rewrite lookup_insert_ne by lia. exact Hb.
    - apply lookup_insert_eq.
    - exact Hk.
    - lia.
    - rewrite length_replicate. lia. }
  norm. split; [reflexivity|]. split; [reflexivity|].
  assert (Hblocks : delete nx (<[nx := replicate (Z.to_nat n) None]> h) = h).
  { rewrite delete_insert_eq. now apply delete_id. }
  split; [exact Hblocks|].
  split.
  { unfold contents, slots_of in *. norm_in Hcontents. norm. now rewrite Hblocks. }
  rewrite <- !app_assoc. reflexivity.
Qed.

(** ** Resizing *)

Lemma holds_block_snoc (vals : list E) (blk : list (option E)) v :
  take (length vals) blk = Some <$> vals ->
  (length vals < length blk)%nat ->
  take (length (vals ++ [v])) (<[length vals := Some v]> blk) = Some <$> (vals ++ [v]).
Proof.
  intros Htake Hl. rewrite length_app. cbn [length].
  replace (length vals + 1)%nat with (S (length vals)) by lia.
  rewrite (take_S_r _ _ (Some v)) by (apply list_lookup_insert_eq; lia).
  rewrite take_insert_ge by lia. rewrite Htake. now rewrite fmap_app.
Qed.

(** [insert_end_strong_guarantee(value)] into a free slot. *)
Lemma insert_end_strong_guarantee_ok (w : world E) (vals : list E) v :
  holds w vals ->
  Z.of_nat (length vals) < m_capacity (this E w) ->
  m_capacity (this E w) < SizeT.modulus ->
  exists w',
    insert_end_strong_guarantee E (Outside v) w = Ret () w'
    /\ holds w' (vals ++ [v])
    /\ m_capacity (this E w') = m_capacity (this E w)
    /\ m_vector (this E w') = m_vector (this E w)
    /\ that E w' = that E w.
Proof.
  destruct w as [[mv c sz al] ta h nx bd tr]. unfold holds. norm.
  intros (-> & -> & Hmv) Hroom Hmod.
  destruct mv as [|a o]; [destruct Hmv as [-> _]; cbn in Hroom; lia|].
  destruct Hmv as (-> & Ha & blk & Hb & Hlen & Htake).
  unfold insert_end_strong_guarantee. mget. mget. rewrite Z.add_0_l.
  mstep ltac:(apply on_throw_ret, construct_at_ok; [exact Hb | lia]).
  unfold set_m_size, with_this, SizeT.add. norm. rewrite wrap_small by lia.
  eexists. split; [reflexivity|]. norm.
  split; [|repeat split].
  split; [reflexivity|]. split; [rewrite length_app; cbn [length]; lia|].
  split; [reflexivity|]. split; [exact Ha|].
  eexists. split; [apply lookup_insert_eq|].
  split; [now rewrite length_insert|].
  apply holds_block_snoc; [exact Htake | lia].
Qed.

Lemma insert_end_loop (v : E) (k : nat) :
  forall (w : world E) (vals : list E) index,
  holds w vals ->
  Z.of_nat (length vals + k) <= m_capacity (this E w) ->
  m_capacity (this E w) < SizeT.modulus ->
  exists w',
    for_range E k index (fun _ => insert_end_strong_guarantee E (Outside v)) w = Ret () w'
    /\ holds w' (vals ++ replicate k v)
    /\ m_capacity (this E w') = m_capacity (this E w)
    /\ m_vector (this E w') = m_vector (this E w)
    /\ that E w' = that E w.
Proof.
  induction k as [|k IH]; intros w vals index Hw Hroom Hmod.
  - exists w. cbn [replicate]. rewrite app_nil_r.
    split; [reflexivity|]. split; [exact Hw|]. now repeat split.
  - destruct (insert_end_strong_guarantee_ok w vals v Hw) as (w1 & Hrun1 & Hw1 & Hc1 & Hv1 & Ht1);
      [lia | lia |].
    destruct (IH w1 (vals ++ [v]) (index + 1) Hw1) as (w' & Hrun & Hw' & Hc & Hv & Ht).
    { rewrite Hc1, length_app. cbn [length]. lia. }
    { now rewrite Hc1. }
    exists w'. cbn [for_range]. erewrite bind_ret by exact Hrun1.
    split; [exact Hrun|]. cbn [replicate].
    rewrite <- app_assoc in Hw'. split; [exact Hw'|].
    repeat split; congruence.
Qed.

Lemma pop_back_loop (k : nat) :
  forall (w : world E) (vals : list E) index,
  holds w vals ->
  (k <= length vals)%nat ->
  m_size (this E w) < SizeT.modulus ->
  exists w',
    for_range E k index (fun _ => pop_back E) w = Ret () w'
    /\ holds w' (take (length vals - k) vals)
    /\ m_capacity (this E w') = m_capacity (this E w)
    /\ m_vector (this E w') = m_vector (this E w).
Proof.
  induction k as [|k IH]; intros w vals index Hw Hk Hmod.
  - exists w. rewrite Nat.sub_0_r, firstn_all.
    split; [reflexivity|]. split; [exact Hw|]. now repeat split.
  - destruct vals as [|x0 vals0] eqn:Hv; [cbn in Hk; lia|]. rewrite <- Hv in *.
    assert (Hsplit : vals = removelast vals ++ [List.last vals x0])
      by (apply app_removelast_last; now rewrite Hv).
    assert (Hrl : length (removelast vals) = (length vals - 1)%nat)
      by (rewrite removelast_firstn_len, length_take; lia).
    rewrite Hsplit in Hw.
    destruct (pop_back_ok w _ _ Hw Hmod) as (w1 & Hrun1 & Hw1 & Hc1 & Hv1).
    destruct (IH w1 _ (index + 1) Hw1) as (w' & Hrun & Hw' & Hc & Hv').
    { lia. }
    { destruct Hw1 as (_ & -> & _). unfold SizeT.modulus in *.
      destruct Hw as (_ & Hs & _). rewrite length_app in Hs. lia. }
    exists w'. cbn [for_range]. erewrite bind_ret by exact Hrun1.
    split; [exact Hrun|]. split; [|split; congruence].
    rewrite Hrl in Hw'. rewrite removelast_firstn_len, take_take in Hw'.
    now replace ((length vals - 1 - k) `min` Init.Nat.pred (length vals))%nat
      with (length vals - S k)%nat in Hw' by lia.
Qed.

(** X8.  [resize(count, value)] on a well-formed vector, when [value] refers
    to an object that is no element of the vector (the source reads the
    reference after the reallocation has released the old block): the first
    [count] elements are left when [count < size()], and otherwise the
    elements followed by [count - size()] copies of [value]; the capacity
    becomes [count] when it was smaller and is unchanged otherwise.  No
    element construction is assumed to fail. *)
Theorem resize_spec (w : world E) (vals : list E) (count : nat) (v : E) :
  holds w vals ->
  m_capacity (this E w) <= SizeT.ptrdiff_max ->
  Z.of_nat count <= SizeT.ptrdiff_max ->
  exists w',
    resize E (Z.of_nat count) (Outside v) w = Ret () w'
    /\ holds w' (take count vals ++ replicate (count - length vals) v)
    /\ m_capacity (this E w') = Z.max (m_capacity (this E w)) (Z.of_nat count).
Proof.
  intros Hw Hcap Hcount.
  assert (Hpm : SizeT.ptrdiff_max < SizeT.modulus) by reflexivity.
  destruct (holds_size_capacity w vals Hw) as [Hsz Hsc].
  unfold resize. mget. rewrite Hsz.
  destruct (Z.of_nat count <? Z.of_nat (length vals)) eqn:Hlt.
  - apply Z.ltb_lt in Hlt. unfold for_loop.
    destruct (pop_back_loop (Z.to_nat (Z.of_nat (length vals) - Z.of_nat count)) w vals
                (Z.of_nat count) Hw) as (w' & Hrun & Hw' & Hc & _); [lia | lia |].
    exists w'. split; [exact Hrun|].
    replace (count - length vals)%nat with 0%nat by lia. cbn [replicate]. rewrite app_nil_r.
    replace (length vals - Z.to_nat (Z.of_nat (length vals) - Z.of_nat count))%nat
      with count in Hw' by lia.
    split; [exact Hw'|]. lia.
  - apply Z.ltb_ge in Hlt. mget.
    rewrite take_ge by lia.
    assert (Hgrow : exists w1,
      (if m_capacity (this E w) <? Z.of_nat count
       then reallocate_strong_guarantee E (Z.of_nat count) else mret ()) w = Ret () w1
      /\ holds w1 vals
      /\ m_capacity (this E w1) = Z.max (m_capacity (this E w)) (Z.of_nat count)).
    { destruct (m_capacity (this E w) <? Z.of_nat count) eqn:Hc.
      - apply Z.ltb_lt in Hc.
        destruct (reallocate_holds w vals count Hw) as (w1 & Hrun & Hw1 & Hc1 & _);
          [lia | lia |].
        exists w1. split; [exact Hrun|]. split; [exact Hw1 | lia].
      - apply Z.ltb_ge in Hc. exists w. split; [reflexivity|]. split; [exact Hw | lia]. }
    destruct Hgrow as (w1 & Hrun1 & Hw1 & Hc1).
    erewrite bind_ret by exact Hrun1. unfold for_loop.
    destruct (insert_end_loop v (Z.to_nat (Z.of_nat count - Z.of_nat (length vals))) w1 vals
                (Z.of_nat (length vals)) Hw1) as (w' & Hrun & Hw' & Hc & _); [lia | lia |].
    exists w'. split; [exact Hrun|].
    replace (Z.to_nat (Z.of_nat count - Z.of_nat (length vals)))
      with (count - length vals)%nat in Hw' by lia.
    split; [exact Hw'|]. lia.
Qed.

(** ** [assign] and the filling constructor *)

(** [construct(n, value)] on a vector with no live element. *)
Lemma construct_holds (w : world E) (n : nat) v :
  holds w [] ->
  Z.of_nat n <= m_capacity (this E w) ->
  exists w',
    construct E (Z.of_nat n) (Outside v) w = Ret () w'
    /\ holds w' (replicate n v)
    /\ m_capacity (this E w') = m_capacity (this E w)
    /\ m_vector (this E w') = m_vector (this E w)
    /\ that E w' = that E w
    /\ next_block E w' = next_block E w.
Proof.
  destruct w as [[mv c sz al] ta h nx bd tr]. unfold holds. norm.
  intros (-> & -> & Hmv) Hn.
  destruct mv as [|a o].
  - destruct Hmv as [-> _]. assert (n = 0%nat) as -> by lia.
    eexists. split; [reflexivity|]. unfold with_this. norm. now repeat split.
  - destruct Hmv as (-> & Ha & blk & Hb & Hlen & _).
    erewrite construct_ok; [|exact Hb | lia].
    eexists. split; [reflexivity|]. norm. rewrite length_replicate.
    split; [|repeat split].
    split; [reflexivity|]. split; [reflexivity|].
    split; [reflexivity|]. split; [exact Ha|].
    eexists. split; [apply lookup_insert_eq|].
    split.
    { rewrite length_app, length_replicate, length_drop. lia. }
    rewrite take_app_length' by now rewrite length_replicate.
    now rewrite fmap_replicate.
Qed.

(** [construct_init_list(values)] on a vector with no live element. *)
Lemma construct_init_list_holds (w : world E) (values : list E) :
  holds w [] ->
  Z.of_nat (length values) <= m_capacity (this E w) ->
  exists w',
    construct_init_list E values w = Ret () w'
    /\ holds w' values
    /\ m_capacity (this E w') = m_capacity (this E w)
    /\ m_vector (this E w') = m_vector (this E w)
    /\ that E w' = that E w.
Proof.
  destruct w as [[mv c sz al] ta h nx bd tr]. unfold holds. norm.
  intros (-> & -> & Hmv) Hn.
  destruct mv as [|a o].
  - destruct Hmv as [-> _]. destruct values as [|x values]; [|cbn in Hn; lia].
    eexists. split; [reflexivity|]. unfold with_this. norm. now repeat split.
  - destruct Hmv as (-> & Ha & blk & Hb & Hlen & _).
    unfold construct_init_list. mrun.
    erewrite construct_each_ok with (i := 0%nat); [|exact Hb | lia].
    eexists. split; [reflexivity|]. norm.
    split; [|repeat split].
    split; [reflexivity|]. split; [reflexivity|].
    split; [reflexivity|]. split; [exact Ha|].
    eexists. split; [apply lookup_insert_eq|].
    cbn [Nat.add]. rewrite take_0, app_nil_l.
    split.
    { rewrite length_app, length_fmap, length_drop. lia. }
    rewrite take_app_length' by now rewrite length_fmap.
    reflexivity.
Qed.

(** The first half of [assign]: the elements are destroyed, and the block
    is replaced when it is too small for [n] elements. *)
Lemma assign_prepare (w : world E) (vals : list E) (n : nat) :
  holds w vals ->
  Z.of_nat n <= SizeT.ptrdiff_max ->
  exists w1,
    (forall R (k : M E R),
       (sz ← size E; destruct E sz ;;
        cap ← capacity E;
        (if cap <? Z.of_nat n then reallocate E cap (Z.of_nat n) else mret ()) ;;
        k) w = k w1)
    /\ holds w1 []
    /\ m_capacity (this E w1) = Z.max (m_capacity (this E w)) (Z.of_nat n)
    /\ (Z.of_nat n <= m_capacity (this E w) -> m_vector (this E w1) = m_vector (this E w))
    /\ that E w1 = that E w.
Proof.
  destruct w as [[mv c sz al] ta h nx bd tr]. unfold holds. norm.
  intros (-> & -> & Hmv) Hn.
  destruct mv as [|a o].
  - destruct Hmv as [-> ->]. cbn [length]. change (Z.of_nat 0) with 0.
    destruct (0 <? Z.of_nat n) eqn:Hc.
    + eexists. split.
      { intros R k. mget. unfold destruct, for_loop. cbn [Z.sub Z.to_nat for_range].
        mget. mrun. mget. rewrite Hc.
        unfold reallocate, deallocate, allocate. mget.
        mstep ltac:(reflexivity). mrun. mrun. mrun.
        mstep ltac:(apply alloc_ok; lia). mrun. reflexivity. }
      norm. split; [|repeat split; lia].
      split; [reflexivity|]. split; [reflexivity|].
      split; [reflexivity|]. split; [lia|].
      eexists. split; [apply lookup_insert_eq|].
      split; [now rewrite length_replicate | reflexivity].
    + apply Z.ltb_ge in Hc.
      eexists. split.
      { intros R k. mget. unfold destruct, for_loop. cbn [Z.sub Z.to_nat for_range].
        mget. mrun. mget.
        replace (0 <? Z.of_nat n) with false by (symmetry; apply Z.ltb_ge; lia).
        mget. reflexivity. }
      norm. split; [|repeat split; lia].
      now repeat split.
  - destruct Hmv as (-> & Ha & blk & Hb & Hlen & Htake).
    pose proof (holds_length _ _ Htake) as Hvl.
    destruct (c <? Z.of_nat n) eqn:Hc.
    + apply Z.ltb_lt in Hc.
      eexists. split.
      { intros R k. mget. unfold destruct, for_loop. rewrite Z.sub_0_r, Nat2Z.id.
        mstep ltac:(apply destroy_own_range_ok with (i := 0%nat) (blk := blk);
                    [exact Hb | lia]).
        mrun. mget.
        replace (c <? Z.of_nat n) with true by (symmetry; apply Z.ltb_lt; lia).
        unfold reallocate, deallocate, allocate. mget.
        mstep ltac:(eapply dealloc_ok, lookup_insert_eq). mrun. mrun. mrun.
        mstep ltac:(apply alloc_ok; lia). mrun. reflexivity. }
      norm. split; [|repeat split; lia].
      split; [reflexivity|]. split; [reflexivity|].
      split; [reflexivity|]. split; [lia|].
      eexists. split; [apply lookup_insert_eq|].
      split; [now rewrite length_replicate | reflexivity].
    + apply Z.ltb_ge in Hc.
      eexists. split.
      { intros R k. mget. unfold destruct, for_loop. rewrite Z.sub_0_r, Nat2Z.id.
        mstep ltac:(apply destroy_own_range_ok with (i := 0%nat) (blk := blk);
                    [exact Hb | lia]).
        mrun. mget.
        replace (c <? Z.of_nat n) with false by (symmetry; apply Z.ltb_ge; lia).
        mget. reflexivity. }
      norm. split; [|repeat split; lia].
      split; [reflexivity|]. split; [reflexivity|].
      split; [reflexivity|]. split; [exact Ha|].
      eexists. split; [apply lookup_insert_eq|].
      split; [|reflexivity].
      cbn [Nat.add]. rewrite take_0, app_nil_l, length_app, length_replicate, length_drop. lia.
Qed.

(** X14.  [assign(n, value)] on a well-formed vector, when [value] refers
    to an object that is no element of the vector (the source reads the
    reference after it has destroyed the elements and released the old
    block): exactly [n] copies of [value] are left; the block is kept when
    [n <= capacity()], and replaced by one of exactly [n] slots otherwise.
    No element construction is assumed to fail. *)
Theorem assign_n_spec (w : world E) (vals : list E) (n : nat) (v : E) :
  holds w vals ->
  Z.of_nat n <= SizeT.ptrdiff_max ->
  exists w',
    assign_n E (Z.of_nat n) (Outside v) w = Ret () w'
    /\ holds w' (replicate n v)
    /\ m_capacity (this E w') = Z.max (m_capacity (this E w)) (Z.of_nat n)
    /\ (Z.of_nat n <= m_capacity (this E w) -> m_vector (this E w') = m_vector (this E w))
    /\ that E w' = that E w.
Proof.
  intros Hw Hn.
  destruct (assign_prepare w vals n Hw Hn) as (w1 & Hrun1 & Hw1 & Hc1 & Hv1 & Ht1).
  destruct (construct_holds w1 n v Hw1) as (w' & Hrun & Hw' & Hc & Hv & Ht & _); [lia|].
  exists w'. split.
  - unfold assign_n. rewrite Hrun1. exact Hrun.
  - split; [exact Hw'|]. split; [congruence|]. split; [|congruence].
    intros Hfit. rewrite Hv. now apply Hv1.
Qed.

(** X15.  [assign(values)] on a well-formed vector leaves exactly the
    values of the list, in order; the block is kept when the list fits the
    capacity, and replaced by one of exactly as many slots as the list has
    values otherwise. *)
Theorem assign_list_spec (w : world E) (vals values : list E) :
  holds w vals ->
  Z.of_nat (length values) <= SizeT.ptrdiff_max ->
  exists w',
    assign_list E values w = Ret () w'
    /\ holds w' values
    /\ m_capacity (this E w')
       = Z.max (m_capacity (this E w)) (Z.of_nat (length values))
    /\ (Z.of_nat (length values) <= m_capacity (this E w) ->
        m_vector (this E w') = m_vector (this E w))
    /\ that E w' = that E w.
Proof.
  intros Hw Hn.
  destruct (assign_prepare w vals (length values) Hw Hn)
    as (w1 & Hrun1 & Hw1 & Hc1 & Hv1 & Ht1).
  destruct (construct_init_list_holds w1 values Hw1) as (w' & Hrun & Hw' & Hc & Hv & Ht);
    [lia|].
  exists w'. split.
  - unfold assign_list. rewrite Hrun1. exact Hrun.
  - split; [exact Hw'|]. split; [congruence|]. split; [|congruence].
    intros Hfit. rewrite Hv. now apply Hv1.
Qed.

(** X16.  [vector(length, value)] allocates one block of exactly [length]
    slots and fills it with copies of [value]: capacity and size are both
    [length]. *)
Theorem vector_fill_spec (w : world E) (n : nat) (v : E) :
  budget E w = None ->
  Z.of_nat n <= SizeT.ptrdiff_max ->
  exists w',
    vector_fill E (Z.of_nat n) v w = Ret () w'
    /\ holds w' (replicate n v)
    /\ m_capacity (this E w') = Z.of_nat n
    /\ m_vector (this E w') = Ptr (next_block E w) 0
    /\ that E w' = that E w.
Proof.
  destruct w as [[mv c sz al] ta h nx bd tr]. norm. intros -> Hn.
  unfold vector_fill, allocate_and_copy_construct, allocate.
  mrun. mstep ltac:(apply alloc_ok; exact Hn). mrun.
  erewrite construct_ok; [|apply lookup_insert_eq | rewrite length_replicate; lia].
  eexists. split; [reflexivity|]. unfold holds. norm. rewrite length_replicate.
  split; [|repeat split].
  split; [reflexivity|]. split; [reflexivity|].
  split; [reflexivity|]. split; [lia|].
  eexists. split; [apply lookup_insert_eq|].
  split.
  { rewrite length_app, length_replicate, length_drop, length_replicate. lia. }
  rewrite take_app_length' by now rewrite length_replicate.
  now rewrite fmap_replicate.
Qed.

(** X17.  When the memory provider refuses the block that [assign(n, value)]
    asks for, whatever [value] refers to (it is not read on this path), the
    old block has already been released: [std::bad_alloc]
    propagates from a vector whose base address still points to the released
    block, with capacity [n] and size 0, and destroying that vector is
    undefined behaviour (its block would be released a second time). *)
Theorem assign_n_bad_alloc (w : world E) (vals : list E) (a : nat) (n : Z) (v : reference E) :
  holds w vals ->
  m_vector (this E w) = Ptr a 0 ->
  m_capacity (this E w) < n ->
  SizeT.ptrdiff_max < n ->
  exists w',
    assign_n E n v w = Throw BadAlloc w'
    /\ m_vector (this E w') = Ptr a 0
    /\ blocks E w' !! a = None
    /\ m_capacity (this E w') = n
    /\ m_size (this E w') = 0
    /\ vector_destroy E w' = Undefined.
Proof.
  destruct w as [[mv c sz al] ta h nx bd tr]. unfold holds. norm.
  intros (-> & -> & Hmv) -> Hc Hn.
  destruct Hmv as (_ & Ha & blk & Hb & Hlen & Htake).
  pose proof (holds_length _ _ Htake) as Hvl.
  unfold assign_n. mget. unfold destruct, for_loop. rewrite Z.sub_0_r, Nat2Z.id.
  mstep ltac:(apply destroy_own_range_ok with (i := 0%nat) (blk := blk); [exact Hb | lia]).
  mrun. mget.
  replace (c <? n) with true by (symmetry; apply Z.ltb_lt; lia).
  unfold reallocate, deallocate, allocate. mget.
  mstep ltac:(eapply dealloc_ok, lookup_insert_eq). mrun. mrun. mrun.
  eexists. split.
  { apply bind_throw. apply bind_throw. unfold alloc. norm.
    now replace (SizeT.ptrdiff_max <? n) with true by (symmetry; apply Z.ltb_lt; lia). }
  norm. split; [reflexivity|].
  split; [rewrite delete_insert_eq; apply lookup_delete_eq|].
  split; [reflexivity|]. split; [reflexivity|].
  unfold vector_destroy. mget. mget.
  unfold deallocate_and_destruct, noexcept, destruct, for_loop.
  cbn [Z.sub Z.to_nat for_range]. mget. mrun.
  unfold deallocate. mget.
  unfold mbind, M_bind, dealloc. norm.
  now rewrite delete_insert_eq, lookup_delete_eq.
Qed.

(** ** Shifting elements towards the end of a block *)

Lemma take_drop_insert_ge (l : list (option E)) (lo n j : nat) y :
  (lo + n <= j)%nat ->
  take n (drop lo (<[j := y]> l)) = take n (drop lo l).
Proof.
  intros Hj. rewrite !take_drop_commute. now rewrite take_insert_ge by lia.
Qed.

(** One step of a backward copy, on the block: the slot [lo + n] is copied
    [g] slots up. *)
Lemma backward_step (cur : list (option E)) (lo n g : nat) x :
  cur !! (lo + n)%nat = Some x ->
  (lo + n + g < length cur)%nat ->
  let cur' := <[(lo + n + g)%nat := Some (default (indeterminate E) x)]> cur in
  take (lo + g) cur'
    ++ ((fun s => Some (default (indeterminate E) s)) <$> take n (drop lo cur'))
    ++ drop (lo + n + g) cur'
  = take (lo + g) cur
    ++ ((fun s => Some (default (indeterminate E) s)) <$> take (S n) (drop lo cur))
    ++ drop (lo + S n + g) cur.
Proof.
  intros Hx Hlen cur'. unfold cur'.
  rewrite take_insert_ge by lia.
  rewrite take_drop_insert_ge by lia.
  rewrite (drop_S (<[_ := _]> cur) (Some (default (indeterminate E) x)) (lo + n + g))
    by (apply list_lookup_insert_eq; lia).
  rewrite drop_insert_lt by lia.
  rewrite (take_S_r (drop lo cur) n x) by now rewrite lookup_drop.
  rewrite fmap_app, <- !app_assoc. cbn [fmap list_fmap app].
  now replace (S (lo + n + g)) with (lo + S n + g)%nat by lia.
Qed.

(** The loop of [std::copy_backward] or [std::move_backward] within one
    block, [g] slots towards higher addresses: the steps [k0 + 1] to
    [k0 + n] of a copy of the range that ends at slot [s]. *)
Lemma copy_backward_range_ok (body : Z -> M E ()) th ta nx a c (s g : nat) :
  (forall (k : nat) h tr,
     (1 <= k <= s)%nat ->
     body (Z.of_nat k) (World E th ta h nx None tr)
     = (v ← read E (Ptr a (Z.of_nat (s - k)));
        assign_at E (Ptr a (Z.of_nat (s + g - k))) c v) (World E th ta h nx None tr)) ->
  forall (n k0 : nat) h tr cur,
  h !! a = Some cur -> (k0 + n <= s)%nat -> (s + g <= length cur)%nat ->
  for_range E n (Z.of_nat (S k0)) body (World E th ta h nx None tr)
  = Ret () (World E th ta
              (<[a := take (s - k0 - n + g) cur
                      ++ ((fun x => Some (default (indeterminate E) x))
                            <$> take n (drop (s - k0 - n) cur))
                      ++ drop (s - k0 + g) cur]> h) nx None tr).
Proof.
  intros Hbody. induction n as [|n IH]; intros k0 h tr cur Hb Hk Hlen.
  - cbn [for_range].
    replace (s - k0 - 0)%nat with (s - k0)%nat by lia.
    rewrite take_0, fmap_nil, app_nil_l, take_drop, insert_id by done. reflexivity.
  - cbn [for_range].
    destruct (cur !! (s - S k0)%nat) as [x|] eqn:Hx.
    2:{ apply lookup_ge_None in Hx. lia. }
    erewrite bind_ret.
    2:{ rewrite Hbody by lia.
        erewrite bind_ret by (eapply read_ok; eassumption).
        apply assign_at_ok; [exact Hb | lia]. }
    replace (Z.of_nat (S k0) + 1) with (Z.of_nat (S (S k0))) by lia.
    erewrite IH; [|apply lookup_insert_eq | lia | rewrite length_insert; lia].
    rewrite insert_insert_eq. do 3 f_equal.
    pose proof (backward_step cur (s - S k0 - n) n g x) as Hstep. cbv zeta in Hstep.
    replace (s - S k0 - n + n)%nat with (s - S k0)%nat in Hstep by lia.
    replace (s - S k0 - n + S n + g)%nat with (s - k0 + g)%nat in Hstep by lia.
    replace (s - S k0 + g)%nat with (s + g - S k0)%nat in Hstep by lia.
    replace (s - k0 - S n)%nat with (s - S k0 - n)%nat by lia.
    replace (s - S k0 + g)%nat with (s + g - S k0)%nat by lia.
    apply Hstep; [exact Hx | lia].
Qed.

(** [std::copy_backward(first, last, d_last)] within one block. *)
Lemma std_copy_backward_ok th ta h nx tr a c (i s g : nat) cur :
  h !! a = Some cur -> (i <= s)%nat -> (s + g <= length cur)%nat ->
  std_copy_backward E c (Ptr a (Z.of_nat i)) (Ptr a (Z.of_nat s)) (Ptr a (Z.of_nat (s + g)))
    (World E th ta h nx None tr)
  = Ret () (World E th ta
              (<[a := take (i + g) cur
                      ++ ((fun x => Some (default (indeterminate E) x))
                            <$> take (s - i) (drop i cur))
                      ++ drop (s + g) cur]> h) nx None tr).
Proof.
  intros Hb Hi Hlen. unfold std_copy_backward. cbn [ptr_diff]. rewrite Nat.eqb_refl.
  replace (Z.of_nat s - Z.of_nat i <? 0) with false by (symmetry; apply Z.ltb_ge; lia).
  replace (Z.to_nat (Z.of_nat s - Z.of_nat i)) with (s - i)%nat by lia.
  change 1 with (Z.of_nat 1).
  erewrite copy_backward_range_ok with (s := s) (g := g) (k0 := 0%nat) (c := c);
    [|intros k h' tr' Hk|exact Hb|lia|lia].
  - replace (s - 0 - (s - i))%nat with i by lia.
    now replace (s - 0 + g)%nat with (s + g)%nat by lia.
  - cbn [ptr_add].
    replace (Z.of_nat s + - Z.of_nat k) with (Z.of_nat (s - k)) by lia.
    now replace (Z.of_nat (s + g) + - Z.of_nat k) with (Z.of_nat (s + g - k)) by lia.
Qed.

(** The loop of lines 250-262, which shifts the elements from [index_pos]
    on by [g] slots, back to front. *)
Lemma shift_backward_ok c al ta nx a (s g : nat) :
  forall (n k0 : nat) h tr cur copies_made1,
  h !! a = Some cur -> (k0 + n <= s)%nat -> (s + g <= length cur)%nat ->
  shift_backward E n (Ptr a (Z.of_nat (s - n))) (Ptr a (Z.of_nat (s - k0 + g)))
    (Ptr a (Z.of_nat (s - k0))) copies_made1
    (World E (Vector (Ptr a 0) c (Z.of_nat s) al) ta h nx None tr)
  = Ret () (World E (Vector (Ptr a 0) c (Z.of_nat s) al) ta
              (<[a := take (s - k0 - n + g) cur
                      ++ ((fun x => Some (default (indeterminate E) x))
                            <$> take n (drop (s - k0 - n) cur))
                      ++ drop (s - k0 + g) cur]> h) nx None tr).
Proof.
  induction n as [|n IH]; intros k0 h tr cur cm Hb Hk Hlen.
  - cbn [shift_backward]. unfold end_. mget. mget. mget.
    rewrite Z.add_0_l, Nat.sub_0_r. cbn [ptr_eqb]. rewrite Nat.eqb_refl, Z.eqb_refl. cbn [andb].
    replace (s - k0 - 0)%nat with (s - k0)%nat by lia.
    rewrite take_0, fmap_nil, app_nil_l, take_drop, insert_id by done. reflexivity.
  - cbn [shift_backward]. unfold end_. mget. mget. mget.
    rewrite Z.add_0_l. cbn [ptr_eqb]. rewrite Nat.eqb_refl. cbn [andb].
    replace (Z.of_nat (s - S n) =? Z.of_nat s) with false by (symmetry; apply Z.eqb_neq; lia).
    destruct (cur !! (s - S k0)%nat) as [x|] eqn:Hx.
    2:{ apply lookup_ge_None in Hx. lia. }
    replace (Z.of_nat (s - k0) + -1) with (Z.of_nat (s - S k0)) by lia.
    replace (Z.of_nat (s - k0 + g) + -1) with (Z.of_nat (s - S k0 + g)) by lia.
    replace (Z.of_nat (s - S n) + 1) with (Z.of_nat (s - n)) by lia.
    erewrite bind_ret.
    2:{ apply on_throw_ret.
        erewrite bind_ret by (eapply read_ok; eassumption).
        apply assign_at_ok; [exact Hb | lia]. }
    erewrite IH; [|apply lookup_insert_eq | lia | rewrite length_insert; lia].
    rewrite insert_insert_eq. do 3 f_equal.
    pose proof (backward_step cur (s - S k0 - n) n g x) as Hstep. cbv zeta in Hstep.
    replace (s - S k0 - n + n)%nat with (s - S k0)%nat in Hstep by lia.
    replace (s - S k0 - n + S n + g)%nat with (s - k0 + g)%nat in Hstep by lia.
    replace (s - k0 - S n)%nat with (s - S k0 - n)%nat by lia.
    apply Hstep; [exact Hx | lia].
Qed.

(** A loop that copy-constructs each of the slots [[off + k0, off + k0 + n)]
    from itself. *)
Lemma self_construct_range_ok (body : Z -> M E ()) th ta nx a (off bound : nat) :
  (forall (k : nat) h tr,
     (k < bound)%nat ->
     body (Z.of_nat k) (World E th ta h nx None tr)
     = (v ← read E (Ptr a (Z.of_nat (off + k)));
        construct_at E (Ptr a (Z.of_nat (off + k))) Lvalue v) (World E th ta h nx None tr)) ->
  forall (n k0 : nat) h tr cur,
  h !! a = Some cur -> (k0 + n <= bound)%nat -> (off + k0 + n <= length cur)%nat ->
  for_range E n (Z.of_nat k0) body (World E th ta h nx None tr)
  = Ret () (World E th ta
              (<[a := take (off + k0) cur
                      ++ ((fun x => Some (default (indeterminate E) x))
                            <$> take n (drop (off + k0) cur))
                      ++ drop (off + k0 + n) cur]> h) nx None
              (tr ++ (Constructed a <$> seqZ (Z.of_nat (off + k0)) (Z.of_nat n)))).
Proof.
  intros Hbody. induction n as [|n IH]; intros k0 h tr cur Hb Hk Hlen.
  - cbn [for_range].
    rewrite Nat.add_0_r, take_0, fmap_nil, app_nil_l, take_drop, insert_id by done.
    now rewrite app_nil_r.
  - cbn [for_range].
    destruct (cur !! (off + k0)%nat) as [x|] eqn:Hx.
    2:{ apply lookup_ge_None in Hx. lia. }
    erewrite bind_ret.
    2:{ rewrite Hbody by lia.
        erewrite bind_ret by (eapply read_ok; eassumption).
        apply construct_at_ok; [exact Hb | lia]. }
    replace (Z.of_nat k0 + 1) with (Z.of_nat (S k0)) by lia.
    erewrite IH; [|apply lookup_insert_eq | lia | rewrite length_insert; lia].
    rewrite insert_insert_eq. f_equal. f_equal.
    + f_equal.
      replace (off + S k0)%nat with (S (off + k0)) by lia.
      rewrite (take_S_r _ _ (Some (default (indeterminate E) x)))
        by (apply list_lookup_insert_eq; lia).
      rewrite take_insert_ge by lia.
      rewrite !drop_insert_lt by lia.
      rewrite (drop_S cur x (off + k0)) by done.
      rewrite <- app_assoc. cbn [take fmap list_fmap app].
      now replace (S (off + k0) + n)%nat with (off + k0 + S n)%nat by lia.
    + rewrite <- app_assoc. f_equal.
      rewrite (seqZ_cons (Z.of_nat (off + k0))) by lia. cbn [fmap list_fmap app].
      do 3 f_equal; lia.
Qed.

(** Replacing [n] slots of a list from slot [i] on. *)
Lemma splice_take {B} (l Y : list B) (i n : nat) :
  (i <= length l)%nat ->
  take i (take i l ++ Y ++ drop (i + n) l) = take i l.
Proof. intros Hi. apply take_app_length'. rewrite length_take. lia. Qed.

Lemma splice_drop {B} (l Y : list B) (i n : nat) :
  (i + n <= length l)%nat -> length Y = n ->
  drop (i + n) (take i l ++ Y ++ drop (i + n) l) = drop (i + n) l.
Proof.
  intros Hi HY. rewrite app_assoc. apply drop_app_length'.
  rewrite length_app, length_take. lia.
Qed.

Lemma splice_length {B} (l Y : list B) (i n : nat) :
  (i + n <= length l)%nat -> length Y = n ->
  length (take i l ++ Y ++ drop (i + n) l) = length l.
Proof.
  intros Hi HY. rewrite !length_app, length_take, length_drop. lia.
Qed.

Lemma splice_take_le {B} (l Y : list B) (i j n : nat) :
  (j <= i <= length l)%nat ->
  take j (take i l ++ Y ++ drop (i + n) l) = take j l.
Proof.
  intros Hi. rewrite take_app_le by (rewrite length_take; lia).
  rewrite take_take. f_equal. lia.
Qed.

(** The block after the elements from slot [i] on have been shifted by [g]
    slots and the slots [[i, i + g)] have been filled with [Z]. *)
Lemma shifted_block (blk X1 Z : list (option E)) (i s g : nat) :
  (i <= s)%nat -> (s + g <= length blk)%nat -> length X1 = g ->
  let cur1 := take s blk ++ X1 ++ drop (s + g) blk in
  let cur2 := take (i + g) cur1
                ++ ((fun x => Some (default (indeterminate E) x))
                      <$> take (s - i) (drop i cur1))
                ++ drop (s + g) cur1 in
  length cur2 = length blk
  /\ take i cur2 ++ Z ++ drop (i + g) cur2
     = take i blk ++ Z
         ++ ((fun x => Some (default (indeterminate E) x)) <$> take (s - i) (drop i blk))
         ++ drop (s + g) blk.
Proof.
  intros Hi Hlen HX cur1 cur2.
  assert (Hl1 : length cur1 = length blk) by (apply splice_length; lia).
  assert (Ht1 : forall j, (j <= s)%nat -> take j cur1 = take j blk)
    by (intros j Hj; apply splice_take_le; lia).
  assert (Hd1 : drop (s + g) cur1 = drop (s + g) blk) by (apply splice_drop; lia).
  assert (Hm1 : take (s - i) (drop i cur1) = take (s - i) (drop i blk)).
  { rewrite !take_drop_commute. replace (i + (s - i))%nat with s by lia.
    now rewrite Ht1. }
  split.
  - unfold cur2. rewrite !length_app, length_fmap, !length_take, !length_drop. lia.
  - unfold cur2. rewrite Hm1, Hd1.
    rewrite take_app_le by (rewrite length_take; lia).
    rewrite take_take. replace (i `min` (i + g))%nat with i by lia.
    rewrite Ht1 by lia. do 2 f_equal.
    apply drop_app_length'. rewrite length_take. lia.
Qed.

(** [shift_and_construct(index_pos, value, count)] with room for [count]
    more elements. *)
Lemma shift_and_construct_ok c al ta h nx tr a blk (i s count : nat) v :
  h !! a = Some blk -> (i <= s)%nat -> (s + count <= length blk)%nat ->
  Z.of_nat (s + count) < SizeT.modulus ->
  exists tr',
    shift_and_construct E (Z.of_nat i) (Outside v) (Z.of_nat count)
      (World E (Vector (Ptr a 0) c (Z.of_nat s) al) ta h nx None tr)
    = Ret () (World E (Vector (Ptr a 0) c (Z.of_nat (s + count)) al) ta
                (<[a := take i blk ++ replicate count (Some v)
                        ++ ((fun x => Some (default (indeterminate E) x))
                              <$> take (s - i) (drop i blk))
                        ++ drop (s + count) blk]> h) nx None tr').
Proof.
  intros Hb Hi Hlen Hmod.
  unfold shift_and_construct. mget. mget. rewrite !Z.add_0_l.
  unfold try_counted, for_loop. rewrite Z.sub_0_r, !Nat2Z.id.
  mstep ltac:(apply counted_range_ret;
    apply self_construct_range_ok with (a := a) (off := s) (bound := count) (k0 := 0%nat)
      (cur := blk);
    [intros k h' tr' Hk; cbn [ptr_add];
     unfold SizeT.add; rewrite wrap_small by lia;
     replace (0 + (Z.of_nat s + Z.of_nat k)) with (Z.of_nat (s + k)) by lia;
     now replace (Z.of_nat s + Z.of_nat k) with (Z.of_nat (s + k)) by lia
    | exact Hb | lia | lia]).
  rewrite Nat.add_0_r.
  replace (Z.to_nat (Z.of_nat s - Z.of_nat i)) with (s - i)%nat by lia.
  set (cur1 := take s blk ++ _ ++ drop (s + count) blk).
  match goal with |- context [World E _ _ _ nx None ?t] => set (tr1 := t) end.
  pose proof (shift_backward_ok c al ta nx a s count (s - i) 0 (<[a := cur1]> h) tr1 cur1 0)
    as Hsb.
  replace (s - 0)%nat with s in Hsb by lia.
  replace (s - (s - i))%nat with i in Hsb by lia.
  rewrite Nat2Z.inj_add in Hsb.
  mstep ltac:(apply Hsb;
    [apply lookup_insert_eq | lia
    | unfold cur1; rewrite !length_app, length_fmap, !length_take, length_drop; lia]).
  clear Hsb. rewrite insert_insert_eq. unfold cur1. clear cur1.
  destruct (shifted_block blk
              ((fun x => Some (default (indeterminate E) x)) <$> take count (drop s blk))
              (replicate count (Some v)) i s count) as [Hl2 Hfinal].
  { lia. } { lia. } { rewrite length_fmap, length_take, length_drop. lia. }
  cbv zeta in Hl2, Hfinal.
  set (cur2 := take (i + count) _ ++ _ ++ drop (s + count) _) in *.
  clearbody tr1.
  mstep ltac:(
    apply slot_range_ok with (a := a) (off := i) (k0 := 0%nat) (cur := cur2)
      (g := fun _ => None) (ev := fun k => Destroyed a (Z.of_nat (i + k)));
    [intros k h' tr' cur' Hc Hk; cbn [ptr_add];
     replace (Z.of_nat i + Z.of_nat k) with (Z.of_nat (i + k)) by lia;
     now apply destroy_at_ok
    | apply lookup_insert_eq | lia]).
  rewrite insert_insert_eq, Nat.add_0_r.
  set (cur3 := take i cur2 ++ _ ++ drop (i + count) cur2).
  assert (Hl3 : length cur3 = length blk).
  { unfold cur3. rewrite splice_length; [exact Hl2 | lia | now rewrite length_fmap, length_seq]. }
  mstep ltac:(apply counted_range_ret;
    apply slot_range_ok with (a := a) (off := i) (k0 := 0%nat) (cur := cur3)
      (g := fun _ => Some v) (ev := fun k => Constructed a (Z.of_nat (i + k)));
    [intros k h' tr' cur' Hc Hk; cbn [ptr_add];
     replace (Z.of_nat i + Z.of_nat k) with (Z.of_nat (i + k)) by lia;
     now apply construct_at_ok
    | apply lookup_insert_eq | lia]).
  rewrite insert_insert_eq, Nat.add_0_r.
  unfold set_m_size, with_this, SizeT.add. norm.
  rewrite wrap_small by lia.
  eexists. do 2 f_equal.
  - f_equal. lia.
  - f_equal. unfold cur3.
    rewrite splice_take by lia.
    rewrite splice_drop by (rewrite ?length_fmap, ?length_seq; lia).
    rewrite <- Hfinal. do 2 f_equal.
    clear. generalize 0%nat. induction count as [|n IH]; intros k0; cbn; [done|].
    now rewrite IH.
Qed.

(** ** Inserting at a position *)

(** [shift_and_construct(index_pos, std::move(value))] and
    [shift_and_construct(index_pos, value)] with room for one more element. *)
Lemma shift_and_construct_arg_ok cat c al ta h nx tr a blk (i s : nat) v :
  h !! a = Some blk -> (i <= s)%nat -> (s + 1 <= length blk)%nat ->
  Z.of_nat (s + 1) < SizeT.modulus ->
  exists tr',
    shift_and_construct_arg E (Z.of_nat i) cat (Outside v)
      (World E (Vector (Ptr a 0) c (Z.of_nat s) al) ta h nx None tr)
    = Ret () (World E (Vector (Ptr a 0) c (Z.of_nat (s + 1)) al) ta
                (<[a := take i blk ++ [Some v]
                        ++ ((fun x => Some (default (indeterminate E) x))
                              <$> take (s - i) (drop i blk))
                        ++ drop (s + 1) blk]> h) nx None tr').
Proof.
  intros Hb Hi Hlen Hmod.
  pose proof (shift_and_construct_ok c al ta h nx tr a blk i s 1 v Hb Hi Hlen Hmod) as Hcopy.
  destruct cat; cbn [shift_and_construct_arg]; [exact Hcopy|].
  unfold shift_and_construct_rvalue.
  destruct (moves_elements E); [|exact Hcopy]. clear Hcopy.
  destruct (blk !! s) as [x|] eqn:Hx.
  2:{ apply lookup_ge_None in Hx. lia. }
  mget. mget. rewrite !Z.add_0_l.
  mstep ltac:(eapply read_ok; eassumption).
  mstep ltac:(apply construct_at_ok; [exact Hb | lia]).
  assert (Hins : <[s := Some (default (indeterminate E) x)]> blk
                 = take s blk ++ [Some (default (indeterminate E) x)] ++ drop (s + 1) blk).
  { rewrite insert_take_drop by lia. now replace (S s) with (s + 1)%nat by lia. }
  destruct (shifted_block blk [Some (default (indeterminate E) x)] [Some v] i s 1)
    as [Hl2 Hfinal]; [lia | lia | reflexivity |].
  cbv zeta in Hl2, Hfinal. rewrite <- Hins in Hl2, Hfinal. clear Hins.
  replace (Z.of_nat s + 1) with (Z.of_nat (s + 1)) by lia.
  mstep ltac:(apply std_copy_backward_ok;
    [apply lookup_insert_eq | lia | rewrite length_insert; lia]).
  rewrite insert_insert_eq.
  set (cur2 := take (i + 1) _ ++ _ ++ drop (s + 1) _) in *.
  mstep ltac:(apply construct_at_ok; [apply lookup_insert_eq | lia]).
  rewrite insert_insert_eq.
  unfold set_m_size, with_this, SizeT.add. norm.
  rewrite wrap_small by lia.
  eexists. do 2 f_equal.
  - f_equal. lia.
  - f_equal. rewrite insert_take_drop by lia.
    replace (S i) with (i + 1)%nat by lia. exact Hfinal.
Qed.

(** The elements of a block after [g] values have been inserted at slot
    [i]. *)
Lemma holds_shifted (vals new : list E) (blk : list (option E)) (i : nat) :
  take (length vals) blk = Some <$> vals ->
  (i <= length vals)%nat ->
  (length vals + length new <= length blk)%nat ->
  let blk' := take i blk ++ (Some <$> new)
                ++ ((fun x => Some (default (indeterminate E) x))
                      <$> take (length vals - i) (drop i blk))
                ++ drop (length vals + length new) blk in
  length blk' = length blk
  /\ take (length (take i vals ++ new ++ drop i vals)) blk'
     = Some <$> (take i vals ++ new ++ drop i vals).
Proof.
  intros Htake Hi Hlen blk'.
  assert (H1 : take i blk = Some <$> take i vals).
  { pose proof (holds_take_drop vals blk 0 i Htake) as H0.
    rewrite !drop_0 in H0. apply H0. lia. }
  assert (H2 : take (length vals - i) (drop i blk) = Some <$> drop i vals).
  { rewrite (holds_take_drop vals blk i (length vals - i) Htake) by lia.
    f_equal. apply take_ge. rewrite length_drop. lia. }
  split.
  - unfold blk'. rewrite !length_app, !length_fmap, !length_take, !length_drop. lia.
  - unfold blk'. rewrite H1, H2, fmap_default_Some.
    rewrite !app_assoc, <- !fmap_app, <- !app_assoc.
    apply take_app_length'. now rewrite length_fmap.
Qed.

(** The growth loop of [emplace] on a vector without room for one more
    element: one doubling. *)
Lemma grow_one mv al ta h nx bd tr (s : nat) c :
  Z.of_nat s <= c <= Z.of_nat s + 1 ->
  Z.of_nat s + 1 <= 2 ^ 61 ->
  grow E (sz ← size E; mret (SizeT.add 1 sz))
    (World E (Vector mv c (Z.of_nat s) al) ta h nx bd tr)
  = Ret () (World E (Vector mv (Z.max c 1 * 2) (Z.of_nat s) al) ta h nx bd tr).
Proof.
  intros Hc Hbound.
  destruct (grow_loop_ok ((sz ← size E; mret (SizeT.add 1 sz)) : M E Z) mv
              (Z.of_nat s) al ta h nx bd tr (Z.of_nat s + 1) 128) with (c := c)
    as (j & Hj & Hrun & Hge & Hmin).
  { intros c'. unfold mbind, M_bind, size, mret, M_ret. norm.
    unfold SizeT.add. rewrite wrap_small by (unfold SizeT.modulus; lia). f_equal; lia. }
  { lia. } { lia. } { lia. }
  { change (2 ^ Z.of_nat 128) with (2 ^ 61 * 2 ^ 67). nia. }
  assert (j = 1) as ->.
  { destruct Hmin as [|Hmin]; [done|].
    destruct (Z.eq_dec j 1) as [|Hj1]; [done|].
    assert (2 <= 2 ^ (j - 1)).
    { change 2 with (2 ^ 1) at 1. apply Z.pow_le_mono_r; lia. }
    nia. }
  rewrite Z.pow_1_r in Hrun. exact Hrun.
Qed.

(** [emplace(pos, value)] before the last element of a well-formed vector. *)
Lemma emplace_interior_ok cat v (w : world E) (vals : list E) (a i : nat) :
  holds w vals ->
  m_vector (this E w) = Ptr a 0 ->
  (i < length vals)%nat ->
  Z.of_nat (length vals) + 1 <= 2 ^ 61 ->
  exists p w',
    emplace E (Ptr a (Z.of_nat i)) cat (Outside v) w = Ret p w'
    /\ p = ptr_add (m_vector (this E w')) (Z.of_nat i)
    /\ holds w' (take i vals ++ [v] ++ drop i vals)
    /\ m_capacity (this E w')
       = next_capacity (m_capacity (this E w)) (m_size (this E w))
    /\ that E w' = that E w.
Proof.
  destruct w as [[mv c sz al] ta h nx bd tr]. unfold holds. norm.
  intros (-> & -> & Hmv) -> Hi Hbound.
  destruct Hmv as (_ & Ha & blk & Hb & Hlen & Htake).
  pose proof (holds_length _ _ Htake) as Hvl.
  assert (Hmodulus : SizeT.modulus = 2 ^ 64) by reflexivity.
  assert (Hpmax : SizeT.ptrdiff_max = 2 ^ 63 - 1) by reflexivity.
  assert (Hnew : length (take i vals ++ [v] ++ drop i vals) = (length vals + 1)%nat).
  { rewrite !length_app, length_take, length_drop. cbn [length]. lia. }
  set (s := length vals) in *.
  unfold emplace. mget. rewrite ?Z.add_0_l.
  mstep ltac:(apply assert_true, ptr_leb_same; lia).
  mstep ltac:(apply index_of_ok; [reflexivity | lia]).
  mget. mget.
  unfold SizeT.add at 1. rewrite wrap_small by lia.
  unfold next_capacity.
  cbn [ptr_eqb]. rewrite Nat.eqb_refl. cbn [andb].
  replace (Z.of_nat i =? Z.of_nat s) with false by (symmetry; apply Z.eqb_neq; lia).
  destruct (Z.of_nat s + 1 <? c) eqn:Hroom.
  - apply Z.ltb_lt in Hroom.
    destruct (shift_and_construct_arg_ok cat c al ta h nx tr a blk i s v Hb) as [tr' Hsc];
      [lia | lia | lia |].
    mstep ltac:(exact Hsc). mget.
    eexists _, _. split; [reflexivity|]. norm.
    split; [reflexivity|]. split; [|split; reflexivity].
    destruct (holds_shifted vals [v] blk i Htake) as [Hl' Ht']; [lia | cbn [length]; lia |].
    cbv zeta in Hl', Ht'. cbn [length fmap list_fmap] in Hl', Ht'. fold s in Hl', Ht'.
    split; [reflexivity|]. split; [rewrite Hnew; lia|].
    split; [reflexivity|]. split; [exact Ha|].
    eexists. split; [apply lookup_insert_eq|].
    split; [rewrite Hl'; exact Hlen | exact Ht'].
  - apply Z.ltb_ge in Hroom.
    mstep ltac:(apply grow_one; lia). mget.
    set (n := Z.to_nat (Z.max c 1 * 2)).
    replace (Z.max c 1 * 2) with (Z.of_nat n) by lia.
    mstep ltac:(apply reallocate_strong_guarantee_ok with (blk := blk);
                [exact Hb | lia | lia | lia | lia]).
    match goal with |- context [World E _ _ ?hh _ _ ?tt] =>
      destruct (shift_and_construct_arg_ok cat (Z.of_nat n) al ta hh (S nx) tt nx
                  (moved_block blk s n) i s v) as [tr' Hsc]
    end.
    { apply lookup_insert_eq. } { lia. }
    { rewrite moved_block_length; lia. } { lia. }
    mstep ltac:(exact Hsc). mget.
    eexists _, _. split; [reflexivity|]. norm.
    split; [reflexivity|]. split; [|split; reflexivity].
    destruct (holds_shifted vals [v] (moved_block blk s n) i) as [Hl' Ht'].
    { now apply moved_block_take. } { lia. }
    { rewrite moved_block_length; cbn [length]; lia. }
    cbv zeta in Hl', Ht'. cbn [length fmap list_fmap] in Hl', Ht'. fold s in Hl', Ht'.
    split; [reflexivity|]. split; [rewrite Hnew; lia|].
    split; [reflexivity|]. split; [lia|].
    eexists. split; [apply lookup_insert_eq|].
    split; [rewrite Hl', moved_block_length; lia | exact Ht'].
Qed.

(** A computation that returns after a first part has returned. *)
Lemma bind_inv {R R'} (m : M E R) (f : R -> M E R') w r' w' :
  (m ≫= f) w = Ret r' w' ->
  exists r w1, m w = Ret r w1 /\ f r w1 = Ret r' w'.
Proof.
  unfold mbind, M_bind. destruct (m w) as [r w1| | |]; try discriminate.
  intros H. now exists r, w1.
Qed.

(** The iterator that [emplace] returns is [begin()] of the vector it
    leaves, advanced by the index of [pos] in the vector it was given. *)
Lemma emplace_result pos cat v (w w' : world E) p :
  emplace E pos cat v w = Ret p w' ->
  exists k, index_of E pos w = Ret k w /\ p = ptr_add (m_vector (this E w')) k.
Proof.
  unfold emplace. intros H.
  apply bind_inv in H as (e & w1 & He & H).
  assert (w1 = w) as -> by (revert He; clear; cbv; congruence).
  apply bind_inv in H as ([] & w1 & Has & H).
  assert (w1 = w) as ->.
  { revert Has. unfold assert. destruct (ptr_leb pos e); [|discriminate].
    cbv. congruence. }
  apply bind_inv in H as (k & w1 & Hk & H).
  assert (w1 = w) as ->.
  { revert Hk. unfold index_of, begin_, get_m_vector, mbind, M_bind.
    destruct (ptr_diff pos _); [|discriminate].
    unfold mret, M_ret. congruence. }
  exists k. split; [exact Hk|].
  apply bind_inv in H as (sz & w1 & Hsz & H).
  assert (w1 = w) as -> by (revert Hsz; clear; cbv; congruence).
  apply bind_inv in H as (cap & w1 & Hcap & H).
  assert (w1 = w) as -> by (revert Hcap; clear; cbv; congruence).
  apply bind_inv in H as ([] & w1 & _ & H).
  revert H. unfold get_m_vector, mbind, M_bind, mret, M_ret. congruence.
Qed.

Lemma index_of_begin_add (w : world E) (vals : list E) (i : nat) :
  holds w vals -> (i <= length vals)%nat ->
  Z.of_nat (length vals) < SizeT.modulus ->
  index_of E (ptr_add (m_vector (this E w)) (Z.of_nat i)) w = Ret (Z.of_nat i) w.
Proof.
  destruct w as [[mv c sz al] ta h nx bd tr]. unfold holds. norm.
  intros (_ & _ & Hmv) Hi Hmod.
  destruct mv as [|a o].
  - destruct Hmv as [_ ->]. cbn in Hi. now replace i with 0%nat by lia.
  - destruct Hmv as (-> & _). cbn [ptr_add]. rewrite Z.add_0_l.
    apply index_of_ok; [reflexivity | lia].
Qed.

(** [emplace(pos, value)] at any position of a well-formed vector, for a
    value that is no element of the vector. *)
Lemma emplace_at_ok cat v (w : world E) (vals : list E) (index : nat) :
  holds w vals ->
  (index <= length vals)%nat ->
  Z.of_nat (length vals) + 1 <= 2 ^ 61 ->
  exists p w',
    (b ← begin_ E; emplace E (ptr_add b (Z.of_nat index)) cat (Outside v)) w = Ret p w'
    /\ p = ptr_add (m_vector (this E w')) (Z.of_nat index)
    /\ holds w' (take index vals ++ [v] ++ drop index vals)
    /\ m_capacity (this E w')
       = next_capacity (m_capacity (this E w)) (m_size (this E w))
    /\ that E w' = that E w.
Proof.
  intros Hw Hi Hbound. unfold begin_.
  assert (Hmod : Z.of_nat (length vals) < SizeT.modulus) by (unfold SizeT.modulus; lia).
  destruct (decide (index = length vals)) as [-> | Hne].
  - destruct (emplace_end_ok cat v w vals Hw Hbound) as (p & w' & Hrun & Hw' & Hc & Ht).
    exists p, w'. rewrite firstn_all, drop_all. cbn [app].
    assert (Hrun' : emplace E (ptr_add (m_vector (this E w)) (Z.of_nat (length vals))) cat (Outside v) w
                    = Ret p w').
    { revert Hrun. unfold end_. destruct Hw as (_ & Hsz & _).
      rewrite !bind_assoc. mget. mget.
      erewrite bind_ret by reflexivity. now rewrite Hsz. }
    split; [mget; exact Hrun'|].
    split; [|split; [exact Hw' | split; [exact Hc | exact Ht]]].
    destruct (emplace_result _ _ _ _ _ _ Hrun') as (k & Hk & ->).
    rewrite (index_of_begin_add w vals (length vals) Hw) in Hk by lia.
    now injection Hk as <-.
  - assert (Hlt : (index < length vals)%nat) by lia.
    assert (Hptr : exists a, m_vector (this E w) = Ptr a 0).
    { destruct w as [[mv c sz al] ta h nx bd tr]. unfold holds in Hw. norm_in Hw. norm.
      destruct Hw as (_ & _ & Hmv). destruct mv as [|a o].
      - destruct Hmv as [_ ->]. cbn in Hlt. lia.
      - destruct Hmv as (-> & _). now exists a. }
    destruct Hptr as [a Hptr].
    destruct (emplace_interior_ok cat v w vals a index Hw Hptr Hlt Hbound)
      as (p & w' & Hrun & Hp & Hw' & Hc & Ht).
    exists p, w'. split; [|now repeat (split; [assumption|])].
    mget. rewrite Hptr. cbn [ptr_add]. rewrite Z.add_0_l. exact Hrun.
Qed.

(** X18.  [insert(pos, value)], for a copied and for a moved value, at any
    position [index <= size()] of a well-formed vector, when [value] refers
    to an object that is no element of the vector (the source reads the
    reference after it has shifted the elements, and after it has released
    the old block when it grows): the elements before the position stay, the
    value stands at the position, the elements from the position on follow
    in their order, and the iterator returned points to the value.  The
    capacity is kept when [size() + 1 < capacity()] and doubled (from 1 if it
    is zero) otherwise.  No element operation is assumed to fail, and the
    size is far from [2^64]. *)
Theorem insert_spec cat v (w : world E) (vals : list E) (index : nat) :
  holds w vals ->
  (index <= length vals)%nat ->
  Z.of_nat (length vals) + 1 <= 2 ^ 61 ->
  exists p w',
    (b ← begin_ E; insert E (ptr_add b (Z.of_nat index)) cat (Outside v)) w = Ret p w'
    /\ p = ptr_add (m_vector (this E w')) (Z.of_nat index)
    /\ holds w' (take index vals ++ [v] ++ drop index vals)
    /\ m_capacity (this E w')
       = next_capacity (m_capacity (this E w)) (m_size (this E w))
    /\ that E w' = that E w.
Proof.
  intros Hw Hi Hbound. unfold insert.
  exact (emplace_at_ok cat v w vals index Hw Hi Hbound).
Qed.

(** X19.  [insert(pos, count, value)] before the last element of a
    well-formed vector with [size() + count < capacity()], when [value]
    refers to an object that is no element of the vector (the source reads
    the reference after it has shifted the elements): [count] copies of the
    value stand at the position, between the elements that were before it
    and those that were from it on; the capacity and the base address are
    unchanged.  No element operation is assumed to fail. *)
Theorem insert_n_interior (w : world E) (vals : list E) (a index count : nat) (v : E) :
  holds w vals ->
  m_vector (this E w) = Ptr a 0 ->
  (index < length vals)%nat ->
  Z.of_nat (length vals + count) < m_capacity (this E w) ->
  m_capacity (this E w) <= SizeT.ptrdiff_max ->
  exists w',
    insert_n E (Ptr a (Z.of_nat index)) (Z.of_nat count) (Outside v) w
    = Ret (Ptr a (Z.of_nat index)) w'
    /\ holds w' (take index vals ++ replicate count v ++ drop index vals)
    /\ m_capacity (this E w') = m_capacity (this E w)
    /\ m_vector (this E w') = m_vector (this E w)
    /\ that E w' = that E w.
Proof.
  destruct w as [[mv c sz al] ta h nx bd tr]. unfold holds. norm.
  intros (-> & -> & Hmv) -> Hi Hroom Hmax.
  destruct Hmv as (_ & Ha & blk & Hb & Hlen & Htake).
  assert (Hpmax : SizeT.ptrdiff_max < SizeT.modulus) by reflexivity.
  assert (Hnew : length (take index vals ++ replicate count v ++ drop index vals)
                 = (length vals + count)%nat).
  { rewrite !length_app, length_take, length_drop, length_replicate. lia. }
  set (s := length vals) in *.
  unfold insert_n.
  mstep ltac:(apply index_of_ok; [reflexivity | lia]).
  mget. mget.
  unfold SizeT.add at 1. rewrite wrap_small by lia.
  replace (Z.of_nat s + Z.of_nat count <? c) with true by (symmetry; apply Z.ltb_lt; lia).
  unfold end_. mget. mget. mget. rewrite !Z.add_0_l.
  cbn [ptr_eqb]. rewrite Nat.eqb_refl. cbn [andb].
  replace (Z.of_nat index =? Z.of_nat s) with false by (symmetry; apply Z.eqb_neq; lia).
  destruct (shift_and_construct_ok c al ta h nx tr a blk index s count v Hb) as [tr' Hsc];
    [lia | lia | lia |].
  mstep ltac:(exact Hsc). mget.
  eexists. split.
  { unfold mret, M_ret. rewrite Z.add_0_l. now destruct (Z.of_nat count =? 0). }
  norm. split; [|repeat split].
  destruct (holds_shifted vals (replicate count v) blk index Htake) as [Hl' Ht'];
    [lia | rewrite length_replicate; lia |].
  cbv zeta in Hl', Ht'. rewrite length_replicate, fmap_replicate in Hl', Ht'.
  fold s in Hl', Ht'.
  split; [reflexivity|]. split; [rewrite Hnew; lia|].
  split; [reflexivity|]. split; [exact Ha|].
  eexists. split; [apply lookup_insert_eq|].
  split; [rewrite Hl'; exact Hlen | exact Ht'].
Qed.

(** ** Inserting a value list *)

(** The loop of lines 285-288 on a block with room for the list. *)
Lemma construct_tail_each_ok (values : list E) c al ta nx a (s : nat) :
  forall (k0 : nat) h tr cur,
  h !! a = Some cur ->
  (s + k0 + length values <= length cur)%nat ->
  Z.of_nat (s + k0 + length values) < SizeT.modulus ->
  exists tr',
    construct_tail_each E (Z.of_nat k0) values
      (World E (Vector (Ptr a 0) c (Z.of_nat s) al) ta h nx None tr)
    = Ret () (World E (Vector (Ptr a 0) c (Z.of_nat s) al) ta
                (<[a := take (s + k0) cur
                        ++ ((fun x => Some (default (indeterminate E) x))
                              <$> take (length values) (drop (s + k0) cur))
                        ++ drop (s + k0 + length values) cur]> h) nx None tr').
Proof.
  induction values as [|x values IH]; intros k0 h tr cur Hb Hlen Hmod.
  - exists tr. cbn [construct_tail_each length].
    rewrite Nat.add_0_r, take_0, fmap_nil, app_nil_l, take_drop, insert_id by done.
    reflexivity.
  - cbn [construct_tail_each length] in *.
    destruct (cur !! (s + k0)%nat) as [y|] eqn:Hy.
    2:{ apply lookup_ge_None in Hy. lia. }
    mstep ltac:(apply tick_ok). mget. mget. rewrite !Z.add_0_l.
    unfold SizeT.add. rewrite wrap_small by lia.
    replace (Z.of_nat s + Z.of_nat k0) with (Z.of_nat (s + k0)) by lia.
    mstep ltac:(eapply read_ok; eassumption).
    mstep ltac:(apply construct_at_ok; [exact Hb | lia]).
    replace (Z.of_nat k0 + 1) with (Z.of_nat (S k0)) by lia.
    edestruct (IH (S k0) (<[a := <[(s + k0)%nat := Some (default (indeterminate E) y)]> cur]> h)
                 (tr ++ [Constructed a (Z.of_nat (s + k0))])
                 (<[(s + k0)%nat := Some (default (indeterminate E) y)]> cur)) as [tr' Hrun];
      [apply lookup_insert_eq | rewrite length_insert; lia | lia |].
    rewrite Hrun. exists tr'. do 2 f_equal.
    rewrite insert_insert_eq. f_equal.
    replace (s + S k0)%nat with (S (s + k0)) by lia.
    rewrite (take_S_r _ _ (Some (default (indeterminate E) y)))
      by (apply list_lookup_insert_eq; lia).
    rewrite take_insert_ge by lia.
    rewrite !drop_insert_lt by lia.
    rewrite (drop_S cur y (s + k0)) by done.
    rewrite <- app_assoc. cbn [take fmap list_fmap app].
    now replace (S (s + k0) + length values)%nat with (s + k0 + S (length values))%nat by lia.
Qed.

(** The loop of lines 292-296: each slot is destroyed and then constructed
    from the value of the list. *)
Lemma replace_each_ok (values : list E) c sz al ta nx a (i : nat) :
  forall (k0 : nat) h tr cur,
  h !! a = Some cur ->
  (i + k0 + length values <= length cur)%nat ->
  exists tr',
    replace_each E (Z.of_nat i) (Z.of_nat k0) values
      (World E (Vector (Ptr a 0) c sz al) ta h nx None tr)
    = Ret () (World E (Vector (Ptr a 0) c sz al) ta
                (<[a := take (i + k0) cur ++ (Some <$> values)
                        ++ drop (i + k0 + length values) cur]> h) nx None tr').
Proof.
  induction values as [|x values IH]; intros k0 h tr cur Hb Hlen.
  - exists tr. cbn [replace_each length fmap list_fmap app].
    rewrite Nat.add_0_r, take_drop, insert_id by done. reflexivity.
  - cbn [replace_each length] in *.
    mstep ltac:(apply tick_ok). mget. rewrite !Z.add_0_l.
    replace (Z.of_nat i + Z.of_nat k0) with (Z.of_nat (i + k0)) by lia.
    mstep ltac:(apply destroy_at_ok; [exact Hb | lia]).
    mstep ltac:(apply construct_at_ok; [apply lookup_insert_eq | rewrite length_insert; lia]).
    rewrite insert_insert_eq, list_insert_insert_eq.
    replace (Z.of_nat k0 + 1) with (Z.of_nat (S k0)) by lia.
    match goal with |- context [World E _ _ (<[a := ?cur']> h) nx None ?tr1] =>
      destruct (IH (S k0) (<[a := cur']> h) tr1 cur') as [tr' Hrun];
        [apply lookup_insert_eq | rewrite length_insert; lia |]
    end.
    rewrite Hrun. exists tr'. do 2 f_equal.
    rewrite insert_insert_eq. f_equal.
    replace (i + S k0)%nat with (S (i + k0)) by lia.
    rewrite (take_S_r _ _ (Some x)) by (apply list_lookup_insert_eq; lia).
    rewrite take_insert_ge by lia.
    rewrite drop_insert_lt by lia.
    rewrite <- app_assoc. cbn [fmap list_fmap app].
    now replace (S (i + k0) + length values)%nat with (i + k0 + S (length values))%nat by lia.
Qed.

(** [shift_and_construct_init(pos_index_position, list)] with room for the
    list. *)
Lemma shift_and_construct_init_ok (values : list E) c al ta h nx tr a blk (i s : nat) :
  h !! a = Some blk -> (i <= s)%nat -> (s + length values <= length blk)%nat ->
  Z.of_nat (s + length values) < SizeT.modulus ->
  exists tr',
    shift_and_construct_init E (Z.of_nat i) values
      (World E (Vector (Ptr a 0) c (Z.of_nat s) al) ta h nx None tr)
    = Ret () (World E (Vector (Ptr a 0) c (Z.of_nat (s + length values)) al) ta
                (<[a := take i blk ++ (Some <$> values)
                        ++ ((fun x => Some (default (indeterminate E) x))
                              <$> take (s - i) (drop i blk))
                        ++ drop (s + length values) blk]> h) nx None tr').
Proof.
  intros Hb Hi Hlen Hmod. unfold shift_and_construct_init.
  destruct (construct_tail_each_ok values c al ta nx a s 0 h tr blk Hb) as [tr1 H1];
    [lia | lia |].
  mstep ltac:(exact H1). rewrite Nat.add_0_r. clear H1.
  mget. mget. rewrite !Z.add_0_l.
  replace (Z.of_nat s + Z.of_nat (length values)) with (Z.of_nat (s + length values)) by lia.
  destruct (shifted_block blk
              ((fun x => Some (default (indeterminate E) x))
                 <$> take (length values) (drop s blk))
              (Some <$> values) i s (length values)) as [Hl2 Hfinal].
  { lia. } { lia. } { rewrite length_fmap, length_take, length_drop. lia. }
  cbv zeta in Hl2, Hfinal.
  mstep ltac:(apply std_copy_backward_ok;
    [apply lookup_insert_eq | lia
     | rewrite !length_app, length_fmap, !length_take, !length_drop; lia]).
  rewrite insert_insert_eq.
  set (cur2 := take (i + length values) _ ++ _ ++ drop (s + length values) _) in *.
  match goal with |- context [World E _ _ ?hh nx None ?tt] =>
    destruct (replace_each_ok values c (Z.of_nat s) al ta nx a i 0 hh tt cur2) as [tr2 H2]
  end.
  { apply lookup_insert_eq. } { lia. }
  mstep ltac:(exact H2). rewrite insert_insert_eq, Nat.add_0_r. clear H2.
  mget. unfold set_m_size, with_this, SizeT.add. norm.
  rewrite wrap_small by lia.
  exists tr2. do 2 f_equal.
  - f_equal. lia.
  - f_equal. exact Hfinal.
Qed.

(** The same on a well-formed vector. *)
Lemma shift_and_construct_init_holds (w : world E) (vals values : list E) (a i : nat) :
  holds w vals ->
  m_vector (this E w) = Ptr a 0 ->
  (i <= length vals)%nat ->
  Z.of_nat (length vals + length values) <= m_capacity (this E w) ->
  Z.of_nat (length vals + length values) < SizeT.modulus ->
  exists w',
    shift_and_construct_init E (Z.of_nat i) values w = Ret () w'
    /\ holds w' (take i vals ++ values ++ drop i vals)
    /\ m_capacity (this E w') = m_capacity (this E w)
    /\ m_vector (this E w') = m_vector (this E w)
    /\ that E w' = that E w.
Proof.
  destruct w as [[mv c sz al] ta h nx bd tr]. unfold holds. norm.
  intros (-> & -> & Hmv) -> Hi Hroom Hmod.
  destruct Hmv as (_ & Ha & blk & Hb & Hlen & Htake).
  destruct (shift_and_construct_init_ok values c al ta h nx tr a blk i (length vals) Hb)
    as [tr' Hrun]; [lia | lia | lia |].
  rewrite Hrun. eexists. split; [reflexivity|]. norm.
  destruct (holds_shifted vals values blk i Htake) as [Hl' Ht']; [lia | lia |].
  cbv zeta in Hl', Ht'.
  split; [|repeat split].
  split; [reflexivity|].
  split.
  { rewrite !length_app, length_take, length_drop. lia. }
  split; [reflexivity|]. split; [exact Ha|].
  eexists. split; [apply lookup_insert_eq|].
  split; [rewrite Hl'; exact Hlen | exact Ht'].
Qed.

(** A reallocation after the growth loop has raised [m_capacity]: what the
    field reads does not matter to it. *)
Lemma reallocate_holds_grown (w : world E) (vals : list E) (n : nat) (c' : Z) :
  holds w vals ->
  (length vals <= n)%nat ->
  Z.of_nat n <= SizeT.ptrdiff_max ->
  exists w',
    reallocate_strong_guarantee E (Z.of_nat n)
      (with_this E (fun v => Vector (m_vector v) c' (m_size v) (m_allocator v)) w)
    = Ret () w'
    /\ holds w' vals
    /\ m_capacity (this E w') = Z.of_nat n
    /\ m_vector (this E w') = Ptr (next_block E w) 0
    /\ that E w' = that E w.
Proof.
  destruct w as [[mv c sz al] ta h nx bd tr]. unfold holds, with_this. norm.
  intros (-> & -> & Hmv) Hle Hn.
  destruct mv as [|a o].
  - destruct Hmv as [-> ->]. cbn [length]. change (Z.of_nat 0) with 0.
    erewrite reallocate_strong_guarantee_null by lia.
    eexists. split; [reflexivity|]. norm.
    split; [|repeat split].
    split; [reflexivity|]. split; [reflexivity|].
    split; [reflexivity|]. split; [lia|].
    eexists. split; [apply lookup_insert_eq|].
    split; [now rewrite length_replicate | reflexivity].
  - destruct Hmv as (-> & Ha & blk & Hb & Hlen & Htake).
    pose proof (holds_length _ _ Htake) as Hvl.
    erewrite reallocate_strong_guarantee_ok; [|exact Hb|lia|lia|lia|lia].
    eexists. split; [reflexivity|]. norm.
    split; [|repeat split].
    split; [reflexivity|]. split; [reflexivity|].
    split; [reflexivity|]. split; [lia|].
    eexists. split; [apply lookup_insert_eq|].
    split; [rewrite moved_block_length; lia|].
    now apply moved_block_take.
Qed.

(** [insert(pos, values)] at any position of a well-formed vector. *)
Lemma insert_list_ok (w : world E) (vals values : list E) (index : nat) :
  holds w vals ->
  (index <= length vals)%nat ->
  Z.of_nat (length vals + length values) <= 2 ^ 61 ->
  exists p w',
    (b ← begin_ E; insert_list E (ptr_add b (Z.of_nat index)) values) w = Ret p w'
    /\ holds w' (take index vals ++ values ++ drop index vals)
    /\ (Z.of_nat (length vals + length values) < m_capacity (this E w) ->
        m_capacity (this E w') = m_capacity (this E w)
        /\ m_vector (this E w') = m_vector (this E w))
    /\ (m_capacity (this E w) <= Z.of_nat (length vals + length values) ->
        exists j,
          1 <= j
          /\ m_capacity (this E w') = Z.max (m_capacity (this E w)) 1 * 2 ^ j
          /\ (j = 1
              \/ Z.max (m_capacity (this E w)) 1 * 2 ^ (j - 1)
                 < Z.of_nat (length vals + length values)))
    /\ Z.of_nat (length vals + length values) <= m_capacity (this E w')
    /\ (values <> [] -> p = ptr_add (m_vector (this E w')) (Z.of_nat index))
    /\ that E w' = that E w.
Proof.
  intros Hw Hi Hbound.
  assert (Hmodulus : SizeT.modulus = 2 ^ 64) by reflexivity.
  assert (Hpmax : SizeT.ptrdiff_max = 2 ^ 63 - 1) by reflexivity.
  destruct (holds_size_capacity w vals Hw) as [Hsz Hsc].
  unfold begin_. mget. unfold insert_list.
  mstep ltac:(apply (index_of_begin_add w vals index Hw); lia).
  mget. mget. rewrite Hsz.
  unfold SizeT.add at 1. rewrite wrap_small by lia.
  replace (Z.of_nat (length vals) + Z.of_nat (length values))
    with (Z.of_nat (length vals + length values)) by lia.
  assert (Hret : forall (w' : world E),
    (if Z.of_nat (length values) =? 0
     then ptr_add (m_vector (this E w)) (Z.of_nat index)
     else ptr_add (m_vector (this E w')) (Z.of_nat index))
    = ptr_add (m_vector (this E w')) (Z.of_nat index) \/ values = []).
  { intros w'. destruct values; [now right | now left]. }
  destruct (Z.of_nat (length vals + length values) <? m_capacity (this E w)) eqn:Hroom.
  - apply Z.ltb_lt in Hroom.
    assert (Hptr : exists a, m_vector (this E w) = Ptr a 0).
    { destruct w as [[mv c sz al] ta h nx bd tr]. unfold holds in Hw. norm_in Hw.
      norm_in Hroom. norm.
      destruct Hw as (_ & _ & Hmv). destruct mv as [|a o].
      - destruct Hmv as [-> _]. lia.
      - destruct Hmv as (-> & _). now exists a. }
    destruct Hptr as [a Hptr].
    destruct (shift_and_construct_init_holds w vals values a index Hw Hptr Hi)
      as (w' & Hrun & Hw' & Hc & Hv & Ht); [lia | lia |].
    mstep ltac:(exact Hrun). mget.
    eexists _, w'. split; [reflexivity|].
    split; [exact Hw'|]. split; [intros _; now split|]. split; [lia|].
    split; [lia|]. split; [|exact Ht].
    intros Hne. destruct (Hret w') as [-> | ->]; [reflexivity | now destruct Hne].
  - apply Z.ltb_ge in Hroom.
    assert (Hgrow : exists j,
      1 <= j
      /\ grow E (sz ← size E; mret (SizeT.add (Z.of_nat (length values)) sz)) w
         = Ret () (with_this E
                     (fun v => Vector (m_vector v) (Z.max (m_capacity (this E w)) 1 * 2 ^ j)
                                 (m_size v) (m_allocator v)) w)
      /\ Z.of_nat (length vals + length values) <= Z.max (m_capacity (this E w)) 1 * 2 ^ j
      /\ (j = 1 \/ Z.max (m_capacity (this E w)) 1 * 2 ^ (j - 1)
                    < Z.of_nat (length vals + length values))).
    { destruct w as [[mv c sz al] ta h nx bd tr]. norm_in Hsz. norm_in Hsc. norm_in Hroom.
      unfold with_this. norm. subst sz.
      destruct (grow_loop_ok
                  ((sz ← size E; mret (SizeT.add (Z.of_nat (length values)) sz)) : M E Z)
                  mv (Z.of_nat (length vals)) al ta h nx bd tr
                  (Z.of_nat (length vals + length values)) 128) with (c := c)
        as (j & Hj & Hrun & Hge & Hmin).
      { intros c'. unfold mbind, M_bind, size, mret, M_ret. norm.
        unfold SizeT.add. rewrite wrap_small by lia. f_equal; lia. }
      { lia. } { lia. } { lia. }
      { change (2 ^ Z.of_nat 128) with (2 ^ 61 * 2 ^ 67). nia. }
      exists j. split; [lia|]. split; [exact Hrun|]. split; [exact Hge | exact Hmin]. }
    destruct Hgrow as (j & Hj & Hrun & Hge & Hmin).
    set (c' := Z.max (m_capacity (this E w)) 1 * 2 ^ j) in *.
    assert (Hc'max : c' <= 2 ^ 62).
    { unfold c'. destruct Hmin as [-> | Hmin].
      - rewrite Z.pow_1_r. lia.
      - replace j with (Z.succ (j - 1)) by lia. rewrite Z.pow_succ_r by lia. lia. }
    mstep ltac:(exact Hrun).
    mstep ltac:(reflexivity).
    replace (m_capacity (this E (with_this E _ w))) with c' by (now destruct w).
    destruct (reallocate_holds_grown w vals (Z.to_nat c') c' Hw)
      as (w1 & Hrun1 & Hw1 & Hc1 & Hv1 & Ht1); [lia | lia |].
    rewrite Z2Nat.id in Hrun1, Hc1 by lia.
    mstep ltac:(exact Hrun1).
    destruct (shift_and_construct_init_holds w1 vals values _ index Hw1 Hv1 Hi)
      as (w' & Hrun2 & Hw' & Hc2 & Hv2 & Ht2); [lia | lia |].
    mstep ltac:(exact Hrun2). mget.
    eexists _, w'. split; [reflexivity|].
    split; [exact Hw'|]. split; [intros Hlt; lia|].
    split.
    { intros _. exists j. split; [exact Hj|].
      split; [rewrite Hc2, Hc1; reflexivity | exact Hmin]. }
    split; [lia|]. split; [|congruence].
    intros Hne. destruct (Hret w') as [-> | ->]; [reflexivity | now destruct Hne].
Qed.

(** X20.  [insert(pos, values)] at any position [index <= size()] of a
    well-formed vector: the values of the list stand at the position in
    their order, between the elements that were before it and those that
    were from it on.  The capacity and the base address are kept when
    [size() + values.size() < capacity()]; otherwise the capacity (1 if it
    is zero) is doubled at least once and then until it is at least
    [size() + values.size()].  No element operation is assumed to fail, and
    the sizes are far from [2^64]. *)
Theorem insert_list_spec (w : world E) (vals values : list E) (index : nat) :
  holds w vals ->
  (index <= length vals)%nat ->
  Z.of_nat (length vals + length values) <= 2 ^ 61 ->
  exists p w',
    (b ← begin_ E; insert_list E (ptr_add b (Z.of_nat index)) values) w = Ret p w'
    /\ holds w' (take index vals ++ values ++ drop index vals)
    /\ (Z.of_nat (length vals + length values) < m_capacity (this E w) ->
        m_capacity (this E w') = m_capacity (this E w)
        /\ m_vector (this E w') = m_vector (this E w))
    /\ (m_capacity (this E w) <= Z.of_nat (length vals + length values) ->
        exists j,
          1 <= j
          /\ m_capacity (this E w') = Z.max (m_capacity (this E w)) 1 * 2 ^ j
          /\ (j = 1
              \/ Z.max (m_capacity (this E w)) 1 * 2 ^ (j - 1)
                 < Z.of_nat (length vals + length values)))
    /\ Z.of_nat (length vals + length values) <= m_capacity (this E w')
    /\ (values <> [] -> p = ptr_add (m_vector (this E w')) (Z.of_nat index))
    /\ that E w' = that E w.
Proof.
  intros Hw Hi Hbound.
  exact (insert_list_ok w vals values index Hw Hi Hbound).
Qed.

(** ** The growth policy *)

(** C1 (amended).  Growth policy of an append, a single-element insert and
    a value-list insert on a well-formed vector.  When [emplace(pos, value)]
    or [push_back(value)] finds no room ([size() + 1 < capacity()] is false),
    the capacity (1 if it is zero) is doubled, once, which always makes it
    at least [size() + 1].  When [insert(pos, values)] finds no room
    ([size() + values.size() < capacity()] is false), the capacity (1 if it
    is zero) is doubled at least once and then again until it is at least
    [size() + values.size()].  In particular, starting from capacity 0,
    [k >= 1] appends with nothing in between succeed, keep the appended
    values in order, and leave a capacity of the sequence 2, 4, 8, ... with
    [k <= capacity <= 2 * k]; the first append gives capacity 2.  The sizes
    are assumed far enough from [2^64] for no [size_t] operation to wrap, no
    element operation is assumed to fail, and the value inserted is no
    element of the vector. *)
Theorem growth_policy (w : world E) (vals values vs : list E) (index : nat)
    (cat : value_category) (v : E) :
  holds w vals ->
  (index <= length vals)%nat ->
  Z.of_nat (length vals + length values) + 1 <= 2 ^ 61 ->
  (m_capacity (this E w) <= Z.of_nat (length vals) + 1 ->
   (exists p w',
      (b ← begin_ E; emplace E (ptr_add b (Z.of_nat index)) cat (Outside v)) w = Ret p w'
      /\ m_capacity (this E w') = Z.max (m_capacity (this E w)) 1 * 2
      /\ Z.of_nat (length vals) + 1 <= m_capacity (this E w'))
   /\ (exists w',
         push_back E cat v w = Ret () w'
         /\ m_capacity (this E w') = Z.max (m_capacity (this E w)) 1 * 2
         /\ Z.of_nat (length vals) + 1 <= m_capacity (this E w')))
  /\ (m_capacity (this E w) <= Z.of_nat (length vals + length values) ->
      exists p w' j,
        (b ← begin_ E; insert_list E (ptr_add b (Z.of_nat index)) values) w = Ret p w'
        /\ 1 <= j
        /\ m_capacity (this E w') = Z.max (m_capacity (this E w)) 1 * 2 ^ j
        /\ Z.of_nat (length vals + length values) <= m_capacity (this E w')
        /\ (j = 1
            \/ Z.max (m_capacity (this E w)) 1 * 2 ^ (j - 1)
               < Z.of_nat (length vals + length values)))
  /\ (vals = [] ->
      m_capacity (this E w) = 0 ->
      (1 <= length vs)%nat ->
      Z.of_nat (length vs) <= 2 ^ 61 ->
      exists w',
        appends E cat vs w = Ret () w'
        /\ m_size (this E w') = Z.of_nat (length vs)
        /\ contents E w' (this E w') = Some vs
        /\ doubled_power (m_capacity (this E w'))
        /\ Z.of_nat (length vs) <= m_capacity (this E w') <= 2 * Z.of_nat (length vs)
        /\ (length vs = 1%nat -> m_capacity (this E w') = 2)).
Proof.
  intros Hw Hi Hbound.
  destruct (holds_size_capacity w vals Hw) as [Hsz Hsc].
  assert (Hnext : m_capacity (this E w) <= Z.of_nat (length vals) + 1 ->
                  next_capacity (m_capacity (this E w)) (m_size (this E w))
                  = Z.max (m_capacity (this E w)) 1 * 2).
  { intros Hfull. unfold next_capacity. rewrite Hsz.
    now replace (Z.of_nat (length vals) + 1 <? m_capacity (this E w)) with false
      by (symmetry; apply Z.ltb_ge; lia). }
  split; [|split].
  - intros Hfull. split.
    + destruct (emplace_at_ok cat v w vals index Hw Hi ltac:(lia))
        as (p & w' & Hrun & _ & _ & Hc & _).
      exists p, w'. split; [exact Hrun|]. rewrite Hc, (Hnext Hfull). split; [reflexivity | lia].
    + destruct (push_back_ok cat v w vals Hw ltac:(lia)) as (w' & Hrun & _ & Hc & _).
      exists w'. split; [exact Hrun|]. rewrite Hc, (Hnext Hfull). split; [reflexivity | lia].
  - intros Hfull.
    destruct (insert_list_ok w vals values index Hw Hi ltac:(lia))
      as (p & w' & Hrun & _ & _ & Hgrow & Hge & _).
    destruct (Hgrow Hfull) as (j & Hj & Hc & Hmin).
    exists p, w', j. split; [exact Hrun|]. split; [exact Hj|]. split; [exact Hc|].
    split; [exact Hge | exact Hmin].
  - intros -> Hc0 Hk Hbound'.
    destruct (appends_ok cat vs w [] Hw) as (w' & Hrun & Hw' & Hcap & _).
    { cbn [length]. lia. }
    cbn [app] in Hw'.
    exists w'. split; [exact Hrun|].
    split; [apply Hw'|]. split; [now apply holds_contents|].
    assert (Hs0 : m_size (this E w) = 0) by apply Hw.
    rewrite Hc0, Hs0 in Hcap.
    pose proof (doubling_invariant_after (length vs) 0 0 (or_introl (conj eq_refl eq_refl)))
      as [[Hz _] | (_ & Hp & Hlt)]; [lia|].
    rewrite <- Hcap in Hp, Hlt. rewrite Z.add_0_l in Hlt.
    split; [exact Hp|]. split; [lia|].
    intros H1. rewrite Hcap, H1. reflexivity.
Qed.

(** ** Copying *)

(** The loop of [uninitialized_alloc_copy]: the elements of the block [b]
    of [other] are copy-constructed into the block [t] of [*this]. *)
Lemma uninitialized_alloc_copy_ok c al ov' oc oal h nx tr (t b : nat) tb blk (n : nat) :
  t <> b ->
  h !! t = Some tb -> h !! b = Some blk ->
  (n <= length tb)%nat -> (n <= length blk)%nat ->
  uninitialized_alloc_copy E
    (World E (Vector (Ptr t 0) c ov' al) (Vector (Ptr b 0) oc (Z.of_nat n) oal) h nx None tr)
  = Ret () (World E (Vector (Ptr t 0) c (Z.of_nat n) al)
              (Vector (Ptr b 0) oc (Z.of_nat n) oal)
              (<[t := ((fun s => Some (default (indeterminate E) s)) <$> take n blk)
                      ++ drop n tb]> h) nx None
              (tr ++ (Constructed t <$> seqZ 0 (Z.of_nat n)))).
Proof.
  intros Hne Ht Hb Hnt Hnb. unfold uninitialized_alloc_copy.
  mget. mrun. mget. unfold for_loop. rewrite Z.sub_0_r, Nat2Z.id.
  erewrite transfer_range_ok with (a := b) (t := t) (c := Lvalue) (k := 0%nat)
    (blk := blk) (tb := tb); [|reflexivity|congruence|exact Hb|exact Ht|lia|lia].
  cbn [Nat.add]. now rewrite take_0, drop_0, app_nil_l.
Qed.

(** X21.  The copy constructor.  From a well-formed source it builds a
    vector with the same elements in a block of its own, of exactly
    [size()] slots: the two vectors do not share storage, and the source and
    its block are as they were.  From a source without a block it builds a
    vector without a block.  No element construction is assumed to fail. *)
Theorem vector_copy_spec (w : world E) (ys : list E) :
  other_holds w ys ->
  m_capacity (this E w) = 0 ->
  m_size (this E w) = 0 ->
  Z.of_nat (length ys) <= SizeT.ptrdiff_max ->
  exists w',
    vector_copy E w = Ret () w'
    /\ holds w' ys
    /\ other_holds w' ys
    /\ m_capacity (this E w') = Z.of_nat (length ys)
    /\ that E w' = that E w
    /\ (m_vector (that E w) = Null -> m_vector (this E w') = Null)
    /\ (m_vector (that E w) <> Null ->
        m_vector (this E w') = Ptr (next_block E w) 0
        /\ m_vector (this E w') <> m_vector (that E w')).
Proof.
  destruct w as [[mv c sz al] [ov oc osz oal] h nx bd tr].
  unfold other_holds, holds, swap_roles. norm.
  intros (-> & -> & Hov) -> -> Hn.
  unfold vector_copy, copy. mget.
  destruct ov as [|b o].
  - destruct Hov as [-> ->]. cbn [is_null_ptr].
    eexists. split; [reflexivity|]. unfold with_this. norm.
    now repeat split.
  - destruct Hov as (-> & Hb & blk & Hblk & Hlen & Htake).
    pose proof (holds_length _ _ Htake) as Hvl.
    cbn [is_null_ptr]. mget. unfold allocate. mrun.
    mstep ltac:(apply alloc_ok; exact Hn). mrun.
    erewrite uninitialized_alloc_copy_ok with (blk := blk);
      [|lia|apply lookup_insert_eq|rewrite lookup_insert_ne by lia; exact Hblk
       |rewrite length_replicate; lia|lia].
    eexists. split; [reflexivity|]. norm.
    rewrite insert_insert_eq.
    split; [|split; [|split; [reflexivity|split; [reflexivity|split; [discriminate|]]]]].
    + split; [reflexivity|]. split; [reflexivity|].
      split; [reflexivity|]. split; [lia|].
      eexists. split; [apply lookup_insert_eq|].
      rewrite drop_replicate, Nat.sub_diag, app_nil_r, Htake, fmap_default_Some.
      split; [now rewrite length_fmap|].
      rewrite <- (length_fmap Some ys). apply firstn_all.
    + split; [reflexivity|]. split; [reflexivity|].
      split; [reflexivity|]. split; [lia|].
      exists blk. split; [rewrite lookup_insert_ne by lia; exact Hblk|]. now split.
    + intros _. split; [reflexivity|]. intros Heq. injection Heq as Heq. lia.
Qed.

(** X22.  Copy assignment from a source with a block.  The destination
    ends with the elements of the source, in its own block when the source
    fits its capacity and in a fresh block of exactly [other.size()] slots
    otherwise; the source is unchanged.  No element of the destination is
    destroyed on the way: the new elements are constructed over the old
    ones, and a block that is replaced is released with its elements alive.
    No element construction is assumed to fail. *)
Theorem copy_assign_spec (w : world E) (xs ys : list E) (b : nat) :
  holds w xs ->
  other_holds w ys ->
  m_vector (that E w) = Ptr b 0 ->
  m_vector (this E w) <> Ptr b 0 ->
  Z.of_nat (length ys) <= SizeT.ptrdiff_max ->
  exists w',
    copy_assign E A w = Ret () w'
    /\ holds w' ys
    /\ other_holds w' ys
    /\ m_capacity (this E w') = Z.max (m_capacity (this E w)) (Z.of_nat (length ys))
    /\ m_vector (that E w') = Ptr b 0
    /\ (Z.of_nat (length ys) <= m_capacity (this E w) ->
        m_vector (this E w') = m_vector (this E w)
        /\ trace E w'
           = trace E w
               ++ match m_vector (this E w) with
                  | Null => []
                  | Ptr a _ => Constructed a <$> seqZ 0 (Z.of_nat (length ys))
                  end)
    /\ (m_capacity (this E w) < Z.of_nat (length ys) ->
        m_vector (this E w') = Ptr (next_block E w) 0
        /\ trace E w'
           = trace E w
               ++ match m_vector (this E w) with
                  | Null => []
                  | Ptr a _ => [Released a]
                  end
               ++ [Allocated (next_block E w) (Z.of_nat (length ys))]
               ++ (Constructed (next_block E w) <$> seqZ 0 (Z.of_nat (length ys)))).
Proof.
  destruct w as [[mv c sz al] [ov oc osz oal] h nx bd tr].
  unfold other_holds, holds, swap_roles. norm.
  intros (-> & -> & Hmv) (_ & -> & Hov) -> Hdist Hn.
  destruct Hov as (_ & Hb & blk & Hblk & Hlen & Htake).
  pose proof (holds_length _ _ Htake) as Hvl.
  unfold copy_assign. mget. cbn [is_null_ptr negb].
  set (al' := if propagate_on_container_copy_assignment A then oal else al).
  assert (Hal : forall R (k : M E R) th,
    ((if propagate_on_container_copy_assignment A
      then a ← other_allocator E; set_m_allocator E a else mret ()) ;; k)
      (World E (Vector (m_vector th) (m_capacity th) (m_size th) al)
         (Vector (Ptr b 0) oc (Z.of_nat (length ys)) oal) h nx None tr)
    = k (World E (Vector (m_vector th) (m_capacity th) (m_size th) al')
           (Vector (Ptr b 0) oc (Z.of_nat (length ys)) oal) h nx None tr)).
  { intros R k th. unfold al'. destruct (propagate_on_container_copy_assignment A).
    - mget. mrun. reflexivity.
    - mget. reflexivity. }
  rewrite (Hal _ _ (Vector mv c (Z.of_nat (length xs)) al)). norm. clear Hal.
  mget. mget.
  destruct mv as [|a o].
  - destruct Hmv as [-> ->]. cbn [length]. change (Z.of_nat 0) with 0.
    destruct (0 <? Z.of_nat (length ys)) eqn:Hc.
    + apply Z.ltb_lt in Hc.
      unfold reallocate, deallocate, allocate. mget.
      mstep ltac:(reflexivity). mrun. mrun. mrun.
      mstep ltac:(apply alloc_ok; lia). mrun.
      erewrite uninitialized_alloc_copy_ok with (blk := blk);
        [|lia|apply lookup_insert_eq|rewrite lookup_insert_ne by lia; exact Hblk
         |rewrite length_replicate; lia|lia].
      eexists. split; [reflexivity|]. norm. rewrite insert_insert_eq.
      split; [|split; [|split; [lia|split; [reflexivity|split; [lia|]]]]].
      * split; [reflexivity|]. split; [reflexivity|].
        split; [reflexivity|]. split; [lia|].
        eexists. split; [apply lookup_insert_eq|].
        rewrite drop_replicate, Nat.sub_diag, app_nil_r, Htake, fmap_default_Some.
        split; [now rewrite length_fmap|].
        rewrite <- (length_fmap Some ys). apply firstn_all.
      * split; [reflexivity|]. split; [reflexivity|].
        split; [reflexivity|]. split; [lia|].
        exists blk. split; [rewrite lookup_insert_ne by lia; exact Hblk|]. now split.
      * intros _. split; [reflexivity|]. now rewrite <- !app_assoc.
    + apply Z.ltb_ge in Hc. assert (ys = []) as -> by (destruct ys; [done | cbn in Hc; lia]).
      mget.
      eexists. split; [reflexivity|]. unfold with_this. norm.
      split; [now repeat split|].
      split.
      { split; [reflexivity|]. split; [reflexivity|].
        split; [reflexivity|]. split; [lia|]. exists blk. now repeat split. }
      split; [reflexivity|]. split; [reflexivity|].
      split; [intros _; split; [reflexivity | now rewrite app_nil_r]|].
      cbn. lia.
  - destruct Hmv as (-> & Ha & ablk & Hablk & Halen & Hatake).
    assert (Hab : a <> b) by congruence.
    destruct (c <? Z.of_nat (length ys)) eqn:Hc.
    + apply Z.ltb_lt in Hc.
      unfold reallocate, deallocate, allocate. mget.
      mstep ltac:(eapply dealloc_ok; exact Hablk). mrun. mrun. mrun.
      mstep ltac:(apply alloc_ok; lia). mrun.
      erewrite uninitialized_alloc_copy_ok with (blk := blk);
        [|lia|apply lookup_insert_eq
         |rewrite lookup_insert_ne, lookup_delete_ne by lia; exact Hblk
         |rewrite length_replicate; lia|lia].
      eexists. split; [reflexivity|]. norm. rewrite insert_insert_eq.
      split; [|split; [|split; [lia|split; [reflexivity|split; [lia|]]]]].
      * split; [reflexivity|]. split; [reflexivity|].
        split; [reflexivity|]. split; [lia|].
        eexists. split; [apply lookup_insert_eq|].
        rewrite drop_replicate, Nat.sub_diag, app_nil_r, Htake, fmap_default_Some.
        split; [now rewrite length_fmap|].
        rewrite <- (length_fmap Some ys). apply firstn_all.
      * split; [reflexivity|]. split; [reflexivity|].
        split; [reflexivity|]. split; [lia|].
        exists blk.
        split; [rewrite lookup_insert_ne, lookup_delete_ne by lia; exact Hblk|]. now split.
      * intros _. split; [reflexivity|]. now rewrite <- !app_assoc.
    + apply Z.ltb_ge in Hc. mget.
      erewrite uninitialized_alloc_copy_ok with (blk := blk);
        [|exact Hab|exact Hablk|exact Hblk|lia|lia].
      eexists. split; [reflexivity|]. norm.
      split; [|split; [|split; [lia|split; [reflexivity|split; [|lia]]]]].
      * split; [reflexivity|]. split; [reflexivity|].
        split; [reflexivity|]. split; [exact Ha|].
        eexists. split; [apply lookup_insert_eq|].
        rewrite Htake, fmap_default_Some.
        split.
        { rewrite length_app, length_fmap, length_drop. lia. }
        apply take_app_length'. now rewrite length_fmap.
      * split; [reflexivity|]. split; [reflexivity|].
        split; [reflexivity|]. split; [exact Hb|].
        exists blk. split; [rewrite lookup_insert_ne by exact Hab; exact Hblk|]. now split.
      * intros _. now split.
Qed.

(** ** Ranges given by two iterators *)

(** The loop of lines 381-384 and 524-527: the slots [[src, src + n)] of the
    block [b] are copy-constructed into the block [t] of [*this], and
    [m_size] counts them. *)
Lemma construct_counting_range_ok c al ta nx (t b src : nat) blk :
  t <> b ->
  forall (n k0 z : nat) h tr tb,
  h !! t = Some tb -> h !! b = Some blk ->
  (src + k0 + n <= length blk)%nat -> (k0 + n <= length tb)%nat ->
  Z.of_nat (z + n) < SizeT.modulus ->
  for_range E n (Z.of_nat k0)
    (fun index =>
       mv ← get_m_vector E;
       v ← read E (ptr_add (Ptr b (Z.of_nat src)) index);
       construct_at E (ptr_add mv index) Lvalue v ;;
       sz ← size E; set_m_size E (SizeT.add sz 1))
    (World E (Vector (Ptr t 0) c (Z.of_nat z) al) ta h nx None tr)
  = Ret () (World E (Vector (Ptr t 0) c (Z.of_nat (z + n)) al) ta
              (<[t := take k0 tb
                      ++ ((fun s => Some (default (indeterminate E) s))
                            <$> take n (drop (src + k0) blk))
                      ++ drop (k0 + n) tb]> h) nx None
              (tr ++ (Constructed t <$> seqZ (Z.of_nat k0) (Z.of_nat n)))).
Proof.
  intros Hne. induction n as [|n IH]; intros k0 z h tr tb Ht Hb Hlb Hlt Hmod.
  - cbn [for_range].
    rewrite !Nat.add_0_r, take_0, fmap_nil, app_nil_l, take_drop, insert_id by done.
    now rewrite app_nil_r.
  - cbn [for_range].
    destruct (blk !! (src + k0)%nat) as [s|] eqn:Hs.
    2:{ apply lookup_ge_None in Hs. lia. }
    mget. rewrite Z.add_0_l.
    replace (Z.of_nat src + Z.of_nat k0) with (Z.of_nat (src + k0)) by lia.
    mstep ltac:(eapply read_ok; eassumption).
    mstep ltac:(apply construct_at_ok; [exact Ht | lia]).
    mget. mrun. unfold SizeT.add. rewrite wrap_small by lia.
    replace (Z.of_nat z + 1) with (Z.of_nat (S z)) by lia.
    replace (Z.of_nat k0 + 1) with (Z.of_nat (S k0)) by lia.
    erewrite IH;
      [|apply lookup_insert_eq|rewrite lookup_insert_ne by congruence; exact Hb
       |lia|rewrite length_insert; lia|lia].
    f_equal. f_equal.
    + do 2 f_equal. lia.
    + rewrite insert_insert_eq. f_equal.
      rewrite (take_S_r _ _ (Some (default (indeterminate E) s)))
        by (apply list_lookup_insert_eq; lia).
      rewrite take_insert_ge by lia.
      rewrite drop_insert_lt by lia.
      rewrite (drop_S blk s (src + k0)) by done.
      rewrite <- app_assoc. cbn [take fmap list_fmap app].
      replace (src + S k0)%nat with (S (src + k0)) by lia.
      now replace (S k0 + n)%nat with (k0 + S n)%nat by lia.
    + rewrite <- app_assoc. f_equal.
      rewrite (seqZ_cons (Z.of_nat k0)) by lia. cbn [fmap list_fmap app].
      do 3 f_equal; lia.
Qed.

(** [other] holds the elements [ys], and [[src, src + n)] is a range of
    indices of it. *)
Lemma other_range (w : world E) (ys : list E) (b src n : nat) :
  other_holds w ys ->
  m_vector (that E w) = Ptr b 0 ->
  (src + n <= length ys)%nat ->
  budget E w = None
  /\ (b < next_block E w)%nat
  /\ exists blk,
       blocks E w !! b = Some blk
       /\ (src + n <= length blk)%nat
       /\ (fun s => Some (default (indeterminate E) s)) <$> take n (drop src blk)
          = Some <$> take n (drop src ys).
Proof.
  destruct w as [th [ov oc osz oal] h nx bd tr].
  unfold other_holds, holds, swap_roles. norm.
  intros (-> & -> & Hov) -> Hn.
  destruct Hov as (_ & Hb & blk & Hblk & Hlen & Htake).
  pose proof (holds_length _ _ Htake) as Hvl.
  split; [reflexivity|]. split; [exact Hb|].
  exists blk. split; [exact Hblk|]. split; [lia|].
  rewrite (holds_take_drop ys blk src n Htake) by lia.
  apply fmap_default_Some.
Qed.

(** X23.  The constructor from two iterators [first] and [last] of another
    vector, [last] being [n] elements after [first]: it allocates one block
    of exactly [n] slots and copy-constructs the elements of the range into
    it in order; the new vector holds these [n] elements, with capacity and
    size [n], and the source is unchanged. *)
Theorem vector_range_spec (w : world E) (ys : list E) (b src n : nat) :
  other_holds w ys ->
  m_vector (that E w) = Ptr b 0 ->
  (src + n <= length ys)%nat ->
  Z.of_nat n <= SizeT.ptrdiff_max ->
  exists w',
    vector_range E (Ptr b (Z.of_nat src)) (Ptr b (Z.of_nat (src + n))) w = Ret () w'
    /\ holds w' (take n (drop src ys))
    /\ other_holds w' ys
    /\ m_capacity (this E w') = Z.of_nat n
    /\ m_vector (this E w') = Ptr (next_block E w) 0
    /\ that E w' = that E w.
Proof.
  intros Hoh Hov Hn Hmax.
  destruct (other_range w ys b src n Hoh Hov Hn) as (Hbd & Hb & blk & Hblk & Hlen & Hvals).
  assert (Hpmax : SizeT.ptrdiff_max < SizeT.modulus) by reflexivity.
  destruct w as [[mv c sz al] ta h nx bd tr].
  unfold other_holds, holds, swap_roles in *. norm_in Hoh. norm_in Hov. norm_in Hbd.
  norm_in Hb. norm_in Hblk. norm. subst bd.
  unfold vector_range, std_distance, iterator_minus. cbn [ptr_diff].
  rewrite Nat.eqb_refl.
  replace (Z.of_nat (src + n) - Z.of_nat src) with (Z.of_nat n) by lia.
  rewrite wrap_small by lia.
  mrun. unfold allocate. mrun.
  mstep ltac:(apply alloc_ok; exact Hmax). mrun.
  unfold construct_counting, for_loop. rewrite Z.sub_0_r, Nat2Z.id.
  change 0 with (Z.of_nat 0).
  erewrite construct_counting_range_ok with (blk := blk) (tb := replicate n None);
    [|lia|apply lookup_insert_eq|rewrite lookup_insert_ne by lia; exact Hblk
     |lia|rewrite length_replicate; lia|lia].
  eexists. split; [reflexivity|]. norm.
  rewrite insert_insert_eq, Nat.add_0_r, take_0, app_nil_l, Hvals.
  cbn [Nat.add]. rewrite drop_replicate, Nat.sub_diag, app_nil_r.
  assert (Hl : length (take n (drop src ys)) = n).
  { rewrite length_take, length_drop. lia. }
  split; [|split; [|repeat split]].
  - split; [reflexivity|]. split; [now rewrite Hl|].
    split; [reflexivity|]. split; [lia|].
    eexists. split; [apply lookup_insert_eq|].
    split; [now rewrite length_fmap, Hl|].
    rewrite <- (length_fmap Some (take n (drop src ys))). apply firstn_all.
  - destruct ta as [ov oc osz oal]. norm_in Hov. norm_in Hoh. norm. subst ov.
    destruct Hoh as (_ & -> & _ & _ & blk' & Hblk' & Hlen' & Htake').
    split; [reflexivity|]. split; [reflexivity|].
    split; [reflexivity|]. split; [lia|].
    exists blk'. split; [rewrite lookup_insert_ne by lia; exact Hblk'|]. now split.
Qed.

(** Two computations that agree after a common first part. *)
Lemma bind_ext {R R'} (m : M E R) (f g : R -> M E R') w :
  (forall r w1, f r w1 = g r w1) -> (m ≫= f) w = (m ≫= g) w.
Proof. intros H. unfold mbind, M_bind. destruct (m w); [apply H | done..]. Qed.

(** A loop in two parts. *)
Lemma for_range_app (body : Z -> M E ()) (n1 n2 : nat) :
  forall lo w,
  for_range E (n1 + n2) lo body w
  = (for_range E n1 lo body ;; for_range E n2 (lo + Z.of_nat n1) body) w.
Proof.
  induction n1 as [|n1 IH]; intros lo w.
  - cbn [Nat.add for_range]. unfold mbind, M_bind, mret, M_ret.
    now rewrite Z.add_0_r.
  - cbn [Nat.add for_range]. rewrite bind_assoc.
    apply bind_ext. intros [] w1. rewrite IH.
    now replace (lo + 1 + Z.of_nat n1) with (lo + Z.of_nat (S n1)) by lia.
Qed.

Lemma bind_undefined {R R'} (m : M E R) (f : R -> M E R') w :
  m w = Undefined -> (m ≫= f) w = Undefined.
Proof. intros H. unfold mbind, M_bind. now rewrite H. Qed.

(** A store past the last slot of a block. *)
Lemma store_past_block th ta h nx bd tr a (i : nat) blk s :
  h !! a = Some blk -> (length blk <= i)%nat ->
  store E (Ptr a (Z.of_nat i)) s (World E th ta h nx bd tr) = Undefined.
Proof.
  intros Hb Hi. unfold store. cbn. rewrite Hb.
  replace (Z.of_nat i <? Z.of_nat (length blk)) with false by (symmetry; apply Z.ltb_ge; lia).
  now rewrite andb_false_r.
Qed.

(** [destruct(n)] with [n] above the number of slots of the block. *)
Lemma destruct_past_block c sz al ta h nx bd tr mv (n : nat) :
  match mv with
  | Null => (0 < n)%nat
  | Ptr a o => o = 0 /\ exists blk, h !! a = Some blk /\ (length blk < n)%nat
  end ->
  forall R (k : M E R),
  (destruct E (Z.of_nat n) ;; k) (World E (Vector mv c sz al) ta h nx bd tr) = Undefined.
Proof.
  intros Hmv R k. apply bind_undefined.
  unfold destruct, for_loop. rewrite Z.sub_0_r, Nat2Z.id. apply bind_undefined.
  destruct mv as [|a o].
  - destruct n as [|n]; [lia|]. reflexivity.
  - destruct Hmv as (-> & blk & Hb & Hn).
    replace n with (length blk + S (n - S (length blk)))%nat by lia.
    change 0 with (Z.of_nat 0) at 1.
    rewrite for_range_app.
    erewrite bind_ret
      by (apply destroy_own_range_ok with (i := 0%nat) (blk := blk); [exact Hb | lia]).
    cbn [for_range]. apply bind_undefined. mget.
    unfold destroy_at. apply bind_undefined.
    replace (0 + (Z.of_nat 0 + Z.of_nat (length blk))) with (Z.of_nat (length blk)) by lia.
    eapply store_past_block; [apply lookup_insert_eq|].
    rewrite !length_app, length_take, length_replicate, length_drop. lia.
Qed.

(** X24.  [assign(first, last)] from a range of [n] elements of another
    vector destroys the first [n] elements of the destination, whatever its
    size (line 520 passes the length of the new range to [destruct]).  When
    [n] is at most the capacity, the destination ends with the [n] elements
    of the range in its own block, and exactly [n] destructions have taken
    place; when [n] exceeds the capacity, the destructions run past the
    block (or through the null pointer) before any reallocation: undefined
    behaviour. *)
Theorem assign_range_spec (w : world E) (xs ys : list E) (b src n : nat) :
  holds w xs ->
  other_holds w ys ->
  m_vector (that E w) = Ptr b 0 ->
  m_vector (this E w) <> Ptr b 0 ->
  (src + n <= length ys)%nat ->
  Z.of_nat n < SizeT.modulus ->
  (Z.of_nat n <= m_capacity (this E w) ->
   exists w',
     assign_range E (Ptr b (Z.of_nat src)) (Ptr b (Z.of_nat (src + n))) w = Ret () w'
     /\ holds w' (take n (drop src ys))
     /\ m_capacity (this E w') = m_capacity (this E w)
     /\ m_vector (this E w') = m_vector (this E w)
     /\ that E w' = that E w
     /\ trace E w'
        = trace E w
            ++ match m_vector (this E w) with
               | Null => []
               | Ptr a _ =>
                   (Destroyed a <$> seqZ 0 (Z.of_nat n))
                   ++ (Constructed a <$> seqZ 0 (Z.of_nat n))
               end)
  /\ (m_capacity (this E w) < Z.of_nat n ->
      assign_range E (Ptr b (Z.of_nat src)) (Ptr b (Z.of_nat (src + n))) w = Undefined).
Proof.
  intros Hw Hoh Hov Hdist Hn Hmod.
  destruct (other_range w ys b src n Hoh Hov Hn) as (Hbd & Hb & blk & Hblk & Hlen & Hvals).
  assert (Hl : length (take n (drop src ys)) = n).
  { rewrite length_take, length_drop. lia. }
  destruct w as [[mv c sz al] ta h nx bd tr].
  unfold holds in Hw. norm_in Hw. norm_in Hov. norm_in Hbd. norm_in Hb. norm_in Hblk.
  norm_in Hdist. norm. subst bd.
  destruct Hw as (_ & -> & Hmv).
  unfold assign_range, std_distance, iterator_minus. cbn [ptr_diff].
  rewrite Nat.eqb_refl.
  replace (Z.of_nat (src + n) - Z.of_nat src) with (Z.of_nat n) by lia.
  rewrite wrap_small by lia.
  split.
  - intros Hfit. destruct mv as [|a o].
    + destruct Hmv as [-> ->]. assert (n = 0%nat) as -> by lia.
      eexists. split; [reflexivity|]. unfold with_this, holds. norm.
      rewrite take_0, app_nil_r. now repeat split.
    + destruct Hmv as (-> & Ha & ablk & Hablk & Halen & Hatake).
      assert (Hab : a <> b) by congruence.
      unfold destruct, for_loop. rewrite Z.sub_0_r, Nat2Z.id.
      mstep ltac:(apply destroy_own_range_ok with (i := 0%nat) (blk := ablk);
                  [exact Hablk | lia]).
      mrun. mget.
      replace (c <? Z.of_nat n) with false by (symmetry; apply Z.ltb_ge; lia).
      mget. unfold construct_counting, for_loop. rewrite Z.sub_0_r, Nat2Z.id.
      change (Z.of_nat 0) with 0.
      match goal with |- context [World E _ _ (<[a := ?tb]> h) nx None ?tt] =>
        pose proof (construct_counting_range_ok c al ta nx a b src blk Hab n 0 0
                      (<[a := tb]> h) tt tb) as Hcc
      end.
      change (Z.of_nat 0) with 0 in Hcc.
      rewrite Hcc;
        [|apply lookup_insert_eq|rewrite lookup_insert_ne by exact Hab; exact Hblk
         |lia|rewrite !length_app, length_take, length_replicate, length_drop; lia|lia].
      clear Hcc.
      eexists. split; [reflexivity|]. unfold holds. norm.
      rewrite insert_insert_eq, Nat.add_0_r, take_0, app_nil_l, Hvals.
      cbn [Nat.add take app].
      split; [|split; [reflexivity|split; [reflexivity|split; [reflexivity|]]]].
      * split; [reflexivity|]. split; [now rewrite Hl|].
        split; [reflexivity|]. split; [exact Ha|].
        eexists. split; [apply lookup_insert_eq|].
        split.
        { rewrite length_app, length_fmap, Hl, length_drop, !length_app, length_take,
            length_replicate, length_drop. lia. }
        rewrite Hl. apply take_app_length'. now rewrite length_fmap, Hl.
      * now rewrite <- !app_assoc.
  - intros Hbig. apply destruct_past_block.
    destruct mv as [|a o].
    + destruct Hmv as [-> _]. lia.
    + destruct Hmv as (-> & _ & ablk & Hablk & Halen & _).
      split; [reflexivity|]. exists ablk. split; [exact Hablk | lia].
Qed.

(** ** Assigning a value list with [operator=] *)

Lemma on_other_ret {R} (m : M E R) (w w1 : world E) r :
  m (swap_roles E w) = Ret r w1 -> on_other E m w = Ret r (swap_roles E w1).
Proof. intros H. unfold on_other. now rewrite H. Qed.

Lemma vector_destroy_null al ta h nx bd tr :
  vector_destroy E (World E (Vector Null 0 0 al) ta h nx bd tr)
  = Ret () (World E (Vector Null 0 0 al) ta h nx bd tr).
Proof. reflexivity. Qed.

(** X25.  [operator=(values)] builds a temporary vector from the list, swaps
    it with [*this] and destroys it: the vector ends with the values of the
    list in a fresh block of exactly as many slots, each of its former
    elements has been destroyed once, and its former block has been released
    after the new one was populated.  The vector keeps its allocator unless
    the allocator propagates on swap or is always equal, in which case it
    takes over the default-constructed allocator of the temporary. *)
Theorem assign_init_list_spec (w : world E) (xs values : list E) :
  holds w xs ->
  Z.of_nat (length values) <= SizeT.ptrdiff_max ->
  exists w',
    assign_init_list E A values w = Ret () w'
    /\ holds w' values
    /\ m_capacity (this E w') = Z.of_nat (length values)
    /\ m_vector (this E w') = Ptr (next_block E w) 0
    /\ m_allocator (this E w')
       = (if propagate_on_container_swap A || is_always_equal A
          then m_allocator vector_default else m_allocator (this E w))
    /\ that E w' = that E w
    /\ blocks E w'
       = match m_vector (this E w) with
         | Null => <[next_block E w := Some <$> values]> (blocks E w)
         | Ptr a _ => delete a (<[next_block E w := Some <$> values]> (blocks E w))
         end
    /\ trace E w'
       = trace E w ++ [Allocated (next_block E w) (Z.of_nat (length values))]
           ++ (Constructed (next_block E w) <$> seqZ 0 (Z.of_nat (length values)))
           ++ match m_vector (this E w) with
              | Null => []
              | Ptr a _ => (Destroyed a <$> seqZ 0 (Z.of_nat (length xs))) ++ [Released a]
              end.
Proof.
  destruct w as [[mv c sz al] ta h nx bd tr]. unfold holds. norm.
  intros (-> & -> & Hmv) Hn.
  unfold assign_init_list, with_local. norm.
  set (al' := if propagate_on_container_swap A || is_always_equal A
              then m_allocator vector_default else al).
  set (tal := if propagate_on_container_swap A || is_always_equal A
              then al else m_allocator vector_default).
  assert (Hfirst : forall R (k : M E R),
    (on_other E (vector_init_list E values) ;; on_other E (swap E A) ;; k)
      (World E (Vector mv c (Z.of_nat (length xs)) al) vector_default h nx None tr)
    = k (World E (Vector (Ptr nx 0) (Z.of_nat (length values)) (Z.of_nat (length values)) al')
           (Vector mv c (Z.of_nat (length xs)) tal)
           (<[nx := Some <$> values]> h) (S nx) None
           (tr ++ [Allocated nx (Z.of_nat (length values))]
               ++ (Constructed nx <$> seqZ 0 (Z.of_nat (length values)))))).
  { intros R k.
    mstep ltac:(apply on_other_ret; unfold swap_roles, vector_default; norm;
                apply vector_init_list_ok; exact Hn).
    mstep ltac:(apply on_other_ret; reflexivity).
    unfold swap_roles, al', tal, vector_default. norm.
    now destruct (propagate_on_container_swap A || is_always_equal A). }
  destruct mv as [|a o].
  - destruct Hmv as [-> ->]. cbn [length] in *. change (Z.of_nat 0) with 0 in *.
    rewrite Hfirst.
    erewrite on_other_ret by (unfold swap_roles; norm; apply vector_destroy_null).
    eexists. split; [reflexivity|]. unfold swap_roles. norm.
    split; [|repeat split; now rewrite ?app_nil_r].
    split; [reflexivity|]. split; [reflexivity|].
    split; [reflexivity|]. split; [lia|].
    eexists. split; [apply lookup_insert_eq|].
    split; [now rewrite length_fmap|].
    rewrite <- (length_fmap Some values). apply firstn_all.
  - destruct Hmv as (-> & Ha & blk & Hb & Hlen & Htake).
    pose proof (holds_length _ _ Htake) as Hvl.
    rewrite Hfirst.
    erewrite on_other_ret.
    2:{ unfold swap_roles, vector_destroy. norm. mget. mget.
        apply deallocate_and_destruct_ok with (blk := blk);
          [rewrite lookup_insert_ne by lia; exact Hb | lia]. }
    eexists. split; [reflexivity|]. unfold swap_roles. norm.
    split; [|repeat split; now rewrite <- ?app_assoc].
    split; [reflexivity|]. split; [reflexivity|].
    split; [reflexivity|]. split; [lia|].
    eexists. split; [rewrite lookup_delete_ne by lia; apply lookup_insert_eq|].
    split; [now rewrite length_fmap|].
    rewrite <- (length_fmap Some values). apply firstn_all.
Qed.

(** ** Iterator differences *)

(** X26.  The difference of two iterators of a vector has the wrong sign:
    for the iterators at the indices [i] and [j] of a well-formed vector,
    [(begin() + j) - (begin() + i)] is [i - j], and so is
    [std::distance(begin() + i, begin() + j)]; in particular
    [end() - begin()] is [- size()].  With its arguments exchanged, as the
    member functions call it, [std::distance(pos, begin())] is the index of
    [pos]. *)
Theorem iterator_difference_reversed (w : world E) (vals : list E) (i j : nat) :
  holds w vals ->
  (i <= length vals)%nat -> (j <= length vals)%nat ->
  exists b e,
    begin_ E w = Ret b w
    /\ end_ E w = Ret e w
    /\ iterator_minus (ptr_add b (Z.of_nat j)) (ptr_add b (Z.of_nat i))
       = Some (Z.of_nat i - Z.of_nat j)
    /\ std_distance (ptr_add b (Z.of_nat i)) (ptr_add b (Z.of_nat j))
       = Some (Z.of_nat i - Z.of_nat j)
    /\ iterator_minus e b = Some (- Z.of_nat (length vals))
    /\ std_distance (ptr_add b (Z.of_nat i)) b = Some (Z.of_nat i).
Proof.
  destruct w as [[mv c sz al] ta h nx bd tr]. unfold holds. norm.
  intros (-> & -> & Hmv) Hi Hj.
  unfold begin_, end_, get_m_vector, size. 
  destruct mv as [|a o].
  - destruct Hmv as [_ ->]. cbn [length] in *.
    assert (i = 0%nat) as -> by lia. assert (j = 0%nat) as -> by lia.
    exists Null, Null. now repeat split.
  - destruct Hmv as (-> & _).
    exists (Ptr a 0), (Ptr a (0 + Z.of_nat (length vals))).
    split; [reflexivity|]. split; [reflexivity|].
    unfold std_distance, iterator_minus. cbn [ptr_add ptr_diff].
    rewrite Nat.eqb_refl.
    repeat split; f_equal; lia.
Qed.

End Proofs.

(** ** The claims on concrete vectors *)

(** Witness of C1: a single-element insert, an append and a list insert
    into a default-constructed vector, and three appends to it. *)
Lemma growth_policy_witness :
  (exists p (w' : world int_type),
     (b ← begin_ int_type; emplace int_type (ptr_add b 0) Lvalue (Outside 5))
       (start int_type) = Ret p w'
     /\ m_capacity (this _ w') = 2)
  /\ (exists w' : world int_type,
        push_back int_type Lvalue 5 (start int_type) = Ret () w'
        /\ m_capacity (this _ w') = 2)
  /\ (exists p (w' : world int_type) j,
        (b ← begin_ int_type; insert_list int_type (ptr_add b 0) [7; 8; 9])
          (start int_type) = Ret p w'
        /\ m_capacity (this _ w') = 1 * 2 ^ j
        /\ 3 <= m_capacity (this _ w'))
  /\ exists w' : world int_type,
       appends int_type Lvalue [1; 2; 3] (start int_type) = Ret () w'
       /\ m_size (this _ w') = 3
       /\ contents _ w' (this _ w') = Some [1; 2; 3]
       /\ doubled_power (m_capacity (this _ w'))
       /\ 3 <= m_capacity (this _ w') <= 6.
Proof.
  destruct (growth_policy int_type (start int_type) [] [7; 8; 9] [1; 2; 3] 0 Lvalue 5)
    as (Hone & Hlist & Happ).
  - unfold holds. cbn. repeat split.
  - cbn. lia.
  - cbn. lia.
  - destruct Hone as [(p & w1 & Hrun1 & Hc1 & _) (w2 & Hrun2 & Hc2 & _)]; [cbn; lia|].
    destruct Hlist as (q & w3 & j & Hrun3 & _ & Hc3 & Hge3 & _); [cbn; lia|].
    destruct Happ as (w4 & Hrun4 & Hsz & Hc & Hp & Hle & _);
      [reflexivity | reflexivity | cbn; lia | cbn; lia |].
    split; [exists p, w1; split; [exact Hrun1 | exact Hc1]|].
    split; [exists w2; split; [exact Hrun2 | exact Hc2]|].
    split; [exists q, w3, j; split; [exact Hrun3 | split; [exact Hc3 | exact Hge3]]|].
    exists w4. repeat split; try assumption; cbn in Hle; lia.
Defined.

(** Counterexample to C1 as stated: one append to a default-constructed
    vector leaves capacity 2, and the smallest value of 1, 2, 4, 8, ... that
    is at least 1 is 1. *)
Lemma doubling_law_counterexample :
  exists w' : world int_type,
    appends int_type Lvalue [7] (start int_type) = Ret () w'
    /\ m_capacity (this _ w') = 2
    /\ smallest_doubling 1 = 1
    /\ m_capacity (this _ w') <> smallest_doubling 1.
Proof.
  eexists. split; [vm_compute; reflexivity|].
  split; [reflexivity|]. split; [reflexivity|]. discriminate.
Qed.

(** The value-list insert counts the inserted elements when it grows:
    seven values into [{1, 2, 3}] (capacity 4) double the capacity twice. *)
Lemma insert_list_doubles_twice :
  exists before after : world int_type,
    appends int_type Lvalue [1; 2; 3] (start int_type) = Ret () before
    /\ m_capacity (this _ before) = 4
    /\ (b ← begin_ int_type;
        insert_list int_type (ptr_add b 1) [8; 9; 10; 11; 12; 13; 14] ;; mret ()) before
       = Ret () after
    /\ m_capacity (this _ after) = 16
    /\ contents _ after (this _ after) = Some [1; 8; 9; 10; 11; 12; 13; 14; 2; 3].
Proof.
  eexists _, _. split; [vm_compute; reflexivity|].
  split; [vm_compute; reflexivity|].
  split; [vm_compute; reflexivity|].
  split; vm_compute; reflexivity.
Qed.

(** C2 on a failing input: a vector holding one element in a block of two
    slots, of an element type whose copy may throw, and an element
    construction forced to fail during the next append.  Through
    [emplace(end(), value)] and through [push_back(value)] alike the failure
    propagates and leaves size and contents as they were, but [capacity()]
    now reads 4 instead of 2: line 755 doubled [m_capacity] before the
    reallocation threw. *)
Theorem append_failure_changes_capacity :
  exists before after after' : world throwing_type,
    push_back throwing_type Lvalue 1 (start throwing_type) = Ret () before
    /\ (fail_after 0 ;; e ← end_ throwing_type; emplace throwing_type e Lvalue (Outside 2)) before
       = Throw ElementFailure after
    /\ (fail_after 1 ;; push_back throwing_type Lvalue 2) before
       = Throw ElementFailure after'
    /\ m_size (this _ before) = 1
    /\ contents _ before (this _ before) = Some [1]
    /\ m_capacity (this _ before) = 2
    /\ m_size (this _ after) = 1
    /\ contents _ after (this _ after) = Some [1]
    /\ m_vector (this _ after) = m_vector (this _ before)
    /\ m_capacity (this _ after) = 4
    /\ this _ after' = this _ after.
Proof.
  eexists _, _, _. split; [vm_compute; reflexivity|].
  split; [vm_compute; reflexivity|].
  split; [vm_compute; reflexivity|].
  repeat split; vm_compute; reflexivity.
Qed.

(** C3 on a failing input: [b = std::move(a)] with [a = {1, 2, 3}], [b]
    default-constructed and [std::allocator].  [a] is left empty with
    capacity 0, but so is [b]: lines 459-460 read [other.m_size] and
    [other.m_capacity] after [reset(other)] has zeroed them. *)
Theorem move_assign_loses_elements :
  exists before after : world int_type,
    on_other int_type (vector_init_list int_type [1; 2; 3]) (start int_type)
      = Ret () before
    /\ contents _ before (that _ before) = Some [1; 2; 3]
    /\ move_assign int_type std_allocator before = Ret () after
    /\ m_size (this _ after) = 0
    /\ m_capacity (this _ after) = 0
    /\ contents _ after (this _ after) = Some []
    /\ that _ after = vector_default.
Proof.
  eexists _, _. split; [vm_compute; reflexivity|].
  split; [vm_compute; reflexivity|].
  split; [vm_compute; reflexivity|].
  repeat split; vm_compute; reflexivity.
Qed.

(** C4 on a failing input: [reserve(4)] on a default-constructed vector,
    then four appends.  The size never exceeds 4, yet the fourth append
    finds [3 + 1 < 4] false at line 737 and reallocates to capacity 8. *)
Theorem reserve_then_appends_reallocates :
  exists reserved after : world int_type,
    reserve int_type 4 (start int_type) = Ret () reserved
    /\ m_capacity (this _ reserved) = 4
    /\ appends int_type Lvalue [1; 2; 3; 4] reserved = Ret () after
    /\ m_size (this _ after) = 4
    /\ m_capacity (this _ after) = 8
    /\ m_vector (this _ after) <> m_vector (this _ reserved).
Proof.
  eexists _, _. split; [vm_compute; reflexivity|].
  split; [vm_compute; reflexivity|].
  split; [vm_compute; reflexivity|].
  repeat split; vm_compute; discriminate || reflexivity.
Qed.

(** C5 on failing inputs.  With [{1, 2}] in a block of eight slots,
    [insert(end(), 3, 9)] takes line 662 and appends a single 9: the size
    grows by 1, not by 3.  With [{1, 2, 3}] in a block of four slots,
    [insert(begin() + 1, 10, 9)] grows the capacity to 8 only (line 671
    compares with [m_size], not [m_size + count]) and writes past the block. *)
Theorem insert_n_miscounts :
  exists before after : world int_type,
    (reserve int_type 8 ;; appends int_type Lvalue [1; 2]) (start int_type)
      = Ret () before
    /\ (e ← end_ int_type; insert_n int_type e 3 (Outside 9) ;; mret ()) before = Ret () after
    /\ m_size (this _ before) = 2
    /\ m_size (this _ after) = 3
    /\ contents _ after (this _ after) = Some [1; 2; 9]
    /\ (appends int_type Lvalue [1; 2; 3] ;;
        b ← begin_ int_type; insert_n int_type (ptr_add b 1) 10 (Outside 9) ;; mret ())
         (start int_type) = Undefined.
Proof.
  eexists _, _. split; [vm_compute; reflexivity|].
  split; [vm_compute; reflexivity|].
  repeat split; vm_compute; reflexivity.
Qed.

(** C6 on a failing input: copy assignment to [{1, 2, 3}] from a
    default-constructed vector.  Both satisfy the representation invariant
    before; afterwards the base address is null while the capacity is still
    3 (lines 412-413 reset [m_vector] and [m_size] only), and the old block
    is still allocated. *)
Theorem copy_assign_from_empty_breaks_invariant :
  exists before after : world int_type,
    vector_init_list int_type [1; 2; 3] (start int_type) = Ret () before
    /\ rep_inv before (this _ before)
    /\ rep_inv before (that _ before)
    /\ copy_assign int_type std_allocator before = Ret () after
    /\ m_vector (this _ after) = Null
    /\ m_capacity (this _ after) = 3
    /\ blocks _ after !! 0%nat = Some [Some 1; Some 2; Some 3]
    /\ ~ rep_inv after (this _ after).
Proof.
  eexists _, _. split; [vm_compute; reflexivity|].
  split.
  { split; [vm_compute; split; discriminate|].
    split; [split; discriminate|]. exists [1; 2; 3]. vm_compute. reflexivity. }
  split.
  { split; [vm_compute; split; discriminate|].
    split; [split; reflexivity|]. exists []. vm_compute. reflexivity. }
  split; [vm_compute; reflexivity|].
  split; [vm_compute; reflexivity|].
  split; [vm_compute; reflexivity|].
  split; [vm_compute; reflexivity|].
  intros (_ & [Hnull _] & _). specialize (Hnull eq_refl). discriminate Hnull.
Qed.

(** Witness of C7: after [clear()] on [{1, 2, 3}] the size is 0, the
    capacity is still 3, the base address is not null and the block is still
    allocated, its three slots raw. *)
Lemma clear_keeps_block_witness :
  exists w' : world int_type,
    clear int_type (filled int_type [1; 2; 3] 0) = Ret () w'
    /\ m_size (this _ w') = 0
    /\ m_capacity (this _ w') = 3
    /\ m_vector (this _ w') = Ptr 0 0
    /\ blocks _ w' !! 0%nat = Some [None; None; None]
    /\ trace _ w' = [Destroyed 0 0; Destroyed 0 1; Destroyed 0 2].
Proof.
  destruct (clear_keeps_block int_type (filled int_type [1; 2; 3] 0) 0
              [Some 1; Some 2; Some 3])
    as (w' & Hrun & Hsz & Hcap & Hmv & Hblk & _ & Htr).
  - reflexivity.
  - reflexivity.
  - cbn. lia.
  - exists w'. repeat split; assumption.
Defined.

(** Counterexample to C7 as stated: [clear()] on [{1, 2, 3}] does not end
    with capacity 0 and no block. *)
Lemma clear_releases_block_counterexample :
  exists w' : world int_type,
    clear int_type (filled int_type [1; 2; 3] 0) = Ret () w'
    /\ ~ (m_size (this _ w') = 0
          /\ m_capacity (this _ w') = 0
          /\ m_vector (this _ w') = Null
          /\ blocks _ w' !! 0%nat = None).
Proof.
  eexists. split; [vm_compute; reflexivity|].
  intros (_ & Hcap & _). vm_compute in Hcap. discriminate Hcap.
Qed.

(** Witness of C8: [erase] of [[1, 3)] on [{10, 20, 30, 40}] yields
    [{10, 40}]. *)
Lemma erase_range_witness :
  exists w' : world int_type,
    erase_range int_type (Ptr 0 1) (Ptr 0 3) (filled int_type [10; 20; 30; 40] 0)
      = Ret (Ptr 0 1) w'
    /\ m_size (this _ w') = 2
    /\ m_capacity (this _ w') = 4
    /\ contents _ w' (this _ w') = Some [10; 40]
    /\ trace _ w' = [Destroyed 0 1; Destroyed 0 2].
Proof.
  destruct (erase_range_spec int_type (filled int_type [10; 20; 30; 40] 0) 0
              [Some 10; Some 20; Some 30; Some 40] 1 3 [10; 20; 30; 40])
    as (w' & Hrun & Hsz & Hcap & _ & Hc & Htr).
  - reflexivity.
  - reflexivity.
  - reflexivity.
  - cbn. lia.
  - cbn. unfold SizeT.modulus. lia.
  - lia.
  - cbn. lia.
  - reflexivity.
  - exists w'. repeat split; assumption.
Defined.

(** C9 on a failing input: two empty vectors [a] and [b].  [a > b] returns
    true although [b < a] is false: line 487 returns the negation of
    [*this < other], the body of [operator>=]. *)
Theorem op_gt_is_not_flipped_lt :
  op_eq int_type (start int_type) = Ret true (start int_type)
  /\ op_lt int_type (start int_type) = Ret false (start int_type)
  /\ on_other int_type (op_lt int_type) (start int_type) = Ret false (start int_type)
  /\ op_gt int_type (start int_type) = Ret true (start int_type)
  /\ op_ge int_type (start int_type) = Ret true (start int_type).
Proof.
  assert (Hlt : op_lt int_type (start int_type) = Ret false (start int_type)).
  { apply (op_lt_other_empty int_type (start int_type) []); unfold other_holds, holds; cbn;
      repeat split. }
  split; [reflexivity|]. split; [exact Hlt|].
  split; [reflexivity|].
  split; [unfold op_gt | unfold op_ge]; now rewrite (bind_ret _ _ _ _ _ _ Hlt).
Qed.

(** Witness of C10: after [reserve(4)] on a default-constructed vector a
    block of four slots is allocated and [data()] is still null; on [{7}]
    [data()] is the base address. *)
Lemma data_null_when_empty_witness :
  exists w : world int_type,
    reserve int_type 4 (start int_type) = Ret () w
    /\ m_capacity (this _ w) = 4
    /\ m_vector (this _ w) = Ptr 0 0
    /\ data int_type w = Ret Null w
    /\ data int_type (filled int_type [7] 0) = Ret (Ptr 0 0) (filled int_type [7] 0).
Proof.
  eexists. split; [vm_compute; reflexivity|].
  split; [reflexivity|]. split; [reflexivity|]. split.
  - apply (proj1 (data_null_when_empty int_type _)). reflexivity.
  - apply (proj2 (data_null_when_empty int_type (filled int_type [7] 0))). discriminate.
Defined.

(** ** An argument that is an element of the vector *)

(** [v.insert(v.begin(), v[2])] on [{10, 20, 30}] with spare capacity reads
    [v[2]] after the shift and inserts 20, as does
    [v.insert(v.begin(), 2, v[2])] with 10; where the storage grows, and in
    [v.resize(5, v[0])] and [v.assign(5, v[0])] on a full [{1, 2, 3}], the
    reference is read after the old block has been released. *)
Lemma reference_to_own_element :
  (exists p w',
     insert int_type (Ptr 0 0) Lvalue (Inside (Ptr 0 2)) (filled int_type [10; 20; 30] 5)
     = Ret p w'
     /\ contents _ w' (this _ w') = Some [20; 10; 20; 30])
  /\ (exists p w',
        insert_n int_type (Ptr 0 0) 2 (Inside (Ptr 0 2)) (filled int_type [10; 20; 30] 5)
        = Ret p w'
        /\ contents _ w' (this _ w') = Some [10; 10; 10; 20; 30])
  /\ insert int_type (Ptr 0 0) Lvalue (Inside (Ptr 0 2)) (filled int_type [10; 20; 30] 0)
     = Undefined
  /\ resize int_type 5 (Inside (Ptr 0 0)) (filled int_type [1; 2; 3] 0) = Undefined
  /\ assign_n int_type 5 (Inside (Ptr 0 0)) (filled int_type [1; 2; 3] 0) = Undefined.
Proof.
  split; [eexists _, _; split; vm_compute; reflexivity|].
  split; [eexists _, _; split; vm_compute; reflexivity|].
  repeat split; vm_compute; reflexivity.
Qed.

(** ** The further properties on concrete vectors *)

(** Witness of X1: [at(1)] and [at(3)] on [{10, 20, 30}]. *)
Lemma at_checked_witness :
  at_ int_type 1 (filled int_type [10; 20; 30] 0)
    = Ret 20 (filled int_type [10; 20; 30] 0)
  /\ at_ int_type 3 (filled int_type [10; 20; 30] 0)
    = Throw OutOfRange (filled int_type [10; 20; 30] 0).
Proof.
  split.
  - apply (at_checked int_type (filled int_type [10; 20; 30] 0) [10; 20; 30] 1).
    + reflexivity.
    + cbn. lia.
  - apply (at_checked int_type (filled int_type [10; 20; 30] 0) [10; 20; 30] 3).
    + reflexivity.
    + cbn. lia.
Defined.

(** Witness of X2: [operator[]], [front()] and [back()] on [{10, 20, 30}]. *)
Lemma unchecked_access_witness :
  subscript int_type 2 (filled int_type [10; 20; 30] 0)
    = Ret 30 (filled int_type [10; 20; 30] 0)
  /\ subscript int_type 3 (filled int_type [10; 20; 30] 0) = Terminated
  /\ front int_type (filled int_type [10; 20; 30] 0)
    = Ret 10 (filled int_type [10; 20; 30] 0)
  /\ back int_type (filled int_type [10; 20; 30] 0)
    = Ret 30 (filled int_type [10; 20; 30] 0).
Proof.
  destruct (unchecked_access int_type (filled int_type [10; 20; 30] 0) [10; 20; 30])
    as (Hsub & Hfront & Hback).
  - reflexivity.
  - cbn. lia.
  - split; [exact (Hsub 2%nat)|]. split; [exact (Hsub 3%nat)|].
    split; [now apply Hfront | now apply Hback].
Defined.

(** Witness of X3: push 1, push 2, pop, push 3 on a default-constructed
    vector. *)
Lemma tail_ops_witness :
  exists w' : world int_type,
    tail_ops int_type [@Push int_type Lvalue 1; @Push int_type Rvalue 2; Pop; @Push int_type Lvalue 3] (start int_type)
      = Ret () w'
    /\ contents _ w' (this _ w') = Some [1; 3]
    /\ m_size (this _ w') = 2.
Proof.
  destruct (tail_ops_spec int_type [@Push int_type Lvalue 1; @Push int_type Rvalue 2; Pop; @Push int_type Lvalue 3]
              (start int_type) [] [1; 3])
    as (w' & Hrun & _ & Hc & Hsz).
  - unfold holds. cbn. repeat split.
  - reflexivity.
  - cbn. lia.
  - exists w'. split; [exact Hrun|]. split; [exact Hc | exact Hsz].
Defined.

(** Witness of X4: [pop_back()] on a default-constructed vector. *)
Lemma pop_back_empty_witness :
  pop_back int_type (start int_type) = Undefined.
Proof.
  apply (pop_back_empty int_type (start int_type)).
  unfold holds. cbn. repeat split.
Defined.

(** Witness of X5: [reserve] on [{1, 2}] with capacity 2. *)
Lemma reserve_witness :
  reserve int_type (2 ^ 63) (filled int_type [1; 2] 0)
    = Throw LengthError (filled int_type [1; 2] 0)
  /\ reserve int_type 1 (filled int_type [1; 2] 0) = Ret () (filled int_type [1; 2] 0)
  /\ exists w' : world int_type,
       reserve int_type 5 (filled int_type [1; 2] 0) = Ret () w'
       /\ holds w' [1; 2]
       /\ m_capacity (this _ w') = 5.
Proof.
  destruct (reserve_spec int_type (filled int_type [1; 2] 0) [1; 2] (2 ^ 63)) as (H1 & _).
  { unfold holds. cbn. repeat split; try lia. now exists [Some 1; Some 2]. }
  destruct (reserve_spec int_type (filled int_type [1; 2] 0) [1; 2] 1) as (_ & H2 & _).
  { unfold holds. cbn. repeat split; try lia. now exists [Some 1; Some 2]. }
  destruct (reserve_spec int_type (filled int_type [1; 2] 0) [1; 2] 5) as (_ & _ & H3).
  { unfold holds. cbn. repeat split; try lia. now exists [Some 1; Some 2]. }
  split; [apply H1; reflexivity|].
  split; [apply H2; [discriminate | cbn; lia]|].
  destruct H3 as (w' & Hrun & Hw' & Hc & _).
  { cbn. unfold SizeT.ptrdiff_max. lia. }
  exists w'. split; [exact Hrun|]. split; [exact Hw' | exact Hc].
Defined.

(** Witness of X6: [reserve(8)] on [{1, 2, 3}] of a throwing type when the
    second copy fails. *)
Lemma reserve_strong_guarantee_witness :
  exists w' : world throwing_type,
    (fail_after 1 ;; reserve throwing_type 8) (filled throwing_type [1; 2; 3] 0)
      = Throw ElementFailure w'
    /\ this _ w' = this _ (filled throwing_type [1; 2; 3] 0)
    /\ blocks _ w' = blocks _ (filled throwing_type [1; 2; 3] 0)
    /\ contents _ w' (this _ w') = Some [1; 2; 3]
    /\ trace _ w' = [Allocated 1 8; Constructed 1 0; Destroyed 1 0; Released 1].
Proof.
  destruct (reserve_strong_guarantee throwing_type (filled throwing_type [1; 2; 3] 0)
              [1; 2; 3] 8 1)
    as (w' & Hrun & Hthis & _ & Hblocks & Hc & Htr).
  - unfold holds. cbn. repeat split; try lia. now exists [Some 1; Some 2; Some 3].
  - intros b Hb. cbn in *. apply lookup_singleton_ne. lia.
  - reflexivity.
  - cbn. lia.
  - cbn. unfold SizeT.ptrdiff_max. lia.
  - exists w'. split; [exact Hrun|]. split; [exact Hthis|]. split; [exact Hblocks|].
    split; [exact Hc | exact Htr].
Defined.

(** Witness of X7: [shrink_to_fit()] on [{1, 2}] with capacity 5. *)
Lemma shrink_to_fit_witness :
  exists w' : world int_type,
    shrink_to_fit int_type (filled int_type [1; 2] 3) = Ret () w'
    /\ holds w' [1; 2]
    /\ m_capacity (this _ w') = 2.
Proof.
  destruct (shrink_to_fit_spec int_type (filled int_type [1; 2] 3) [1; 2])
    as (w' & Hrun & Hw' & Hc & _).
  - unfold holds. cbn. repeat split; try lia.
    now exists [Some 1; Some 2; None; None; None].
  - cbn. unfold SizeT.ptrdiff_max. lia.
  - exists w'. split; [exact Hrun|]. split; [exact Hw' | exact Hc].
Defined.

(** Witness of X8: [resize(5, 0)] and [resize(1, 0)] on [{1, 2, 3}]. *)
Lemma resize_witness :
  (exists w' : world int_type,
     resize int_type 5 (Outside 0) (filled int_type [1; 2; 3] 0) = Ret () w'
     /\ holds w' [1; 2; 3; 0; 0]
     /\ m_capacity (this _ w') = 5)
  /\ exists w' : world int_type,
       resize int_type 1 (Outside 0) (filled int_type [1; 2; 3] 0) = Ret () w'
       /\ holds w' [1]
       /\ m_capacity (this _ w') = 3.
Proof.
  split.
  - destruct (resize_spec int_type (filled int_type [1; 2; 3] 0) [1; 2; 3] 5 0)
      as (w' & Hrun & Hw' & Hc).
    + unfold holds. cbn. repeat split; try lia. now exists [Some 1; Some 2; Some 3].
    + cbn. unfold SizeT.ptrdiff_max. lia.
    + cbn. unfold SizeT.ptrdiff_max. lia.
    + exists w'. split; [exact Hrun|]. split; [exact Hw' | exact Hc].
  - destruct (resize_spec int_type (filled int_type [1; 2; 3] 0) [1; 2; 3] 1 0)
      as (w' & Hrun & Hw' & Hc).
    + unfold holds. cbn. repeat split; try lia. now exists [Some 1; Some 2; Some 3].
    + cbn. unfold SizeT.ptrdiff_max. lia.
    + cbn. unfold SizeT.ptrdiff_max. lia.
    + exists w'. split; [exact Hrun|]. split; [exact Hw' | exact Hc].
Defined.

(** Witness of X10: a vector constructed from [{4, 5, 6}]. *)
Lemma vector_init_list_witness :
  exists w' : world int_type,
    vector_init_list int_type [4; 5; 6] (start int_type) = Ret () w'
    /\ holds w' [4; 5; 6]
    /\ m_capacity (this _ w') = 3
    /\ trace _ w' = [Allocated 0 3; Constructed 0 0; Constructed 0 1; Constructed 0 2].
Proof.
  destruct (vector_init_list_spec int_type (start int_type) [4; 5; 6])
    as (w' & Hrun & Hw' & Hc & _ & _ & _ & Htr).
  - reflexivity.
  - cbn. unfold SizeT.ptrdiff_max. lia.
  - exists w'. split; [exact Hrun|]. split; [exact Hw'|]. split; [exact Hc | exact Htr].
Defined.

(** Witness of X11: the destructor on [{1, 2}]. *)
Lemma vector_destroy_witness :
  exists w' : world int_type,
    vector_destroy int_type (filled int_type [1; 2] 1) = Ret () w'
    /\ blocks _ w' = delete 0%nat (blocks _ (filled int_type [1; 2] 1))
    /\ trace _ w' = [Destroyed 0 0; Destroyed 0 1; Released 0].
Proof.
  destruct (vector_destroy_spec int_type (filled int_type [1; 2] 1) [1; 2])
    as (w' & Hrun & Hb & _).
  - unfold holds. cbn. repeat split; try lia. now exists [Some 1; Some 2; None].
  - exists w'. split; [exact Hrun|]. exact Hb.
Defined.

(** Witness of X12: [erase(begin() + 1)] on [{10, 20, 30}]. *)
Lemma erase_witness :
  exists w' : world int_type,
    erase int_type (Ptr 0 1) (filled int_type [10; 20; 30] 0) = Ret (Ptr 0 1) w'
    /\ holds w' [10; 30]
    /\ m_capacity (this _ w') = 3.
Proof.
  destruct (erase_spec int_type (filled int_type [10; 20; 30] 0) [10; 20; 30] 0 1)
    as (w' & Hrun & Hw' & Hc & _).
  - unfold holds. cbn. repeat split; try lia. now exists [Some 10; Some 20; Some 30].
  - reflexivity.
  - cbn. lia.
  - cbn. unfold SizeT.modulus. lia.
  - exists w'. split; [exact Hrun|]. split; [exact Hw' | exact Hc].
Defined.

(** Witness of X13: [erase(end())] on [{10, 20, 30}] with a spare slot. *)
Lemma erase_end_undefined_witness :
  (e ← end_ int_type; erase int_type e) (filled int_type [10; 20; 30] 1) = Undefined.
Proof.
  apply (erase_end_undefined int_type (filled int_type [10; 20; 30] 1) [10; 20; 30]).
  - unfold holds. cbn. repeat split; try lia.
    now exists [Some 10; Some 20; Some 30; None].
  - cbn. unfold SizeT.modulus. lia.
Defined.

(** Witness of X14: [assign(2, 9)] and [assign(5, 9)] on [{1, 2, 3}]. *)
Lemma assign_n_witness :
  (exists w' : world int_type,
     assign_n int_type 2 (Outside 9) (filled int_type [1; 2; 3] 0) = Ret () w'
     /\ holds w' [9; 9]
     /\ m_capacity (this _ w') = 3)
  /\ exists w' : world int_type,
       assign_n int_type 5 (Outside 9) (filled int_type [1; 2; 3] 0) = Ret () w'
       /\ holds w' [9; 9; 9; 9; 9]
       /\ m_capacity (this _ w') = 5.
Proof.
  split.
  - destruct (assign_n_spec int_type (filled int_type [1; 2; 3] 0) [1; 2; 3] 2 9)
      as (w' & Hrun & Hw' & Hc & _).
    + unfold holds. cbn. repeat split; try lia. now exists [Some 1; Some 2; Some 3].
    + cbn. unfold SizeT.ptrdiff_max. lia.
    + exists w'. split; [exact Hrun|]. split; [exact Hw' | exact Hc].
  - destruct (assign_n_spec int_type (filled int_type [1; 2; 3] 0) [1; 2; 3] 5 9)
      as (w' & Hrun & Hw' & Hc & _).
    + unfold holds. cbn. repeat split; try lia. now exists [Some 1; Some 2; Some 3].
    + cbn. unfold SizeT.ptrdiff_max. lia.
    + exists w'. split; [exact Hrun|]. split; [exact Hw' | exact Hc].
Defined.

(** Witness of X15: [assign({7, 8})] on [{1, 2, 3}]. *)
Lemma assign_list_witness :
  exists w' : world int_type,
    assign_list int_type [7; 8] (filled int_type [1; 2; 3] 0) = Ret () w'
    /\ holds w' [7; 8]
    /\ m_capacity (this _ w') = 3.
Proof.
  destruct (assign_list_spec int_type (filled int_type [1; 2; 3] 0) [1; 2; 3] [7; 8])
    as (w' & Hrun & Hw' & Hc & _).
  - unfold holds. cbn. repeat split; try lia. now exists [Some 1; Some 2; Some 3].
  - cbn. unfold SizeT.ptrdiff_max. lia.
  - exists w'. split; [exact Hrun|]. split; [exact Hw' | exact Hc].
Defined.

(** Witness of X16: [vector(3, 7)]. *)
Lemma vector_fill_witness :
  exists w' : world int_type,
    vector_fill int_type 3 7 (start int_type) = Ret () w'
    /\ holds w' [7; 7; 7]
    /\ m_capacity (this _ w') = 3.
Proof.
  destruct (vector_fill_spec int_type (start int_type) 3 7)
    as (w' & Hrun & Hw' & Hc & _).
  - reflexivity.
  - cbn. unfold SizeT.ptrdiff_max. lia.
  - exists w'. split; [exact Hrun|]. split; [exact Hw' | exact Hc].
Defined.

(** Witness of X17: [assign(2^63, 9)] on [{1, 2, 3}]. *)
Lemma assign_n_bad_alloc_witness :
  exists w' : world int_type,
    assign_n int_type (2 ^ 63) (Outside 9) (filled int_type [1; 2; 3] 0) = Throw BadAlloc w'
    /\ m_vector (this _ w') = Ptr 0 0
    /\ blocks _ w' !! 0%nat = None
    /\ vector_destroy int_type w' = Undefined.
Proof.
  destruct (assign_n_bad_alloc int_type (filled int_type [1; 2; 3] 0) [1; 2; 3] 0 (2 ^ 63) (Outside 9))
    as (w' & Hrun & Hv & Hb & _ & _ & Hd).
  - unfold holds. cbn. repeat split; try lia. now exists [Some 1; Some 2; Some 3].
  - reflexivity.
  - cbn. lia.
  - reflexivity.
  - exists w'. split; [exact Hrun|]. split; [exact Hv|]. split; [exact Hb | exact Hd].
Defined.

(** Witness of X18: [insert(begin() + 1, 42)] into the full vector
    [{10, 20, 30}]. *)
Lemma insert_witness :
  exists p (w' : world int_type),
    (b ← begin_ int_type; insert int_type (ptr_add b 1) Lvalue (Outside 42))
      (filled int_type [10; 20; 30] 0) = Ret p w'
    /\ p = ptr_add (m_vector (this _ w')) 1
    /\ holds w' [10; 42; 20; 30]
    /\ m_capacity (this _ w') = 6.
Proof.
  destruct (insert_spec int_type Lvalue 42 (filled int_type [10; 20; 30] 0) [10; 20; 30] 1)
    as (p & w' & Hrun & Hp & Hw' & Hc & _).
  - unfold holds. cbn. repeat split; try lia. now exists [Some 10; Some 20; Some 30].
  - cbn. lia.
  - cbn. lia.
  - exists p, w'. split; [exact Hrun|]. split; [exact Hp|]. split; [exact Hw' | exact Hc].
Defined.

(** Witness of X19: [insert(begin() + 1, 2, 7)] into [{10, 20, 30}] with
    three spare slots. *)
Lemma insert_n_interior_witness :
  exists w' : world int_type,
    insert_n int_type (Ptr 0 1) 2 (Outside 7) (filled int_type [10; 20; 30] 3) = Ret (Ptr 0 1) w'
    /\ holds w' [10; 7; 7; 20; 30]
    /\ m_capacity (this _ w') = 6.
Proof.
  destruct (insert_n_interior int_type (filled int_type [10; 20; 30] 3) [10; 20; 30] 0 1 2 7)
    as (w' & Hrun & Hw' & Hc & _).
  - unfold holds. cbn. repeat split; try lia.
    now exists [Some 10; Some 20; Some 30; None; None; None].
  - reflexivity.
  - cbn. lia.
  - cbn. lia.
  - cbn. unfold SizeT.ptrdiff_max. lia.
  - exists w'. split; [exact Hrun|]. split; [exact Hw' | exact Hc].
Defined.

(** Witness of X20: [insert(begin() + 1, {7, 8, 9, 11})] into the full vector
    [{10, 20, 30}]: the capacity doubles twice. *)
Lemma insert_list_witness :
  exists p (w' : world int_type),
    (b ← begin_ int_type; insert_list int_type (ptr_add b 1) [7; 8; 9; 11])
      (filled int_type [10; 20; 30] 0) = Ret p w'
    /\ holds w' [10; 7; 8; 9; 11; 20; 30]
    /\ 7 <= m_capacity (this _ w')
    /\ p = ptr_add (m_vector (this _ w')) 1.
Proof.
  destruct (insert_list_spec int_type (filled int_type [10; 20; 30] 0) [10; 20; 30]
              [7; 8; 9; 11] 1)
    as (p & w' & Hrun & Hw' & _ & _ & Hc & Hp & _).
  - unfold holds. cbn. repeat split; try lia. now exists [Some 10; Some 20; Some 30].
  - cbn. lia.
  - cbn. lia.
  - exists p, w'. split; [exact Hrun|]. split; [exact Hw'|]. split; [exact Hc|].
    apply Hp. discriminate.
Defined.

(** Witness of X21: copying [{10, 20, 30}] into a new vector. *)
Lemma vector_copy_witness :
  exists w' : world int_type,
    vector_copy int_type (beside (start int_type) [10; 20; 30]) = Ret () w'
    /\ holds w' [10; 20; 30]
    /\ other_holds w' [10; 20; 30]
    /\ m_capacity (this _ w') = 3.
Proof.
  destruct (vector_copy_spec int_type (beside (start int_type) [10; 20; 30]) [10; 20; 30])
    as (w' & Hrun & Hw' & Ho & Hc & _).
  - unfold other_holds, holds. cbn. repeat split; try lia.
    now exists [Some 10; Some 20; Some 30].
  - reflexivity.
  - reflexivity.
  - cbn. unfold SizeT.ptrdiff_max. lia.
  - exists w'. split; [exact Hrun|]. split; [exact Hw'|]. split; [exact Ho | exact Hc].
Defined.

(** Witness of X22: assigning [{10, 20, 30}] to [{1, 2}], which has no room
    for it. *)
Lemma copy_assign_witness :
  exists w' : world int_type,
    copy_assign int_type std_allocator (beside (filled int_type [1; 2] 0) [10; 20; 30])
      = Ret () w'
    /\ holds w' [10; 20; 30]
    /\ other_holds w' [10; 20; 30]
    /\ m_capacity (this _ w') = 3.
Proof.
  destruct (copy_assign_spec int_type std_allocator
              (beside (filled int_type [1; 2] 0) [10; 20; 30]) [1; 2] [10; 20; 30] 1)
    as (w' & Hrun & Hw' & Ho & Hc & _).
  - unfold holds. cbn. repeat split; try lia. now exists [Some 1; Some 2].
  - unfold other_holds, holds. cbn. repeat split; try lia.
    now exists [Some 10; Some 20; Some 30].
  - reflexivity.
  - discriminate.
  - cbn. unfold SizeT.ptrdiff_max. lia.
  - exists w'. split; [exact Hrun|]. split; [exact Hw'|]. split; [exact Ho | exact Hc].
Defined.

(** Witness of X23: a vector built from the two middle elements of
    [{10, 20, 30, 40}]. *)
Lemma vector_range_witness :
  exists w' : world int_type,
    vector_range int_type (Ptr 0 1) (Ptr 0 3) (beside (start int_type) [10; 20; 30; 40])
      = Ret () w'
    /\ holds w' [20; 30]
    /\ m_capacity (this _ w') = 2.
Proof.
  destruct (vector_range_spec int_type (beside (start int_type) [10; 20; 30; 40])
              [10; 20; 30; 40] 0 1 2)
    as (w' & Hrun & Hw' & _ & Hc & _).
  - unfold other_holds, holds. cbn. repeat split; try lia.
    now exists [Some 10; Some 20; Some 30; Some 40].
  - reflexivity.
  - cbn. lia.
  - cbn. unfold SizeT.ptrdiff_max. lia.
  - exists w'. split; [exact Hrun|]. split; [exact Hw' | exact Hc].
Defined.

(** Witness of X24: assigning the two middle elements of [{10, 20, 30, 40}]
    to [{1, 2, 3}], and the whole of it. *)
Lemma assign_range_witness :
  (exists w' : world int_type,
     assign_range int_type (Ptr 1 1) (Ptr 1 3)
       (beside (filled int_type [1; 2; 3] 0) [10; 20; 30; 40]) = Ret () w'
     /\ holds w' [20; 30])
  /\ assign_range int_type (Ptr 1 0) (Ptr 1 4)
       (beside (filled int_type [1; 2; 3] 0) [10; 20; 30; 40]) = Undefined.
Proof.
  split.
  - destruct (assign_range_spec int_type (beside (filled int_type [1; 2; 3] 0) [10; 20; 30; 40])
                [1; 2; 3] [10; 20; 30; 40] 1 1 2) as [Hfit _].
    + unfold holds. cbn. repeat split; try lia. now exists [Some 1; Some 2; Some 3].
    + unfold other_holds, holds. cbn. repeat split; try lia.
      now exists [Some 10; Some 20; Some 30; Some 40].
    + reflexivity.
    + discriminate.
    + cbn. lia.
    + cbn. unfold SizeT.modulus. lia.
    + destruct Hfit as (w' & Hrun & Hw' & _); [cbn; lia|].
      exists w'. split; [exact Hrun | exact Hw'].
  - destruct (assign_range_spec int_type (beside (filled int_type [1; 2; 3] 0) [10; 20; 30; 40])
                [1; 2; 3] [10; 20; 30; 40] 1 0 4) as [_ Hpast].
    + unfold holds. cbn. repeat split; try lia. now exists [Some 1; Some 2; Some 3].
    + unfold other_holds, holds. cbn. repeat split; try lia.
      now exists [Some 10; Some 20; Some 30; Some 40].
    + reflexivity.
    + discriminate.
    + cbn. lia.
    + cbn. unfold SizeT.modulus. lia.
    + apply Hpast. cbn. lia.
Defined.

(** Witness of X25: [v = {5, 6, 7}] on [{1, 2}]. *)
Lemma assign_init_list_witness :
  exists w' : world int_type,
    assign_init_list int_type std_allocator [5; 6; 7] (filled int_type [1; 2] 0) = Ret () w'
    /\ holds w' [5; 6; 7]
    /\ m_capacity (this _ w') = 3
    /\ trace _ w'
       = [Allocated 1 3; Constructed 1 0; Constructed 1 1; Constructed 1 2;
          Destroyed 0 0; Destroyed 0 1; Released 0].
Proof.
  destruct (assign_init_list_spec int_type std_allocator (filled int_type [1; 2] 0)
              [1; 2] [5; 6; 7])
    as (w' & Hrun & Hw' & Hc & _ & _ & _ & _ & Htr).
  - unfold holds. cbn. repeat split; try lia. now exists [Some 1; Some 2].
  - cbn. unfold SizeT.ptrdiff_max. lia.
  - exists w'. split; [exact Hrun|]. split; [exact Hw'|]. split; [exact Hc | exact Htr].
Defined.

(** Witness of X26: the iterators at the indices 1 and 3 of
    [{10, 20, 30, 40}]. *)
Lemma iterator_difference_witness :
  iterator_minus (Ptr 0 3) (Ptr 0 1) = Some (-2)
  /\ std_distance (Ptr 0 1) (Ptr 0 3) = Some (-2)
  /\ std_distance (Ptr 0 1) (Ptr 0 0) = Some 1.
Proof.
  destruct (iterator_difference_reversed int_type (filled int_type [10; 20; 30; 40] 0)
              [10; 20; 30; 40] 1 3)
    as (b & e & Hb & _ & Hm & Hd & _ & Hi).
  - unfold holds. cbn. repeat split; try lia.
    now exists [Some 10; Some 20; Some 30; Some 40].
  - cbn. lia.
  - cbn. lia.
  - injection Hb as <-. split; [exact Hm|]. split; [exact Hd | exact Hi].
Defined.
